(** * Shallow embedding of flarembo/bimap ([intrusive_set.h], [bimap.h])

    An [intrusive_set] does not own its nodes: it is a sentinel whose left
    link is the root of a binary search tree made of [node] sub-objects
    embedded in caller-owned records.  We represent the link structure of a
    well-formed tree by its shape, an inductive [tree] of records; the three
    links ([parent], [left], [right]) of the node of a record are read off
    that shape ([left_of], [right_of], [parent_of]).  A [node_t*] is an
    [nptr]: [Null], the sentinel [Sent], or the node embedded in a record
    [P x].  Records carry their address ([addr]); pointer comparison is
    comparison of addresses. *)

From Stdlib Require Import Sorting.Sorted.
From stdpp Require Import base list gmap sets.

Inductive tree (T : Type) : Type :=
| Leaf : tree T
| Node : tree T -> T -> tree T -> tree T.
Arguments Leaf {T}.
Arguments Node {T} _ _ _.

(** [node_t*]: null, the sentinel, or the node inside a record. *)
Inductive nptr (T : Type) : Type :=
| Null : nptr T
| Sent : nptr T
| P : T -> nptr T.
Arguments Null {T}.
Arguments Sent {T}.
Arguments P {T} _.

(** One-hole contexts: the path from a node up to the sentinel. *)
Inductive ctx (T : Type) : Type :=
| Top : ctx T
| InL : ctx T -> T -> tree T -> ctx T
| InR : tree T -> T -> ctx T -> ctx T.
Arguments Top {T}.
Arguments InL {T} _ _ _.
Arguments InR {T} _ _ _.

Section Trees.
Context {T : Type}.
Variable addr : T -> nat.

Fixpoint inorder (t : tree T) : list T :=
  match t with
  | Leaf => []
  | Node l x r => inorder l ++ x :: inorder r
  end.

Fixpoint tsize (t : tree T) : nat :=
  match t with
  | Leaf => 0
  | Node l _ r => S (tsize l + tsize r)
  end.

Fixpoint plug (c : ctx T) (s : tree T) : tree T :=
  match c with
  | Top => s
  | InL c x r => plug c (Node s x r)
  | InR l x c => plug c (Node l x s)
  end.

(** Position of the node with address [a]: its context and subtree. *)
Fixpoint locate_in (c : ctx T) (t : tree T) (a : nat) : option (ctx T * tree T) :=
  match t with
  | Leaf => None
  | Node l x r =>
      if Nat.eqb (addr x) a then Some (c, t)
      else match locate_in (InL c x r) l a with
           | Some res => Some res
           | None => locate_in (InR l x c) r a
           end
  end.

Definition locate (t : tree T) (a : nat) := locate_in Top t a.

Definition root_ptr (t : tree T) : nptr T :=
  match t with Leaf => Null | Node _ x _ => P x end.

Definition ctx_parent (c : ctx T) : nptr T :=
  match c with Top => Sent | InL _ y _ => P y | InR _ y _ => P y end.

(** [node->left], [node->right], [node->parent] in the tree whose root
    hangs under the sentinel as its left child. *)
Definition left_of (t : tree T) (p : nptr T) : nptr T :=
  match p with
  | Null => Null
  | Sent => root_ptr t
  | P x => match locate t (addr x) with
           | Some (_, Node l _ _) => root_ptr l
           | _ => Null
           end
  end.

Definition right_of (t : tree T) (p : nptr T) : nptr T :=
  match p with
  | Null | Sent => Null
  | P x => match locate t (addr x) with
           | Some (_, Node _ _ r) => root_ptr r
           | _ => Null
           end
  end.

Definition parent_of (t : tree T) (p : nptr T) : nptr T :=
  match p with
  | Null | Sent => Null
  | P x => match locate t (addr x) with
           | Some (c, _) => ctx_parent c
           | None => Null
           end
  end.

(** iterator [operator==]: pointer equality *)
Definition ptr_eqb (p q : nptr T) : bool :=
  match p, q with
  | Null, Null => true
  | Sent, Sent => true
  | P x, P y => Nat.eqb (addr x) (addr y)
  | _, _ => false
  end.

(** [while (node->left) node = node->left;] *)
Fixpoint go_left (fuel : nat) (t : tree T) (p : nptr T) : nptr T :=
  match fuel with
  | 0 => p
  | S f => match left_of t p with
           | Null => p
           | q => go_left f t q
           end
  end.

(** [while (node->parent && node->parent->right == node) node = node->parent;] *)
Fixpoint climb_right (fuel : nat) (t : tree T) (p : nptr T) : nptr T :=
  match fuel with
  | 0 => p
  | S f => match parent_of t p with
           | Null => p
           | q => if ptr_eqb (right_of t q) p then climb_right f t q else p
           end
  end.

(** [iterator::operator++]; the loops run at most [tsize t] times. *)
Definition incr (t : tree T) (p : nptr T) : nptr T :=
  match right_of t p with
  | Null => parent_of t (climb_right (tsize t) t p)
  | q => go_left (tsize t) t q
  end.

(** [intrusive_set::begin] and [end] *)
Definition tbegin (t : tree T) : nptr T := go_left (tsize t) t Sent.
Definition tend : nptr T := Sent.

(** [while (node->right) node = node->right;] *)
Fixpoint go_right (fuel : nat) (t : tree T) (p : nptr T) : nptr T :=
  match fuel with
  | 0 => p
  | S f => match right_of t p with
           | Null => p
           | q => go_right f t q
           end
  end.

(** [while (node->parent && node->parent->left == node) node = node->parent;] *)
Fixpoint climb_left (fuel : nat) (t : tree T) (p : nptr T) : nptr T :=
  match fuel with
  | 0 => p
  | S f => match parent_of t p with
           | Null => p
           | q => if ptr_eqb (left_of t q) p then climb_left f t q else p
           end
  end.

(** [iterator::operator--]; the loops run at most [tsize t] times (the
    sentinel's left link is the root, so the climb may reach the sentinel,
    whose parent is null). *)
Definition decr (t : tree T) (p : nptr T) : nptr T :=
  match left_of t p with
  | Null => parent_of t (climb_left (tsize t) t p)
  | q => go_right (tsize t) t q
  end.

End Trees.

Section IntrusiveSet.
Context {T Key : Type}.
Variable addr : T -> nat.
(** [Compare] *)
Variable cmp : Key -> Key -> bool.
(** [Getter::get] *)
Variable get : T -> Key.

Definition less (a b : Key) : bool := cmp a b.
Definition greater (a b : Key) : bool := cmp b a.
Definition equals (a b : Key) : bool := negb (greater a b || less a b).

(** [add_to_tree(obj, node)]: returns the new subtree root. *)
Fixpoint add_to_tree (obj : T) (t : tree T) : tree T :=
  match t with
  | Leaf => Node Leaf obj Leaf
  | Node l x r =>
      if less (get obj) (get x) then Node (add_to_tree obj l) x r
      else Node l x (add_to_tree obj r)
  end.

(** [bound_impl(key, node)] *)
Fixpoint bound_impl (key : Key) (t : tree T) : nptr T :=
  match t with
  | Leaf => Sent
  | Node l x r =>
      if less (get x) key then bound_impl key r
      else if greater (get x) key then
        match bound_impl key l with
        | Sent => P x
        | tmp => tmp
        end
      else P x
  end.

Definition lower_bound (t : tree T) (key : Key) : nptr T := bound_impl key t.

Definition upper_bound (t : tree T) (key : Key) : nptr T :=
  let it := lower_bound t key in
  match it with
  | P x => if equals key (get x) then incr addr t it else it
  | _ => it
  end.

Definition find (t : tree T) (key : Key) : nptr T :=
  let it := lower_bound t key in
  match it with
  | P x => if equals key (get x) then it else tend
  | _ => tend
  end.

(** [insert(obj, hint)]: [sentinel->left = add_to_tree(obj, sentinel->left)]. *)
Definition insert (t : tree T) (obj : T) (hint : bool) : tree T * nptr T :=
  if negb hint && negb (ptr_eqb addr (find t (get obj)) tend) then (t, tend)
  else (add_to_tree obj t, P obj).

(** [new_node = node->left; while (new_node->right) new_node = new_node->right;
     node_t::set_child(new_node, new_node->left);] *)
Fixpoint splice_rightmost (t : tree T) : option (tree T * T) :=
  match t with
  | Leaf => None
  | Node l x Leaf => Some (l, x)
  | Node l x r =>
      match splice_rightmost r with
      | Some (r', m) => Some (Node l x r', m)
      | None => None
      end
  end.

(** The subtree that takes the place of an erased node. *)
Definition erase_node (s : tree T) : tree T :=
  match s with
  | Node (Node _ _ _ as l) x (Node _ _ _ as r) =>
      match l with
      | Node ll y Leaf => Node ll y r   (* new_node->parent == node *)
      | _ => match splice_rightmost l with
             | Some (l', m) => Node l' m r
             | None => s
             end
      end
  | Node (Node _ _ _ as l) _ Leaf => l   (* set_child(node, node->left) *)
  | Node Leaf _ r => r                   (* set_child(node, node->right) *)
  | Leaf => Leaf
  end.

(** [erase(it)]: unlink the node and hand the record back.  Erasing the
    sentinel or a node foreign to the tree is undefined in the source; the
    model then leaves the tree alone. *)
Definition erase (t : tree T) (it : nptr T) : tree T * nptr T :=
  match it with
  | P x => match locate addr t (addr x) with
           | Some (c, s) => (plug c (erase_node s), P x)
           | None => (t, it)
           end
  | _ => (t, it)
  end.

End IntrusiveSet.

(** ** [bimap] *)

(** [storage_node]: the two embedded nodes are the record's membership in
    the two trees; the record's address identifies both. *)
Record storage_node (L R : Type) : Type := mk_storage {
  sn_addr : nat;
  left_key : L;
  right_key : R
}.
Arguments mk_storage {L R} _ _ _.
Arguments sn_addr {L R} _.
Arguments left_key {L R} _.
Arguments right_key {L R} _.

(** The container: the two sets (their roots hang under the shared
    sentinel, their [Compare] bases are the comparators), [m_size], and the
    addresses of the records allocated by the container and not yet freed. *)
Record bimap (L R : Type) : Type := mk_bimap {
  cmp_left : L -> L -> bool;
  cmp_right : R -> R -> bool;
  left_set : tree (storage_node L R);
  right_set : tree (storage_node L R);
  m_size : nat;
  owned : gset nat
}.
Arguments mk_bimap {L R} _ _ _ _ _ _.
Arguments cmp_left {L R} _ _ _.
Arguments cmp_right {L R} _ _ _.
Arguments left_set {L R} _.
Arguments right_set {L R} _.
Arguments m_size {L R} _.
Arguments owned {L R} _.

(** Result of a call that may throw [std::out_of_range]; [Undefined] marks
    a dereference of a non-element cursor. *)
Inductive outcome (A : Type) : Type :=
| Return : A -> outcome A
| Throw_out_of_range : outcome A
| Undefined : outcome A.
Arguments Return {A} _.
Arguments Throw_out_of_range {A}.
Arguments Undefined {A}.

Section Bimap.
Context {L R : Type}.
Abbreviation node := (storage_node L R).
Abbreviation iter := (nptr node).
Abbreviation bm := (bimap L R).

Definition bimap_new (cl : L -> L -> bool) (cr : R -> R -> bool) : bm :=
  mk_bimap cl cr Leaf Leaf 0 ∅.

Definition set_trees (b : bm) (ls rs : tree node) (n : nat) (o : gset nat) : bm :=
  mk_bimap (cmp_left b) (cmp_right b) ls rs n o.

(** [template_iterator::flip]: a static_cast between the two base
    sub-objects of one [bimap_based_node]; the same record (or the
    sentinel) is addressed through the other tree's node. *)
Definition flip (it : iter) : iter := it.

(** [template_iterator::operator*] *)
Definition deref_left (it : iter) : option L :=
  match it with P x => Some (left_key x) | _ => None end.
Definition deref_right (it : iter) : option R :=
  match it with P x => Some (right_key x) | _ => None end.

Definition it_eqb : iter -> iter -> bool := ptr_eqb (@sn_addr L R).
Definition incr_left (b : bm) (it : iter) : iter := incr (@sn_addr L R) (left_set b) it.
Definition incr_right (b : bm) (it : iter) : iter := incr (@sn_addr L R) (right_set b) it.
(** [template_iterator::operator--] *)
Definition decr_left (b : bm) (it : iter) : iter := decr (@sn_addr L R) (left_set b) it.
Definition decr_right (b : bm) (it : iter) : iter := decr (@sn_addr L R) (right_set b) it.

Definition begin_left (b : bm) : iter := tbegin (@sn_addr L R) (left_set b).
Definition begin_right (b : bm) : iter := tbegin (@sn_addr L R) (right_set b).
Definition end_left (b : bm) : iter := tend.
Definition end_right (b : bm) : iter := tend.

Definition find_left (b : bm) (k : L) : iter :=
  find (cmp_left b) (@left_key L R) (left_set b) k.
Definition find_right (b : bm) (k : R) : iter :=
  find (cmp_right b) (@right_key L R) (right_set b) k.
Definition lower_bound_left (b : bm) (k : L) : iter :=
  lower_bound (cmp_left b) (@left_key L R) (left_set b) k.
Definition upper_bound_left (b : bm) (k : L) : iter :=
  upper_bound (@sn_addr L R) (cmp_left b) (@left_key L R) (left_set b) k.
Definition lower_bound_right (b : bm) (k : R) : iter :=
  lower_bound (cmp_right b) (@right_key L R) (right_set b) k.
Definition upper_bound_right (b : bm) (k : R) : iter :=
  upper_bound (@sn_addr L R) (cmp_right b) (@right_key L R) (right_set b) k.

Definition size (b : bm) : nat := m_size b.
Definition is_empty (b : bm) : bool := Nat.eqb (m_size b) 0.

(** [perfect_forwarding_insert(left, right)]; [new storage_node] returns
    an address not owned by the container. *)
Definition perfect_forwarding_insert (b : bm) (l : L) (r : R) : bm * iter :=
  if negb (it_eqb (find_left b l) (end_left b) && it_eqb (find_right b r) (end_right b))
  then (b, end_left b)
  else
    let a := fresh (owned b) in
    let storage := mk_storage a l r in
    let rs := fst (insert (@sn_addr L R) (cmp_right b) (@right_key L R) (right_set b) storage true) in
    let n := S (m_size b) in
    let '(ls, it) := insert (@sn_addr L R) (cmp_left b) (@left_key L R) (left_set b) storage true in
    (set_trees b ls rs n ({[a]} ∪ owned b), it).

Definition bimap_insert (b : bm) (l : L) (r : R) : bm * iter :=
  perfect_forwarding_insert b l r.

(** [delete static_cast<storage_node*>(...)] *)
Definition release (o : gset nat) (p : iter) : gset nat :=
  match p with P x => o ∖ {[sn_addr x]} | _ => o end.

(** [erase_left(left_iterator)] *)
Definition erase_left (b : bm) (it : iter) : bm * iter :=
  let rs := fst (erase (@sn_addr L R) (right_set b) (flip it)) in
  let copy := it in
  let next := incr_left b it in
  let '(ls, rec) := erase (@sn_addr L R) (left_set b) copy in
  (set_trees b ls rs (m_size b - 1) (release (owned b) rec), next).

(** [erase_right(right_iterator)] *)
Definition erase_right (b : bm) (it : iter) : bm * iter :=
  let ls := fst (erase (@sn_addr L R) (left_set b) (flip it)) in
  let copy := it in
  let next := incr_right b it in
  let '(rs, rec) := erase (@sn_addr L R) (right_set b) copy in
  (set_trees b ls rs (m_size b - 1) (release (owned b) rec), next).

Definition erase_left_key (b : bm) (k : L) : bm * bool :=
  let it := find_left b k in
  if negb (it_eqb it (end_left b)) then (fst (erase_left b it), true) else (b, false).

Definition erase_right_key (b : bm) (k : R) : bm * bool :=
  let it := find_right b k in
  if negb (it_eqb it (end_right b)) then (fst (erase_right b it), true) else (b, false).

(** [erase_left(first, last)]:
    [for (auto it = first; it != last; it = erase_left(it)) {}  return last;].
    Each turn erases one record, so over a range of the container the loop
    runs at most [size()] times. *)
Fixpoint erase_left_loop (fuel : nat) (b : bm) (it last : iter) : bm :=
  match fuel with
  | 0 => b
  | S f =>
      if it_eqb it last then b
      else let '(b', next) := erase_left b it in erase_left_loop f b' next last
  end.

Definition erase_left_range (b : bm) (first last : iter) : bm * iter :=
  (erase_left_loop (S (m_size b)) b first last, last).

(** [erase_right(first, last)] *)
Fixpoint erase_right_loop (fuel : nat) (b : bm) (it last : iter) : bm :=
  match fuel with
  | 0 => b
  | S f =>
      if it_eqb it last then b
      else let '(b', next) := erase_right b it in erase_right_loop f b' next last
  end.

Definition erase_right_range (b : bm) (first last : iter) : bm * iter :=
  (erase_right_loop (S (m_size b)) b first last, last).

(** [at_left] / [at_right] *)
Definition at_left (b : bm) (key : L) : outcome R :=
  let left_it := find_left b key in
  if it_eqb left_it (end_left b) then Throw_out_of_range
  else match deref_right (flip left_it) with Some v => Return v | None => Undefined end.

Definition at_right (b : bm) (key : R) : outcome L :=
  let right_it := find_right b key in
  if it_eqb right_it (end_right b) then Throw_out_of_range
  else match deref_left (flip right_it) with Some v => Return v | None => Undefined end.

(** [at_left_or_default]; [dflt] is the value [right_t tmp{}]. *)
Definition at_left_or_default (dflt : R) (b : bm) (key : L) : bm * option R :=
  let it := find_left b key in
  if negb (it_eqb it (end_left b)) then (b, deref_right (flip it))
  else
    let tmp := dflt in
    let it2 := find_right b tmp in
    let b1 := if negb (it_eqb it2 (end_right b)) then fst (erase_right b it2) else b in
    let '(b2, ins) := bimap_insert b1 key tmp in
    (b2, deref_right (flip ins)).

(** [at_right_or_default]; [dflt] is the value [left_t tmp{}]. *)
Definition at_right_or_default (dflt : L) (b : bm) (key : R) : bm * option L :=
  let it := find_right b key in
  if negb (it_eqb it (end_right b)) then (b, deref_left (flip it))
  else
    let tmp := dflt in
    let it2 := find_left b tmp in
    let b1 := if negb (it_eqb it2 (end_left b)) then fst (erase_left b it2) else b in
    let '(b2, ins) := bimap_insert b1 tmp key in
    (b2, deref_left ins).

(** [bimap::swap]: [intrusive_set::swap] exchanges the comparators and
    the sentinels' left links (the roots); the records change owner. *)
Definition swap (a b : bm) : bm * bm :=
  (mk_bimap (cmp_left b) (cmp_right b) (left_set b) (right_set b) (m_size b) (owned b),
   mk_bimap (cmp_left a) (cmp_right a) (left_set a) (right_set a) (m_size a) (owned a)).

(** The loop of the copy constructor:
    [for (it = other.begin_left(); it != other.end_left(); it++) insert( *it, *it.flip());] *)
Fixpoint copy_loop (fuel : nat) (src : tree node) (it : iter) (dst : bm) : bm :=
  match fuel with
  | 0 => dst
  | S f =>
      if it_eqb it tend then dst
      else match deref_left it, deref_right (flip it) with
           | Some l, Some r =>
               copy_loop f src (incr (@sn_addr L R) src it) (fst (bimap_insert dst l r))
           | _, _ => dst
           end
  end.

(** [bimap(const bimap&)]; the loop runs [size()] times. *)
Definition copy_construct (other : bm) : bm :=
  copy_loop (S (m_size other)) (left_set other) (begin_left other)
    (bimap_new (cmp_left other) (cmp_right other)).

(** [operator=(const bimap&)] with [&other != this]: [bimap(other).swap( *this)];
    [swap] returns the temporary and [*this] after the exchange, and the
    temporary, now holding the old contents, is destroyed. *)
Definition copy_assign (dst other : bm) : bm := snd (swap (copy_construct other) dst).

(** [bimap] declares a copy constructor, a copy assignment and a
    destructor, so it has no move constructor and no move assignment:
    [bimap(std::move(b))] and [a = std::move(b)] select the copy
    overloads.  Each returns the destination and the moved-from container. *)
Definition move_construct (src : bm) : bm * bm := (copy_construct src, src).
Definition move_assign (dst src : bm) : bm * bm := (copy_assign dst src, src).

(** The loop of [operator==]: [a]'s comparators only. *)
Fixpoint eq_loop (comp_left : L -> L -> bool) (comp_right : R -> R -> bool)
    (fuel : nat) (ta tb : tree node) (it1 it2 : iter) : bool :=
  match fuel with
  | 0 => true
  | S f =>
      if it_eqb it2 tend then true
      else match deref_left it1, deref_left it2,
                 deref_right (flip it1), deref_right (flip it2) with
           | Some l1, Some l2, Some r1, Some r2 =>
               if comp_left l1 l2 || comp_left l2 l1 || comp_right r1 r2 || comp_right r2 r1
               then false
               else eq_loop comp_left comp_right f ta tb
                      (incr (@sn_addr L R) ta it1) (incr (@sn_addr L R) tb it2)
           | _, _, _, _ => false
           end
  end.

(** [operator==(a, b)]; the loop runs [b.size()] times. *)
Definition bimap_eqb (a b : bm) : bool :=
  if negb (Nat.eqb (size a) (size b)) then false
  else eq_loop (cmp_left a) (cmp_right a) (S (m_size b)) (left_set a) (left_set b)
         (begin_left a) (begin_left b).

Definition bimap_neqb (a b : bm) : bool := negb (bimap_eqb a b).

(** [~bimap()]: [erase_left(begin_left(), end_left())]; the state left
    behind, whose [owned] set is what the destructor did not free. *)
Definition destroy (b : bm) : bm := fst (erase_left_range b (begin_left b) (end_left b)).

End Bimap.

(** ** Specification-side notions *)

Section TreeSpec.
Context {T : Type}.
Variable addr : T -> nat.

Definition addrs (t : tree T) : list nat := map addr (inorder t).

(** Elements before and after the hole of a context, in order. *)
Fixpoint ctx_pre (c : ctx T) : list T :=
  match c with
  | Top => []
  | InL c _ _ => ctx_pre c
  | InR l x c => ctx_pre c ++ inorder l ++ [x]
  end.

Fixpoint ctx_post (c : ctx T) : list T :=
  match c with
  | Top => []
  | InL c x r => x :: inorder r ++ ctx_post c
  | InR _ _ c => ctx_post c
  end.

Fixpoint ctx_depth (c : ctx T) : nat :=
  match c with
  | Top => 0
  | InL c _ _ | InR _ _ c => S (ctx_depth c)
  end.

(** Go up while the subtree is a right child. *)
Fixpoint climb_ctx (c : ctx T) (s : tree T) : ctx T * tree T :=
  match c with
  | InR l y c' => climb_ctx c' (Node l y s)
  | _ => (c, s)
  end.

Fixpoint leftmost (l : tree T) (x : T) : T :=
  match l with
  | Leaf => x
  | Node ll y _ => leftmost ll y
  end.

Fixpoint rightmost (r : tree T) (x : T) : T :=
  match r with
  | Leaf => x
  | Node _ y rr => rightmost rr y
  end.

(** Go up while the subtree is a left child. *)
Fixpoint climb_ctx_left (c : ctx T) (s : tree T) : ctx T * tree T :=
  match c with
  | InL c' y r => climb_ctx_left c' (Node s y r)
  | _ => (c, s)
  end.

(** The cursor at the last element of a list of nodes, null if empty. *)
Definition last_ptr (l : list T) : nptr T :=
  match last l with Some x => P x | None => Null end.

(** The cursor at the head of a list of nodes, the end cursor if empty. *)
Definition hd_ptr (l : list T) : nptr T :=
  match l with [] => Sent | x :: _ => P x end.

(** The first element satisfying [p], the end cursor if none. *)
Fixpoint first_such (p : T -> bool) (l : list T) : nptr T :=
  match l with
  | [] => Sent
  | x :: l' => if p x then P x else first_such p l'
  end.

(** Iterating from a cursor by [operator++] until [end()]. *)
Fixpoint walk (fuel : nat) (t : tree T) (p : nptr T) : option (list T) :=
  match fuel with
  | 0 => None
  | S f =>
      match p with
      | Sent => Some []
      | P x => option_map (cons x) (walk f t (incr addr t p))
      | Null => None
      end
  end.

(** Iterating backwards by [operator--] from a cursor down to [begin()]:
    [while (it != begin()) { --it; visit( *it); }]. *)
Fixpoint walk_back (fuel : nat) (t : tree T) (p : nptr T) : option (list T) :=
  match fuel with
  | 0 => None
  | S f =>
      if ptr_eqb addr p (tbegin addr t) then Some []
      else match decr addr t p with
           | P x => option_map (cons x) (walk_back f t (P x))
           | _ => None
           end
  end.

End TreeSpec.

(** A strict weak ordering, as [std::less]-like comparators must be. *)
Record strict_weak_order {K : Type} (lt : K -> K -> bool) : Prop := {
  swo_irrefl : forall x, lt x x = false;
  swo_trans : forall x y z, lt x y = true -> lt y z = true -> lt x z = true;
  swo_neg_trans : forall x y z, lt x z = true -> lt x y = true \/ lt y z = true
}.

(** A key equivalent to [k] is stored in the tree. *)
Definition present {T K : Type} (lt : K -> K -> bool) (get : T -> K) (k : K) (t : tree T) : Prop :=
  exists x, x ∈ inorder t /\ equals lt (get x) k = true.

Section BimapSpec.
Context {L R : Type}.
Abbreviation node := (storage_node L R).
Abbreviation bm := (bimap L R).

Definition pair_of (x : node) : L * R := (left_key x, right_key x).

(** The representation invariant of a [bimap]. *)
Record wf (b : bm) : Prop := {
  wf_swo_left : strict_weak_order (cmp_left b);
  wf_swo_right : strict_weak_order (cmp_right b);
  wf_sorted_left : StronglySorted (fun x y => cmp_left b (left_key x) (left_key y) = true)
                     (inorder (left_set b));
  wf_sorted_right : StronglySorted (fun x y => cmp_right b (right_key x) (right_key y) = true)
                      (inorder (right_set b));
  wf_nodup : NoDup (addrs (@sn_addr L R) (left_set b));
  wf_same_nodes : inorder (left_set b) ≡ₚ inorder (right_set b);
  wf_size : m_size b = length (inorder (left_set b));
  wf_owned : owned b = list_to_set (addrs (@sn_addr L R) (left_set b))
}.

(** The states reachable through the public interface. *)
Inductive reachable : bm -> Prop :=
| reach_new cl cr :
    strict_weak_order cl -> strict_weak_order cr -> reachable (bimap_new cl cr)
| reach_insert b l r : reachable b -> reachable (fst (bimap_insert b l r))
| reach_erase_left b x :
    reachable b -> x ∈ inorder (left_set b) -> reachable (fst (erase_left b (P x)))
| reach_erase_right b x :
    reachable b -> x ∈ inorder (right_set b) -> reachable (fst (erase_right b (P x)))
| reach_erase_left_key b k : reachable b -> reachable (fst (erase_left_key b k))
| reach_erase_right_key b k : reachable b -> reachable (fst (erase_right_key b k))
| reach_at_left_or_default d b k :
    reachable b -> reachable (fst (at_left_or_default d b k))
| reach_at_right_or_default d b k :
    reachable b -> reachable (fst (at_right_or_default d b k))
| reach_swap_1 a b : reachable a -> reachable b -> reachable (fst (swap a b))
| reach_swap_2 a b : reachable a -> reachable b -> reachable (snd (swap a b))
| reach_copy b : reachable b -> reachable (copy_construct b)
| reach_copy_assign a b : reachable a -> reachable b -> reachable (copy_assign a b).

(** Two pairs whose left keys and whose right keys are not equivalent:
    each can be inserted after the other. *)
Definition compatible (cl : L -> L -> bool) (cr : R -> R -> bool) (p q : L * R) : Prop :=
  equals cl p.1 q.1 = false /\ equals cr p.2 q.2 = false.

(** Two records holding equivalent left keys and equivalent right keys. *)
Definition pair_equiv (cl : L -> L -> bool) (cr : R -> R -> bool) (x y : node) : Prop :=
  equals cl (left_key x) (left_key y) = true /\ equals cr (right_key x) (right_key y) = true.

Definition insert_all (b : bm) (ps : list (L * R)) : bm :=
  fold_left (fun acc p => fst (bimap_insert acc p.1 p.2)) ps b.

(** Iterating [begin_left()] .. [end_left()] (and on the right). *)
Definition iterate_left (b : bm) : option (list node) :=
  walk (@sn_addr L R) (S (m_size b)) (left_set b) (begin_left b).
Definition iterate_right (b : bm) : option (list node) :=
  walk (@sn_addr L R) (S (m_size b)) (right_set b) (begin_right b).

(** Iterating [end_left()] .. [begin_left()] backwards (and on the right). *)
Definition iterate_back_left (b : bm) : option (list node) :=
  walk_back (@sn_addr L R) (S (m_size b)) (left_set b) (end_left b).
Definition iterate_back_right (b : bm) : option (list node) :=
  walk_back (@sn_addr L R) (S (m_size b)) (right_set b) (end_right b).

End BimapSpec.

(** ** Concrete instances *)

(** Natural numbers compared by parity only: a strict weak order that is not
    a total order (0 and 2 are equivalent). *)
Definition parity_lt (a b : nat) : bool := Nat.ltb (a mod 2) (b mod 2).

(** The container holding the single pair (3, 0). *)
Definition ex_single : bimap nat nat := fst (bimap_insert (bimap_new Nat.ltb Nat.ltb) 3 0).

(** The container holding the pairs (1, 10), (2, 20) and (3, 30). *)
Definition ex_three : bimap nat nat :=
  fst (bimap_insert (fst (bimap_insert (fst (bimap_insert (bimap_new Nat.ltb Nat.ltb) 1 10)) 2 20)) 3 30).

(** A container ordered by parity on the left, holding (0, 0), and one
    ordered by [<] holding (2, 0). *)
Definition ex_parity : bimap nat nat := fst (bimap_insert (bimap_new parity_lt Nat.ltb) 0 0).
Definition ex_lt : bimap nat nat := fst (bimap_insert (bimap_new Nat.ltb Nat.ltb) 2 0).

(** * Proofs *)

(** ** Trees, positions and the links read off them *)

Section TreeFacts.
Context {T : Type}.
Variable addr : T -> nat.

Lemma inorder_plug (c : ctx T) (s : tree T) :
  inorder (plug c s) = ctx_pre c ++ inorder s ++ ctx_post c.
Proof.
  revert s; induction c as [|c IH x r|l x c IH]; intros s; simpl.
  - by rewrite app_nil_r.
  - rewrite IH; simpl. by rewrite <- !app_assoc.
  - rewrite IH; simpl. by rewrite <- !app_assoc.
Qed.

Lemma addrs_node (l : tree T) x r :
  addrs addr (Node l x r) = addrs addr l ++ addr x :: addrs addr r.
Proof. unfold addrs; simpl. by rewrite map_app. Qed.

Lemma addrs_plug (c : ctx T) s :
  addrs addr (plug c s) = map addr (ctx_pre c) ++ addrs addr s ++ map addr (ctx_post c).
Proof. unfold addrs. by rewrite inorder_plug, !map_app. Qed.

Lemma nodup_plug_sub (c : ctx T) s :
  NoDup (addrs addr (plug c s)) -> NoDup (addrs addr s).
Proof.
  rewrite addrs_plug. intros H.
  apply NoDup_app in H as (_ & _ & H). by apply NoDup_app in H as (? & _ & _).
Qed.

Lemma tsize_length (t : tree T) : tsize t = length (inorder t).
Proof.
  induction t as [|l IHl x r IHr]; simpl; [done|].
  rewrite length_app; simpl; lia.
Qed.

Lemma locate_in_none (c : ctx T) t a :
  a ∉ addrs addr t -> locate_in addr c t a = None.
Proof.
  revert c; induction t as [|l IHl x r IHr]; intros c Ha; simpl; [done|].
  rewrite addrs_node, elem_of_app, elem_of_cons in Ha.
  destruct (Nat.eqb_spec (addr x) a) as [E|_]; [subst; tauto|].
  rewrite IHl by tauto. apply IHr; tauto.
Qed.

Lemma locate_in_some (c : ctx T) t a :
  a ∈ addrs addr t -> exists res, locate_in addr c t a = Some res.
Proof.
  revert c; induction t as [|l IHl x r IHr]; intros c Ha; simpl.
  - unfold addrs in Ha; simpl in Ha. by apply elem_of_nil in Ha.
  - rewrite addrs_node, elem_of_app, elem_of_cons in Ha.
    destruct (Nat.eqb_spec (addr x) a) as [E|E]; [eauto|].
    destruct (locate_in addr (InL c x r) l a) as [res|] eqn:El; [eauto|].
    destruct Ha as [Ha|[Ha|Ha]].
    + destruct (IHl (InL c x r) Ha) as [? E']. congruence.
    + congruence.
    + by apply IHr.
Qed.

Lemma locate_plug (c : ctx T) s a :
  NoDup (addrs addr (plug c s)) -> a ∈ addrs addr s ->
  locate addr (plug c s) a = locate_in addr c s a.
Proof.
  revert s; induction c as [|c IH y r|l y c IH]; intros s Hnd Ha; simpl in *; [done|..].
  - rewrite IH by (done || (rewrite addrs_node, elem_of_app; tauto)).
    simpl. pose proof (nodup_plug_sub _ _ Hnd) as Hn.
    rewrite addrs_node in Hn. apply NoDup_app in Hn as (_ & Hdis & _).
    destruct (Nat.eqb_spec (addr y) a) as [<-|_].
    + exfalso. apply (Hdis _ Ha). left.
    + destruct (locate_in_some (InL c y r) s a Ha) as [res ->]. done.
  - rewrite IH by (done || (rewrite addrs_node, elem_of_app, elem_of_cons; tauto)).
    simpl. pose proof (nodup_plug_sub _ _ Hnd) as Hn.
    rewrite addrs_node in Hn. apply NoDup_app in Hn as (_ & Hdis & Hn).
    apply NoDup_cons in Hn as [Hy _].
    destruct (Nat.eqb_spec (addr y) a) as [<-|_]; [done|].
    rewrite locate_in_none; [done|].
    intros Hl. by apply (Hdis _ Hl), elem_of_cons; right.
Qed.

Lemma locate_at (c : ctx T) l x r :
  NoDup (addrs addr (plug c (Node l x r))) ->
  locate addr (plug c (Node l x r)) (addr x) = Some (c, Node l x r).
Proof.
  intros Hnd. rewrite locate_plug; [|done|].
  - simpl. by rewrite Nat.eqb_refl.
  - rewrite addrs_node, elem_of_app, elem_of_cons; tauto.
Qed.

Lemma links_at (c : ctx T) l x r :
  NoDup (addrs addr (plug c (Node l x r))) ->
  left_of addr (plug c (Node l x r)) (P x) = root_ptr l /\
  right_of addr (plug c (Node l x r)) (P x) = root_ptr r /\
  parent_of addr (plug c (Node l x r)) (P x) = ctx_parent c.
Proof. intros Hnd. unfold left_of, right_of, parent_of. by rewrite locate_at. Qed.

Lemma decompose_gen (t : tree T) (c : ctx T) x :
  x ∈ inorder t -> exists c' l r, plug c t = plug c' (Node l x r).
Proof.
  revert c; induction t as [|l IHl y r IHr]; intros c Hx; simpl in Hx.
  - by apply elem_of_nil in Hx.
  - apply elem_of_app in Hx as [Hx|Hx]; [|apply elem_of_cons in Hx as [->|Hx]].
    + destruct (IHl (InL c y r) Hx) as (c' & l' & r' & E). eauto.
    + eauto.
    + destruct (IHr (InR l y c) Hx) as (c' & l' & r' & E). eauto.
Qed.

Lemma decompose (t : tree T) x :
  x ∈ inorder t -> exists c l r, t = plug c (Node l x r).
Proof. intros Hx. apply (decompose_gen t Top x Hx). Qed.

Lemma leftmost_inorder (l : tree T) x r :
  exists tl, inorder (Node l x r) = leftmost l x :: tl.
Proof.
  revert x r; induction l as [|ll IH y lr _]; intros x r; simpl; [eauto|].
  destruct (IH y lr) as [tl E]; simpl in E. rewrite E. eauto.
Qed.

Lemma go_left_at (c : ctx T) l x r f :
  NoDup (addrs addr (plug c (Node l x r))) -> tsize l <= f ->
  go_left addr f (plug c (Node l x r)) (P x) = P (leftmost l x).
Proof.
  revert c x r f; induction l as [|ll IH y lr _]; intros c x r f Hnd Hf.
  - destruct f; cbn [go_left]; [done|].
    by rewrite (proj1 (links_at c Leaf x r Hnd)).
  - destruct f as [|f]; simpl in Hf; [lia|]. cbn [go_left].
    rewrite (proj1 (links_at c _ x r Hnd)); cbn [root_ptr].
    apply (IH (InL c x r) y lr f); [done|lia].
Qed.

Lemma climb_ctx_spec (c : ctx T) s c' s' :
  climb_ctx c s = (c', s') ->
  plug c' s' = plug c s /\ (exists pre, inorder s' = pre ++ inorder s) /\
  ctx_post c' = ctx_post c /\ (tsize s' >= tsize s) /\
  match c' with InR _ _ _ => False | _ => True end.
Proof.
  revert s; induction c as [|c IH y r|l y c IH]; intros s E; simpl in E.
  - injection E as <- <-. split_and!; try done; [exists []; done|lia].
  - injection E as <- <-. split_and!; try done; [exists []; done|lia].
  - destruct (IH _ E) as (Hp & (pre & Hpre) & Hpost & Hsz & Hc).
    split_and!; [done| |done|simpl in Hsz; lia|done].
    exists (pre ++ inorder l ++ [y]). rewrite Hpre; simpl.
    by rewrite <- !app_assoc.
Qed.

Lemma length_ctx_depth (c : ctx T) : ctx_depth c <= length (ctx_pre c ++ ctx_post c).
Proof.
  induction c as [|c IH y r|l y c IH]; simpl; [lia| |];
    rewrite !length_app in *; simpl; rewrite ?length_app; simpl; lia.
Qed.

Lemma climb_at (c : ctx T) l z r f :
  NoDup (addrs addr (plug c (Node l z r))) -> ctx_depth c <= f ->
  climb_right addr f (plug c (Node l z r)) (P z) = root_ptr (snd (climb_ctx c (Node l z r))).
Proof.
  revert l z r f; induction c as [|c IH y r'|l' y c IH]; intros l z r f Hnd Hf.
  - destruct f; cbn [climb_right]; [done|].
    by rewrite (proj2 (proj2 (links_at Top l z r Hnd))).
  - destruct f; cbn [climb_right]; [done|].
    rewrite (proj2 (proj2 (links_at (InL c y r') l z r Hnd))); cbn [ctx_parent].
    cbn [plug] in Hnd |- *. rewrite (proj1 (proj2 (links_at c _ y r' Hnd))).
    destruct r' as [|rl w rr]; simpl; [done|].
    destruct (Nat.eqb_spec (addr w) (addr z)) as [E|_]; [|done].
    exfalso. apply nodup_plug_sub in Hnd.
    rewrite !addrs_node, NoDup_app in Hnd. destruct Hnd as (Hd & Hdis & Hn).
    apply (Hdis (addr z)); [rewrite elem_of_app, elem_of_cons; tauto|].
    rewrite elem_of_cons, elem_of_app, elem_of_cons, E; tauto.
  - destruct f as [|f]; simpl in Hf; [lia|]. cbn [climb_right].
    rewrite (proj2 (proj2 (links_at (InR l' y c) l z r Hnd))); cbn [ctx_parent].
    cbn [plug] in Hnd |- *. rewrite (proj1 (proj2 (links_at c l' y _ Hnd))); cbn [root_ptr ptr_eqb].
    rewrite Nat.eqb_refl. apply IH; [done|lia].
Qed.

Lemma incr_at (c : ctx T) l x r :
  NoDup (addrs addr (plug c (Node l x r))) ->
  incr addr (plug c (Node l x r)) (P x) = hd_ptr (inorder r ++ ctx_post c).
Proof.
  intros Hnd. unfold incr.
  rewrite (proj1 (proj2 (links_at c l x r Hnd))).
  destruct r as [|rl y rr].
  - cbn [root_ptr inorder app]. destruct (climb_ctx c (Node l x Leaf)) as [c' s'] eqn:Ec.
    destruct (climb_ctx_spec _ _ _ _ Ec) as (Hp & _ & Hpost & Hsz & Hc).
    rewrite climb_at; [|done|].
    2:{ rewrite tsize_length, inorder_plug, !length_app.
        pose proof (length_ctx_depth c) as Hd. rewrite length_app in Hd. lia. }
    rewrite Ec. cbn [snd]. destruct s' as [|l' z r']; [simpl in Hsz; lia|].
    cbn [root_ptr]. rewrite <- Hp in *.
    rewrite (proj2 (proj2 (links_at c' l' z r' Hnd))).
    rewrite <- Hpost. destruct c'; simpl; done.
  - cbn [root_ptr].
    assert (E : plug c (Node l x (Node rl y rr)) = plug (InR l x c) (Node rl y rr)) by done.
    rewrite E in Hnd |- *.
    rewrite go_left_at; [|done|].
    2:{ rewrite !tsize_length, inorder_plug; cbn [inorder].
        rewrite !length_app; simpl; rewrite ?length_app; lia. }
    destruct (leftmost_inorder rl y rr) as [tl Htl].
    rewrite Htl. done.
Qed.

Lemma split_unique (A B A' B' : list T) x :
  NoDup (map addr (A ++ x :: B)) -> A ++ x :: B = A' ++ x :: B' -> A = A' /\ B = B'.
Proof.
  revert A'; induction A as [|y A IH]; intros A' Hnd E; destruct A' as [|y' A']; simpl in *.
  - by injection E.
  - injection E as Hxy E. subst. exfalso. apply NoDup_cons in Hnd as [Hn _].
    apply Hn. rewrite map_app, elem_of_app. right. by apply elem_of_cons; left.
  - injection E as Hxy E. subst. exfalso. apply NoDup_cons in Hnd as [Hn _].
    apply Hn. rewrite map_app, elem_of_app. right. by apply elem_of_cons; left.
  - injection E as -> E. apply NoDup_cons in Hnd as [_ Hnd].
    destruct (IH A' Hnd E) as [-> ->]. done.
Qed.

Lemma incr_succ (t : tree T) A x B :
  NoDup (addrs addr t) -> inorder t = A ++ x :: B -> incr addr t (P x) = hd_ptr B.
Proof.
  intros Hnd Ht.
  assert (Hx : x ∈ inorder t) by (rewrite Ht, elem_of_app, elem_of_cons; tauto).
  destruct (decompose t x Hx) as (c & l & r & ->).
  rewrite incr_at by done.
  rewrite inorder_plug in Ht; simpl in Ht.
  assert (E : (ctx_pre c ++ inorder l) ++ x :: (inorder r ++ ctx_post c) = A ++ x :: B).
  { rewrite <- Ht, <- !app_assoc. done. }
  pose proof E as E'.
  apply split_unique in E as [_ <-]; [done|].
  unfold addrs in Hnd. rewrite inorder_plug in Hnd; simpl in Hnd.
  by rewrite E', <- Ht.
Qed.

Lemma tbegin_hd (t : tree T) :
  NoDup (addrs addr t) -> tbegin addr t = hd_ptr (inorder t).
Proof.
  intros Hnd. unfold tbegin. destruct t as [|l x r]; simpl; [done|].
  change (Node l x r) with (plug Top (Node l x r)) in *.
  rewrite go_left_at; [|done|lia].
  destruct (leftmost_inorder l x r) as [tl Htl]. simpl in Htl. by rewrite Htl.
Qed.

Lemma walk_suffix (t : tree T) A B f :
  NoDup (addrs addr t) -> inorder t = A ++ B -> length B < f ->
  walk addr f t (hd_ptr B) = Some B.
Proof.
  revert A f; induction B as [|x B IH]; intros A f Hnd Ht Hf;
    destruct f as [|f]; simpl in Hf; try lia; simpl; [done|].
  rewrite (incr_succ t A x B Hnd Ht).
  rewrite (IH (A ++ [x]) f Hnd); [done| |lia].
  by rewrite Ht, <- app_assoc.
Qed.

Lemma walk_inorder (t : tree T) f :
  NoDup (addrs addr t) -> tsize t < f ->
  walk addr f t (tbegin addr t) = Some (inorder t).
Proof.
  intros Hnd Hf. rewrite tbegin_hd by done.
  apply (walk_suffix t [] (inorder t) f Hnd); [done|].
  by rewrite <- tsize_length.
Qed.

End TreeFacts.

(** ** Sorted lists *)

Section Sorted.
Context {A : Type}.
Variable Rel : A -> A -> Prop.

Lemma ss_app_iff (l1 l2 : list A) :
  StronglySorted Rel (l1 ++ l2) <->
  StronglySorted Rel l1 /\ StronglySorted Rel l2 /\
  (forall a b, a ∈ l1 -> b ∈ l2 -> Rel a b).
Proof.
  induction l1 as [|a l1 IH]; simpl.
  - split; [intros H; split_and!; [constructor|done|]|tauto].
    intros a b Ha. by apply elem_of_nil in Ha.
  - split.
    + intros H. apply StronglySorted_inv in H as [H1 H2].
      apply IH in H1 as (S1 & S2 & Hx).
      rewrite Forall_app in H2. destruct H2 as [F1 F2].
      split_and!; [by constructor|done|].
      intros a' b Ha Hb. apply elem_of_cons in Ha as [->|Ha]; [|by apply Hx].
      rewrite Forall_forall in F2. apply F2. done.
    + intros (S1 & S2 & Hx). apply StronglySorted_inv in S1 as [S1 F1].
      constructor.
      * apply IH. split_and!; [done|done|]. intros a' b Ha Hb.
        apply Hx; [by apply elem_of_cons; right|done].
      * rewrite Forall_app. split; [done|].
        apply Forall_forall. intros b Hb. apply Hx; [by apply elem_of_cons; left|].
        done.
Qed.

Hypothesis Rel_trans : forall x y z, Rel x y -> Rel y z -> Rel x z.

Lemma ss_node_iff (l1 l2 : list A) x :
  StronglySorted Rel (l1 ++ x :: l2) <->
  StronglySorted Rel l1 /\ StronglySorted Rel l2 /\
  (forall a, a ∈ l1 -> Rel a x) /\ (forall b, b ∈ l2 -> Rel x b).
Proof.
  rewrite ss_app_iff. split.
  - intros (S1 & S2 & Hx). apply StronglySorted_inv in S2 as [S2 F2].
    split_and!; [done|done| |].
    + intros a Ha. apply Hx; [done|]. by apply elem_of_cons; left.
    + intros b Hb. rewrite Forall_forall in F2. apply F2. done.
  - intros (S1 & S2 & H1 & H2). split_and!; [done| |].
    + constructor; [done|]. apply Forall_forall. intros b Hb. apply H2.
      done.
    + intros a b Ha Hb. apply elem_of_cons in Hb as [->|Hb]; [by apply H1|].
      apply (Rel_trans a x b); [by apply H1|by apply H2].
Qed.

Lemma ss_remove (l1 l2 : list A) x :
  StronglySorted Rel (l1 ++ x :: l2) -> StronglySorted Rel (l1 ++ l2).
Proof.
  rewrite ss_app_iff, ss_app_iff. intros (S1 & S2 & Hx).
  apply StronglySorted_inv in S2 as [S2 _]. split_and!; [done|done|].
  intros a b Ha Hb. apply Hx; [done|]. by apply elem_of_cons; right.
Qed.

(** Two strictly sorted arrangements of the same elements coincide. *)
Hypothesis Rel_irrefl : forall x, ~ Rel x x.

Lemma ss_perm_eq (l1 l2 : list A) :
  StronglySorted Rel l1 -> StronglySorted Rel l2 -> l1 ≡ₚ l2 -> l1 = l2.
Proof.
  revert l2; induction l1 as [|a l1 IH]; intros l2 S1 S2 Hp.
  - symmetry. by apply Permutation_nil.
  - destruct l2 as [|b l2]; [symmetry in Hp; by apply Permutation_nil_cons in Hp|].
    apply StronglySorted_inv in S1 as [S1 F1]. apply StronglySorted_inv in S2 as [S2 F2].
    assert (a = b) as <-.
    { assert (Ha : a ∈ b :: l2) by (rewrite <- Hp; by apply elem_of_cons; left).
      apply elem_of_cons in Ha as [|Ha]; [done|].
      assert (Hb : b ∈ a :: l1) by (rewrite Hp; by apply elem_of_cons; left).
      apply elem_of_cons in Hb as [|Hb]; [done|exfalso].
      rewrite Forall_forall in F1, F2.
      apply (Rel_irrefl a), (Rel_trans a b a); [by apply F1|by apply F2]. }
    f_equal. apply IH; [done|done|]. by apply Permutation_cons_inv in Hp.
Qed.

End Sorted.

(** ** [intrusive_set] on an ordered tree *)

Section OrderedSet.
Context {T Key : Type}.
Variable addr : T -> nat.
Variable lt : Key -> Key -> bool.
Variable get : T -> Key.
Hypothesis Hswo : strict_weak_order lt.

Abbreviation LT := (fun x y : T => lt (get x) (get y) = true).

Lemma lt_irrefl k : lt k k = false.
Proof. apply (swo_irrefl _ Hswo). Qed.

Lemma lt_trans a b c : lt a b = true -> lt b c = true -> lt a c = true.
Proof. apply (swo_trans _ Hswo). Qed.

Lemma lt_neg_trans a b c : lt a c = true -> lt a b = true \/ lt b c = true.
Proof. apply (swo_neg_trans _ Hswo). Qed.

Lemma lt_asym a b : lt a b = true -> lt b a = false.
Proof.
  intros H. destruct (lt b a) eqn:E; [|done].
  pose proof (lt_trans _ _ _ H E) as Ha. by rewrite lt_irrefl in Ha.
Qed.

Lemma LT_trans : forall x y z : T, LT x y -> LT y z -> LT x z.
Proof. intros x y z. apply lt_trans. Qed.

Lemma LT_irrefl : forall x : T, ~ LT x x.
Proof. intros x H. simpl in H. by rewrite lt_irrefl in H. Qed.

Lemma equals_sym a b : equals lt a b = equals lt b a.
Proof. unfold equals, less, greater. by rewrite orb_comm. Qed.

Lemma equals_true a b : equals lt a b = true <-> lt a b = false /\ lt b a = false.
Proof.
  unfold equals, less, greater.
  destruct (lt a b), (lt b a); simpl; intuition congruence.
Qed.

Lemma first_such_app (p : T -> bool) l1 l2 :
  first_such p (l1 ++ l2) =
  match first_such p l1 with Sent => first_such p l2 | q => q end.
Proof.
  induction l1 as [|x l1 IH]; simpl; [done|]. by destruct (p x).
Qed.

Lemma first_such_cases (p : T -> bool) l :
  (first_such p l = Sent /\ forall y, y ∈ l -> p y = false) \/
  (exists A x B, l = A ++ x :: B /\ first_such p l = P x /\ p x = true /\
                 forall y, y ∈ A -> p y = false).
Proof.
  induction l as [|z l IH]; simpl.
  - left. split; [done|]. intros y Hy. by apply elem_of_nil in Hy.
  - destruct (p z) eqn:Ez.
    + right. exists [], z, l. split_and!; try done. intros y Hy. by apply elem_of_nil in Hy.
    + destruct IH as [[H1 H2]|(A & x & B & -> & H1 & H2 & H3)].
      * left. split; [done|]. intros y Hy. apply elem_of_cons in Hy as [->|Hy]; [done|].
        by apply H2.
      * right. exists (z :: A), x, B. split_and!; try done.
        intros y Hy. apply elem_of_cons in Hy as [->|Hy]; [done|]. by apply H3.
Qed.

(** [bound_impl] finds the first node whose key is not less than [key]. *)
Lemma bound_impl_spec (t : tree T) key :
  StronglySorted LT (inorder t) ->
  bound_impl lt get key t = first_such (fun x => negb (lt (get x) key)) (inorder t).
Proof.
  induction t as [|l IHl x r IHr]; simpl; intros Hs; [done|].
  apply (ss_node_iff _ LT_trans) in Hs as (Sl & Sr & Hl & Hr).
  rewrite first_such_app; simpl.
  unfold less, greater.
  assert (Hlnone : (forall y, y ∈ inorder l -> lt (get y) key = true) ->
                   first_such (fun x => negb (lt (get x) key)) (inorder l) = Sent).
  { intros H. destruct (first_such_cases (fun x => negb (lt (get x) key)) (inorder l))
      as [[-> _]|(A & y & B & E & -> & Hy & _)]; [done|].
    rewrite H in Hy; [done|]. rewrite E, elem_of_app, elem_of_cons; tauto. }
  destruct (lt (get x) key) eqn:Exk.
  - rewrite Hlnone; [by apply IHr|].
    intros y Hy. by apply (lt_trans _ (get x)); [apply Hl|].
  - destruct (lt key (get x)) eqn:Ekx.
    + rewrite IHl by done. simpl.
      by destruct (first_such (fun x0 => negb (lt (get x0) key)) (inorder l)).
    + rewrite Hlnone; [done|]. intros y Hy.
      destruct (lt_neg_trans (get y) key (get x) (Hl y Hy)) as [H|H]; [done|congruence].
Qed.

Lemma lower_bound_spec (t : tree T) key :
  StronglySorted LT (inorder t) ->
  lower_bound lt get t key = first_such (fun x => negb (lt (get x) key)) (inorder t).
Proof. apply bound_impl_spec. Qed.

Lemma find_spec (t : tree T) key :
  StronglySorted LT (inorder t) ->
  (find lt get t key = Sent <-> ~ present lt get key t) /\
  (forall x, find lt get t key = P x -> x ∈ inorder t /\ equals lt (get x) key = true) /\
  find lt get t key <> Null.
Proof.
  intros Hs. unfold find. rewrite lower_bound_spec by done.
  destruct (first_such_cases (fun x => negb (lt (get x) key)) (inorder t))
    as [[-> Hall]|(A & x & B & E & -> & Hx & HA)].
  - split_and!; [|done|done]. split; [|done]. intros _ (z & Hz & Hzk).
    apply equals_true in Hzk as [Hz1 _]. specialize (Hall z Hz). simpl in Hall.
    by rewrite Hz1 in Hall.
  - simpl in Hx. apply negb_true_iff in Hx.
    destruct (equals lt key (get x)) eqn:Ekx.
    + split_and!; [| |done].
      * split; [done|]. intros Hn. exfalso. apply Hn. exists x.
        split; [rewrite E, elem_of_app, elem_of_cons; tauto|by rewrite equals_sym].
      * intros y [= <-]. split; [rewrite E, elem_of_app, elem_of_cons; tauto|].
        by rewrite equals_sym.
    + split_and!; [|done|done]. split; [|done]. intros _ (z & Hz & Hzk).
      rewrite E in Hz, Hs. apply (ss_node_iff _ LT_trans) in Hs as (_ & _ & _ & HB).
      apply equals_true in Hzk as [Hz1 Hz2].
      assert (Hkx : lt key (get x) = true).
      { unfold equals, less, greater in Ekx. rewrite Hx in Ekx.
        destruct (lt key (get x)); [done|discriminate]. }
      apply elem_of_app in Hz as [Hz|Hz].
      * specialize (HA z Hz). simpl in HA. by rewrite Hz1 in HA.
      * apply elem_of_cons in Hz as [->|Hz]; [by rewrite Hkx in Hz2|].
        pose proof (lt_trans _ _ _ Hkx (HB z Hz)) as H. by rewrite H in Hz2.
Qed.

(** [upper_bound] finds the first node whose key is greater than [key]. *)
Lemma upper_bound_spec (t : tree T) key :
  NoDup (addrs addr t) -> StronglySorted LT (inorder t) ->
  upper_bound addr lt get t key = first_such (fun x => lt key (get x)) (inorder t).
Proof.
  intros Hnd Hs. unfold upper_bound. rewrite lower_bound_spec by done.
  destruct (first_such_cases (fun x => negb (lt (get x) key)) (inorder t))
    as [[-> Hall]|(A & x & B & E & -> & Hx & HA)].
  - destruct (first_such_cases (fun x => lt key (get x)) (inorder t))
      as [[-> _]|(A & y & B & E & -> & Hy & _)]; [done|].
    exfalso. assert (Hy' : y ∈ inorder t) by (rewrite E, elem_of_app, elem_of_cons; tauto).
    specialize (Hall y Hy'). simpl in Hall. apply negb_false_iff in Hall.
    by rewrite (lt_asym _ _ Hall) in Hy.
  - simpl in Hx. apply negb_true_iff in Hx.
    assert (HA' : forall y, y ∈ A -> lt key (get y) = false).
    { intros y Hy. specialize (HA y Hy). simpl in HA. apply negb_false_iff in HA.
      by apply lt_asym. }
    assert (HAnone : first_such (fun x => lt key (get x)) A = Sent).
    { destruct (first_such_cases (fun x => lt key (get x)) A)
        as [[-> _]|(A' & y & B' & E' & -> & Hy & _)]; [done|].
      rewrite HA' in Hy; [done|]. rewrite E', elem_of_app, elem_of_cons; tauto. }
    rewrite E, first_such_app, HAnone. simpl.
    rewrite E in Hs. apply (ss_node_iff _ LT_trans) in Hs as (_ & _ & _ & HB).
    destruct (equals lt key (get x)) eqn:Ekx.
    + apply equals_true in Ekx as [Ekx _]. rewrite Ekx.
      rewrite (incr_succ addr t A x B Hnd) by done.
      destruct B as [|z B]; simpl; [done|].
      assert (Hz : lt (get x) (get z) = true) by (apply HB; by apply elem_of_cons; left).
      destruct (lt_neg_trans _ key _ Hz) as [H|H]; [congruence|by rewrite H].
    + assert (Hkx : lt key (get x) = true).
      { unfold equals, less, greater in Ekx. rewrite Hx in Ekx.
        destruct (lt key (get x)); [done|discriminate]. }
      by rewrite Hkx.
Qed.

Lemma add_to_tree_perm (t : tree T) obj :
  inorder (add_to_tree lt get obj t) ≡ₚ obj :: inorder t.
Proof.
  induction t as [|l IHl x r IHr]; simpl; [done|].
  destruct (less lt (get obj) (get x)); simpl.
  - by rewrite IHl.
  - rewrite IHr. solve_Permutation.
Qed.

Lemma add_to_tree_sorted (t : tree T) obj :
  StronglySorted LT (inorder t) ->
  (forall y, y ∈ inorder t -> equals lt (get y) (get obj) = false) ->
  StronglySorted LT (inorder (add_to_tree lt get obj t)).
Proof.
  induction t as [|l IHl x r IHr]; simpl; intros Hs Hne.
  - repeat constructor.
  - apply (ss_node_iff _ LT_trans) in Hs as (Sl & Sr & Hl & Hr).
    assert (Hxo : equals lt (get x) (get obj) = false)
      by (apply Hne; rewrite elem_of_app, elem_of_cons; tauto).
    unfold less. destruct (lt (get obj) (get x)) eqn:Eox; simpl.
    + apply (ss_node_iff _ LT_trans). split_and!; [|done| |done].
      * apply IHl; [done|]. intros y Hy. apply Hne. rewrite elem_of_app; tauto.
      * intros a Ha. rewrite (add_to_tree_perm l obj), elem_of_cons in Ha.
        destruct Ha as [->|Ha]; [done|by apply Hl].
    + assert (Hxo' : lt (get x) (get obj) = true).
      { unfold equals, less, greater in Hxo. rewrite Eox in Hxo.
        destruct (lt (get x) (get obj)); [done|discriminate]. }
      apply (ss_node_iff _ LT_trans). split_and!; [done| |done|].
      * apply IHr; [done|]. intros y Hy. apply Hne.
        rewrite elem_of_app, elem_of_cons; tauto.
      * intros b Hb. rewrite (add_to_tree_perm r obj), elem_of_cons in Hb.
        destruct Hb as [->|Hb]; [done|by apply Hr].
Qed.

End OrderedSet.

(** ** [intrusive_set::erase] *)

Section EraseFacts.
Context {T : Type}.
Variable addr : T -> nat.

Lemma splice_rightmost_spec (t t' : tree T) m :
  splice_rightmost t = Some (t', m) -> inorder t = inorder t' ++ [m].
Proof.
  revert t' m; induction t as [|l _ x r IHr]; intros t' m E; [done|].
  destruct r as [|rl y rr].
  - simpl in E. injection E as <- <-. simpl. done.
  - change (match splice_rightmost (Node rl y rr) with
            | Some (r', m) => Some (Node l x r', m) | None => None end = Some (t', m)) in E.
    destruct (splice_rightmost (Node rl y rr)) as [[r' m']|] eqn:Er; [|done].
    injection E as <- <-.
    change (inorder (Node l x (Node rl y rr))) with (inorder l ++ x :: inorder (Node rl y rr)).
    rewrite (IHr r' m' eq_refl). cbn [inorder]. rewrite <- app_assoc. done.
Qed.

Lemma splice_rightmost_node (l : tree T) x r :
  exists t' m, splice_rightmost (Node l x r) = Some (t', m).
Proof.
  revert l x; induction r as [|rl IH y rr IHr]; intros l x; [simpl; eauto|].
  change (exists t' m, match splice_rightmost (Node rl y rr) with
            | Some (r', m) => Some (Node l x r', m) | None => None end = Some (t', m)).
  destruct (IHr rl y) as (t' & m & E). rewrite E. eauto.
Qed.

Lemma erase_node_inorder (l : tree T) x r :
  inorder (erase_node (Node l x r)) = inorder l ++ inorder r.
Proof.
  destruct l as [|ll y [|lrl lry lrr]], r as [|rl z rr];
    try (simpl; rewrite ?app_nil_r, <- ?app_assoc; done).
  change (erase_node (Node (Node ll y (Node lrl lry lrr)) x (Node rl z rr)))
    with (match splice_rightmost (Node ll y (Node lrl lry lrr)) with
          | Some (l', m) => Node l' m (Node rl z rr)
          | None => Node (Node ll y (Node lrl lry lrr)) x (Node rl z rr) end).
  destruct (splice_rightmost_node ll y (Node lrl lry lrr)) as (t' & m & E).
  rewrite E. rewrite (splice_rightmost_spec _ _ _ E).
  change (inorder (Node t' m (Node rl z rr))) with (inorder t' ++ m :: inorder (Node rl z rr)).
  rewrite <- app_assoc. done.
Qed.

Lemma erase_spec (t : tree T) x :
  NoDup (addrs addr t) -> x ∈ inorder t ->
  exists A B, inorder t = A ++ x :: B /\
              inorder (fst (erase addr t (P x))) = A ++ B /\
              snd (erase addr t (P x)) = P x.
Proof.
  intros Hnd Hx. destruct (decompose t x Hx) as (c & l & r & ->).
  unfold erase. rewrite locate_at by done. cbn [fst snd].
  exists (ctx_pre c ++ inorder l), (inorder r ++ ctx_post c).
  rewrite !inorder_plug, erase_node_inorder. cbn [inorder].
  rewrite <- !app_assoc. done.
Qed.

End EraseFacts.

(** ** Lists: sortedness, pairwise properties, finite sets *)

Lemma list_to_set_perm_eq (l1 l2 : list nat) :
  l1 ≡ₚ l2 -> (list_to_set l1 : gset nat) = list_to_set l2.
Proof. intros Hp. apply set_eq. intros z. rewrite !elem_of_list_to_set. by rewrite Hp. Qed.

Section ListFacts.
Context {A : Type}.

Lemma elem_of_map_iff {B} (f : A -> B) (l : list A) y :
  y ∈ map f l <-> exists x, y = f x /\ x ∈ l.
Proof.
  rewrite list_elem_of_In, in_map_iff.
  split; intros (x & E & H); exists x; rewrite list_elem_of_In in *; auto.
Qed.

Lemma nodup_map_inv {B} (f : A -> B) (l : list A) : NoDup (map f l) -> NoDup l.
Proof.
  induction l as [|x l IH]; simpl; intros Hnd; [constructor|].
  apply NoDup_cons in Hnd as [Hx Hnd]. constructor; [|by apply IH].
  intros Hin. apply Hx. apply elem_of_map_iff. by exists x.
Qed.

Lemma nodup_map_remove {B} (f : A -> B) (l1 l2 : list A) x :
  NoDup (map f (l1 ++ x :: l2)) -> NoDup (map f (l1 ++ l2)) /\ f x ∉ map f (l1 ++ l2).
Proof.
  intros Hnd.
  assert (Hp : map f (l1 ++ x :: l2) ≡ₚ f x :: map f (l1 ++ l2)).
  { rewrite !map_app. simpl. by rewrite Permutation_middle. }
  rewrite Hp in Hnd. apply NoDup_cons in Hnd. tauto.
Qed.

Lemma ss_in_both (Rel : A -> A -> Prop) (l : list A) x y :
  StronglySorted Rel l -> x ∈ l -> y ∈ l -> x <> y -> Rel x y \/ Rel y x.
Proof.
  induction 1 as [|a l Hs IH Hf]; intros Hx Hy Hne; [by apply elem_of_nil in Hx|].
  rewrite Forall_forall in Hf.
  apply elem_of_cons in Hx as [->|Hx]; apply elem_of_cons in Hy as [->|Hy].
  - done.
  - left. by apply Hf.
  - right. by apply Hf.
  - by apply IH.
Qed.

Lemma ss_map {B} (f : A -> B) (Rel : B -> B -> Prop) (l : list A) :
  StronglySorted (fun x y => Rel (f x) (f y)) l -> StronglySorted Rel (map f l).
Proof.
  induction 1 as [|a l Hs IH Hf]; simpl; [constructor|].
  constructor; [done|]. apply Forall_forall. intros b Hb.
  apply elem_of_map_iff in Hb as (y & -> & Hy). rewrite Forall_forall in Hf. by apply Hf.
Qed.

Lemma fop_map {B} (f : A -> B) (Rel : B -> B -> Prop) (l : list A) :
  ForallOrdPairs (fun x y => Rel (f x) (f y)) l -> ForallOrdPairs Rel (map f l).
Proof.
  induction 1 as [|a l Hf Hs IH]; simpl; constructor; [|done].
  apply Forall_forall. intros b Hb. rewrite Forall_forall in Hf.
  apply elem_of_map_iff in Hb as (y & -> & Hy). by apply Hf.
Qed.

Lemma fop_of_nodup (Rel : A -> A -> Prop) (l : list A) :
  NoDup l -> (forall x y, x ∈ l -> y ∈ l -> x <> y -> Rel x y) -> ForallOrdPairs Rel l.
Proof.
  induction l as [|a l IH]; intros Hnd H; constructor.
  - apply Forall_forall. intros y Hy.
    apply NoDup_cons in Hnd as [Ha _].
    apply H; [by apply elem_of_cons; left|by apply elem_of_cons; right|]. intros ->. done.
  - apply NoDup_cons in Hnd as [_ Hnd]. apply IH; [done|].
    intros x y Hx Hy. apply H; by apply elem_of_cons; right.
Qed.

Lemma fop_perm (Rel : A -> A -> Prop) (Hsym : forall x y, Rel x y -> Rel y x) (l l' : list A) :
  l ≡ₚ l' -> ForallOrdPairs Rel l -> ForallOrdPairs Rel l'.
Proof.
  induction 1 as [|x l l' Hp IH|x y l|l l' l'' _ IH1 _ IH2]; intros Hf.
  - done.
  - inversion Hf as [|? ? Hx Hl]; subst. constructor; [|by apply IH].
    apply Forall_forall. intros z Hz. rewrite Forall_forall in Hx.
    apply Hx. by rewrite Hp.
  - inversion Hf as [|? ? Hy Hl]; subst. inversion Hl as [|? ? Hx Hl']; subst.
    inversion Hy as [|? ? Hyx Hyl]; subst.
    constructor; [constructor; [by apply Hsym|done]|constructor; done].
  - by apply IH2, IH1.
Qed.

Lemma fop_app_inv (Rel : A -> A -> Prop) (l : list A) x :
  ForallOrdPairs Rel (x :: l) -> (forall y, y ∈ l -> Rel x y) /\ ForallOrdPairs Rel l.
Proof.
  inversion 1 as [|? ? Hx Hl]; subst. split; [|done].
  intros y Hy. rewrite Forall_forall in Hx. by apply Hx.
Qed.
End ListFacts.

(** ** Equivalence of keys under a strict weak order *)

Section Equivalence.
Context {T Key : Type}.
Variable lt : Key -> Key -> bool.
Variable get : T -> Key.
Hypothesis Hswo : strict_weak_order lt.
Abbreviation LT := (fun x y : T => lt (get x) (get y) = true).

Lemma equals_refl k : equals lt k k = true.
Proof. apply equals_true. by rewrite (swo_irrefl _ Hswo). Qed.

Lemma equals_trans a b c :
  equals lt a b = true -> equals lt b c = true -> equals lt a c = true.
Proof.
  rewrite !equals_true. intros [H1 H2] [H3 H4]. split.
  - destruct (lt a c) eqn:E; [|done].
    destruct (swo_neg_trans _ Hswo a b c E) as [E'|E']; congruence.
  - destruct (lt c a) eqn:E; [|done].
    destruct (swo_neg_trans _ Hswo c b a E) as [E'|E']; congruence.
Qed.

Lemma lt_not_equals a b : lt a b = true -> equals lt a b = false.
Proof.
  intros H. destruct (equals lt a b) eqn:E; [|done].
  apply equals_true in E as [E _]. congruence.
Qed.

(** In a strictly sorted list, two different elements hold non-equivalent keys. *)
Lemma sorted_distinct (l : list T) x y :
  StronglySorted LT l -> x ∈ l -> y ∈ l -> x <> y -> equals lt (get x) (get y) = false.
Proof.
  intros Hs Hx Hy Hne.
  destruct (ss_in_both _ l x y Hs Hx Hy Hne) as [H|H].
  - by apply lt_not_equals.
  - rewrite equals_sym. by apply lt_not_equals.
Qed.

(** Removing an element of a strictly sorted list removes its key. *)
Lemma sorted_removed_absent (A B : list T) x y :
  StronglySorted LT (A ++ x :: B) -> y ∈ A ++ B -> equals lt (get y) (get x) = false.
Proof.
  intros Hs Hy.
  apply (ss_node_iff _ (LT_trans lt get Hswo)) in Hs as (_ & _ & HA & HB).
  apply elem_of_app in Hy as [Hy|Hy].
  - apply lt_not_equals. by apply HA.
  - rewrite equals_sym. apply lt_not_equals. by apply HB.
Qed.

(** A tree holding one more element [x] than another. *)
Lemma present_cons (t : tree T) (l : list T) x k :
  inorder t ≡ₚ x :: l ->
  present lt get k t <-> equals lt (get x) k = true \/ exists y, y ∈ l /\ equals lt (get y) k = true.
Proof.
  intros Hp. unfold present. setoid_rewrite Hp. setoid_rewrite elem_of_cons. naive_solver.
Qed.
End Equivalence.

(** ** The container operations and the invariant *)

Section BimapFacts.
Context {L R : Type}.
Abbreviation node := (storage_node L R).
Abbreviation bm := (bimap L R).

Lemma it_eqb_sent_l (b : bm) : it_eqb Sent (end_left b) = true.
Proof. done. Qed.
Lemma it_eqb_sent_r (b : bm) : it_eqb Sent (end_right b) = true.
Proof. done. Qed.
Lemma it_eqb_P_l (b : bm) (x : node) : it_eqb (P x) (end_left b) = false.
Proof. done. Qed.
Lemma it_eqb_P_r (b : bm) (x : node) : it_eqb (P x) (end_right b) = false.
Proof. done. Qed.

Lemma swap_eq (a b : bm) : swap a b = (b, a).
Proof. by destruct a, b. Qed.

Lemma copy_assign_eq (a b : bm) : copy_assign a b = copy_construct b.
Proof. unfold copy_assign. by rewrite swap_eq. Qed.

Lemma wf_new cl cr : strict_weak_order cl -> strict_weak_order cr -> wf (@bimap_new L R cl cr).
Proof. intros Hl Hr. split; simpl; try done; constructor. Qed.

Lemma wf_nodup_right (b : bm) : wf b -> NoDup (addrs (@sn_addr L R) (right_set b)).
Proof.
  intros Hb. pose proof (wf_nodup _ Hb) as H. unfold addrs in *.
  by rewrite <- (wf_same_nodes _ Hb).
Qed.

Lemma in_right_of_left (b : bm) x : wf b -> x ∈ inorder (left_set b) -> x ∈ inorder (right_set b).
Proof. intros Hb Hx. by rewrite <- (wf_same_nodes _ Hb). Qed.

Lemma in_left_of_right (b : bm) x : wf b -> x ∈ inorder (right_set b) -> x ∈ inorder (left_set b).
Proof. intros Hb Hx. by rewrite (wf_same_nodes _ Hb). Qed.

Lemma find_left_cases (b : bm) k : wf b ->
  (find_left b k = Sent /\ ~ present (cmp_left b) (@left_key L R) k (left_set b)) \/
  (exists x, find_left b k = P x /\ x ∈ inorder (left_set b) /\
             equals (cmp_left b) (left_key x) k = true).
Proof.
  intros Hb.
  destruct (find_spec (@sn_addr L R) (cmp_left b) left_key (wf_swo_left _ Hb) (left_set b) k
              (wf_sorted_left _ Hb)) as (H1 & H2 & H3).
  unfold find_left. destruct (find (cmp_left b) left_key (left_set b) k) as [| |x] eqn:E.
  - done.
  - left. split; [done|]. by apply H1.
  - right. exists x. split; [done|]. by apply H2.
Qed.

Lemma find_right_cases (b : bm) k : wf b ->
  (find_right b k = Sent /\ ~ present (cmp_right b) (@right_key L R) k (right_set b)) \/
  (exists x, find_right b k = P x /\ x ∈ inorder (right_set b) /\
             equals (cmp_right b) (right_key x) k = true).
Proof.
  intros Hb.
  destruct (find_spec (@sn_addr L R) (cmp_right b) right_key (wf_swo_right _ Hb) (right_set b) k
              (wf_sorted_right _ Hb)) as (H1 & H2 & H3).
  unfold find_right. destruct (find (cmp_right b) right_key (right_set b) k) as [| |x] eqn:E.
  - done.
  - left. split; [done|]. by apply H1.
  - right. exists x. split; [done|]. by apply H2.
Qed.

Lemma find_left_not_present (b : bm) k : wf b ->
  find_left b k = Sent <-> ~ present (cmp_left b) (@left_key L R) k (left_set b).
Proof.
  intros Hb. apply (find_spec (@sn_addr L R) _ _ (wf_swo_left _ Hb) _ _ (wf_sorted_left _ Hb)).
Qed.

Lemma find_right_not_present (b : bm) k : wf b ->
  find_right b k = Sent <-> ~ present (cmp_right b) (@right_key L R) k (right_set b).
Proof.
  intros Hb. apply (find_spec (@sn_addr L R) _ _ (wf_swo_right _ Hb) _ _ (wf_sorted_right _ Hb)).
Qed.

(** *** Insertion *)

Lemma insert_reject (b : bm) l r : wf b ->
  present (cmp_left b) (@left_key L R) l (left_set b) \/
  present (cmp_right b) (@right_key L R) r (right_set b) ->
  bimap_insert b l r = (b, end_left b).
Proof.
  intros Hb Hp. unfold bimap_insert, perfect_forwarding_insert.
  destruct (find_left b l) as [| |x] eqn:El, (find_right b r) as [| |y] eqn:Er; try reflexivity.
  exfalso. apply (find_left_not_present b l Hb) in El. apply (find_right_not_present b r Hb) in Er.
  tauto.
Qed.

Lemma insert_accept (b : bm) l r : wf b ->
  ~ present (cmp_left b) (@left_key L R) l (left_set b) ->
  ~ present (cmp_right b) (@right_key L R) r (right_set b) ->
  bimap_insert b l r =
    (set_trees b
       (add_to_tree (cmp_left b) left_key (mk_storage (fresh (owned b)) l r) (left_set b))
       (add_to_tree (cmp_right b) right_key (mk_storage (fresh (owned b)) l r) (right_set b))
       (S (m_size b)) ({[fresh (owned b)]} ∪ owned b),
     P (mk_storage (fresh (owned b)) l r)).
Proof.
  intros Hb Hl Hr.
  apply (find_left_not_present b l Hb) in Hl. apply (find_right_not_present b r Hb) in Hr.
  unfold bimap_insert, perfect_forwarding_insert. rewrite Hl, Hr. reflexivity.
Qed.

Lemma insert_accept_spec (b : bm) l r : wf b ->
  ~ present (cmp_left b) (@left_key L R) l (left_set b) ->
  ~ present (cmp_right b) (@right_key L R) r (right_set b) ->
  exists x, snd (bimap_insert b l r) = P x /\ left_key x = l /\ right_key x = r /\
    (sn_addr x ∉ owned b) /\
    inorder (left_set (fst (bimap_insert b l r))) ≡ₚ x :: inorder (left_set b) /\
    inorder (right_set (fst (bimap_insert b l r))) ≡ₚ x :: inorder (right_set b) /\
    m_size (fst (bimap_insert b l r)) = S (m_size b) /\
    owned (fst (bimap_insert b l r)) = {[sn_addr x]} ∪ owned b /\
    cmp_left (fst (bimap_insert b l r)) = cmp_left b /\
    cmp_right (fst (bimap_insert b l r)) = cmp_right b /\
    wf (fst (bimap_insert b l r)).
Proof.
  intros Hb Hl Hr. rewrite (insert_accept b l r Hb Hl Hr). unfold set_trees.
  cbn [fst snd cmp_left cmp_right left_set right_set m_size owned].
  set (x := mk_storage (fresh (owned b)) l r).
  pose proof (add_to_tree_perm (cmp_left b) left_key (left_set b) x) as Pl.
  pose proof (add_to_tree_perm (cmp_right b) right_key (right_set b) x) as Pr.
  assert (Hfo : sn_addr x ∉ owned b) by apply is_fresh.
  assert (Hfresh : sn_addr x ∉ addrs (@sn_addr L R) (left_set b)).
  { intros Hin. apply Hfo. rewrite (wf_owned _ Hb). by apply elem_of_list_to_set. }
  exists x. do 10 (split; [done|]).
  split; cbn [cmp_left cmp_right left_set right_set m_size owned].
  - apply Hb.
  - apply Hb.
  - apply (add_to_tree_sorted (@sn_addr L R)); [apply Hb|apply Hb|].
    intros y Hy. destruct (equals (cmp_left b) (left_key y) (left_key x)) eqn:E; [|done].
    exfalso. apply Hl. by exists y.
  - apply (add_to_tree_sorted (@sn_addr L R)); [apply Hb|apply Hb|].
    intros y Hy. destruct (equals (cmp_right b) (right_key y) (right_key x)) eqn:E; [|done].
    exfalso. apply Hr. by exists y.
  - unfold addrs. rewrite Pl. simpl. constructor; [done|]. apply Hb.
  - rewrite Pl, Pr. constructor. apply Hb.
  - rewrite (Permutation_length Pl). simpl. f_equal. apply Hb.
  - unfold addrs. rewrite (list_to_set_perm_eq _ (map (@sn_addr L R) (x :: inorder (left_set b))));
      [|by apply Permutation_map].
    simpl. rewrite (wf_owned _ Hb). done.
Qed.

Lemma wf_insert (b : bm) l r : wf b -> wf (fst (bimap_insert b l r)).
Proof.
  intros Hb.
  destruct (find_left_cases b l Hb) as [[_ Hl]|(x & _ & Hx & Ex)].
  - destruct (find_right_cases b r Hb) as [[_ Hr]|(y & _ & Hy & Ey)].
    + by destruct (insert_accept_spec b l r Hb Hl Hr) as (x & _ & _ & _ & _ & _ & _ & _ & _ & _ & _ & ?).
    + rewrite insert_reject; [done|done|]. right. by exists y.
  - rewrite insert_reject; [done|done|]. left. by exists x.
Qed.

(** *** Erasure *)

Lemma erase_left_spec (b : bm) x : wf b -> x ∈ inorder (left_set b) ->
  exists A B A' B',
    inorder (left_set b) = A ++ x :: B /\ inorder (right_set b) = A' ++ x :: B' /\
    inorder (left_set (fst (erase_left b (P x)))) = A ++ B /\
    inorder (right_set (fst (erase_left b (P x)))) = A' ++ B' /\
    snd (erase_left b (P x)) = hd_ptr B /\
    m_size (fst (erase_left b (P x))) = m_size b - 1 /\
    owned (fst (erase_left b (P x))) = owned b ∖ {[sn_addr x]} /\
    cmp_left (fst (erase_left b (P x))) = cmp_left b /\
    cmp_right (fst (erase_left b (P x))) = cmp_right b.
Proof.
  intros Hb Hx. pose proof (in_right_of_left b x Hb Hx) as Hx'.
  destruct (erase_spec (@sn_addr L R) (left_set b) x (wf_nodup _ Hb) Hx) as (A & B & E1 & E2 & E3).
  destruct (erase_spec (@sn_addr L R) (right_set b) x (wf_nodup_right _ Hb) Hx')
    as (A' & B' & E1' & E2' & E3').
  exists A, B, A', B'.
  unfold erase_left, flip, incr_left.
  destruct (erase (@sn_addr L R) (left_set b) (P x)) as [ls rec] eqn:E.
  simpl in E2, E3. subst rec.
  rewrite (incr_succ (@sn_addr L R) (left_set b) A x B (wf_nodup _ Hb) E1).
  unfold set_trees; simpl. repeat split; done.
Qed.

Lemma erase_right_spec (b : bm) x : wf b -> x ∈ inorder (right_set b) ->
  exists A B A' B',
    inorder (right_set b) = A ++ x :: B /\ inorder (left_set b) = A' ++ x :: B' /\
    inorder (right_set (fst (erase_right b (P x)))) = A ++ B /\
    inorder (left_set (fst (erase_right b (P x)))) = A' ++ B' /\
    snd (erase_right b (P x)) = hd_ptr B /\
    m_size (fst (erase_right b (P x))) = m_size b - 1 /\
    owned (fst (erase_right b (P x))) = owned b ∖ {[sn_addr x]} /\
    cmp_left (fst (erase_right b (P x))) = cmp_left b /\
    cmp_right (fst (erase_right b (P x))) = cmp_right b.
Proof.
  intros Hb Hx. pose proof (in_left_of_right b x Hb Hx) as Hx'.
  destruct (erase_spec (@sn_addr L R) (right_set b) x (wf_nodup_right _ Hb) Hx)
    as (A & B & E1 & E2 & E3).
  destruct (erase_spec (@sn_addr L R) (left_set b) x (wf_nodup _ Hb) Hx')
    as (A' & B' & E1' & E2' & E3').
  exists A, B, A', B'.
  unfold erase_right, flip, incr_right.
  destruct (erase (@sn_addr L R) (right_set b) (P x)) as [rs rec] eqn:E.
  simpl in E2, E3. subst rec.
  rewrite (incr_succ (@sn_addr L R) (right_set b) A x B (wf_nodup_right _ Hb) E1).
  unfold set_trees; simpl. repeat split; done.
Qed.

Lemma wf_after_erase (b b' : bm) x A B A' B' : wf b ->
  inorder (left_set b) = A ++ x :: B -> inorder (right_set b) = A' ++ x :: B' ->
  inorder (left_set b') = A ++ B -> inorder (right_set b') = A' ++ B' ->
  m_size b' = m_size b - 1 -> owned b' = owned b ∖ {[sn_addr x]} ->
  cmp_left b' = cmp_left b -> cmp_right b' = cmp_right b -> wf b'.
Proof.
  intros Hb E1 E1' E2 E2' Es Eo Ecl Ecr.
  pose proof (wf_nodup _ Hb) as Hnd. unfold addrs in Hnd. rewrite E1 in Hnd.
  destruct (nodup_map_remove (@sn_addr L R) A B x Hnd) as [Hnd' Hnin].
  split.
  - rewrite Ecl; apply Hb.
  - rewrite Ecr; apply Hb.
  - rewrite Ecl, E2. apply (ss_remove _ _ _ x). rewrite <- E1. apply Hb.
  - rewrite Ecr, E2'. apply (ss_remove _ _ _ x). rewrite <- E1'. apply Hb.
  - unfold addrs. by rewrite E2.
  - rewrite E2, E2'. apply (Permutation_app_inv _ _ _ _ x). rewrite <- E1, <- E1'. apply Hb.
  - rewrite Es, E2, (wf_size _ Hb), E1, !length_app. simpl. lia.
  - rewrite Eo, (wf_owned _ Hb). unfold addrs. rewrite E1, E2.
    apply set_eq. intros z.
    rewrite elem_of_difference, !elem_of_list_to_set, elem_of_singleton, !map_app, !elem_of_app.
    simpl. rewrite elem_of_cons. rewrite map_app, elem_of_app in Hnin. naive_solver.
Qed.

Lemma wf_erase_left (b : bm) x : wf b -> x ∈ inorder (left_set b) -> wf (fst (erase_left b (P x))).
Proof.
  intros Hb Hx.
  destruct (erase_left_spec b x Hb Hx) as (A & B & A' & B' & E1 & E1' & E2 & E2' & _ & Es & Eo & Ecl & Ecr).
  exact (wf_after_erase b _ x A B A' B' Hb E1 E1' E2 E2' Es Eo Ecl Ecr).
Qed.

Lemma wf_erase_right (b : bm) x : wf b -> x ∈ inorder (right_set b) -> wf (fst (erase_right b (P x))).
Proof.
  intros Hb Hx.
  destruct (erase_right_spec b x Hb Hx) as (A & B & A' & B' & E1 & E1' & E2 & E2' & _ & Es & Eo & Ecl & Ecr).
  exact (wf_after_erase b _ x A' B' A B Hb E1' E1 E2' E2 Es Eo Ecl Ecr).
Qed.

Lemma wf_erase_left_key (b : bm) k : wf b -> wf (fst (erase_left_key b k)).
Proof.
  intros Hb. unfold erase_left_key.
  destruct (find_left_cases b k Hb) as [[E _]|(x & E & Hx & _)]; rewrite E.
  - exact Hb.
  - rewrite it_eqb_P_l. by apply wf_erase_left.
Qed.

Lemma wf_erase_right_key (b : bm) k : wf b -> wf (fst (erase_right_key b k)).
Proof.
  intros Hb. unfold erase_right_key.
  destruct (find_right_cases b k Hb) as [[E _]|(x & E & Hx & _)]; rewrite E.
  - exact Hb.
  - rewrite it_eqb_P_r. by apply wf_erase_right.
Qed.

(** *** Copying *)

Lemma insert_all_spec (ps : list (L * R)) (b : bm) : wf b ->
  ForallOrdPairs (compatible (cmp_left b) (cmp_right b)) ps ->
  (forall p, p ∈ ps -> ~ present (cmp_left b) (@left_key L R) p.1 (left_set b) /\
                       ~ present (cmp_right b) (@right_key L R) p.2 (right_set b)) ->
  wf (insert_all b ps) /\ cmp_left (insert_all b ps) = cmp_left b /\
  cmp_right (insert_all b ps) = cmp_right b /\
  map pair_of (inorder (left_set (insert_all b ps))) ≡ₚ ps ++ map pair_of (inorder (left_set b)).
Proof.
  revert b; induction ps as [|p ps IH]; intros b Hb Hf Hn; [done|].
  apply fop_app_inv in Hf as [Hp Hf].
  destruct (Hn p) as [Hl Hr]; [by apply elem_of_cons; left|].
  destruct (insert_accept_spec b p.1 p.2 Hb Hl Hr)
    as (x & _ & Ekl & Ekr & _ & Pl & Pr & _ & _ & Ecl & Ecr & Hb1).
  change (insert_all b (p :: ps)) with (insert_all (fst (bimap_insert b p.1 p.2)) ps).
  set (b1 := fst (bimap_insert b p.1 p.2)) in *.
  destruct (IH b1 Hb1) as (Hw & Ecl' & Ecr' & Hperm).
  - by rewrite Ecl, Ecr.
  - intros q Hq.
    assert (Hc : compatible (cmp_left b) (cmp_right b) p q) by (by apply Hp).
    destruct (Hn q) as [Hql Hqr]; [by apply elem_of_cons; right|].
    destruct Hc as [Hc1 Hc2]. split.
    + rewrite Ecl, (present_cons _ _ _ _ _ _ Pl), Ekl, Hc1.
      intros [H|H]; [done|]. by apply Hql.
    + rewrite Ecr, (present_cons _ _ _ _ _ _ Pr), Ekr, Hc2.
      intros [H|H]; [done|]. by apply Hqr.
  - do 3 (split; [congruence|]).
    rewrite Hperm, (Permutation_map pair_of Pl). simpl.
    assert (Ex : pair_of x = p) by (unfold pair_of; rewrite Ekl, Ekr; by destruct p).
    rewrite Ex. symmetry. apply Permutation_middle.
Qed.

Lemma copy_loop_insert_all (src : tree node) pre rest f (dst : bm) :
  NoDup (addrs (@sn_addr L R) src) -> inorder src = pre ++ rest -> length rest < f ->
  copy_loop f src (hd_ptr rest) dst = insert_all dst (map pair_of rest).
Proof.
  revert pre f dst; induction rest as [|x rest IH]; intros pre f dst Hnd E Hf;
    destruct f as [|f]; simpl in Hf; try lia; [done|].
  change (copy_loop (S f) src (hd_ptr (x :: rest)) dst)
    with (copy_loop f src (incr (@sn_addr L R) src (P x))
            (fst (bimap_insert dst (left_key x) (right_key x)))).
  change (insert_all dst (map pair_of (x :: rest)))
    with (insert_all (fst (bimap_insert dst (left_key x) (right_key x))) (map pair_of rest)).
  rewrite (incr_succ _ src pre x rest Hnd E).
  apply (IH (pre ++ [x])); [done| |lia].
  by rewrite E, <- app_assoc.
Qed.

Lemma copy_spec (b : bm) : wf b ->
  wf (copy_construct b) /\ cmp_left (copy_construct b) = cmp_left b /\
  cmp_right (copy_construct b) = cmp_right b /\
  map pair_of (inorder (left_set (copy_construct b))) = map pair_of (inorder (left_set b)) /\
  m_size (copy_construct b) = m_size b.
Proof.
  intros Hb.
  assert (E : copy_construct b =
              insert_all (bimap_new (cmp_left b) (cmp_right b)) (map pair_of (inorder (left_set b)))).
  { unfold copy_construct, begin_left. rewrite tbegin_hd by apply Hb.
    apply (copy_loop_insert_all _ []); [apply Hb|done|]. rewrite (wf_size _ Hb). lia. }
  rewrite E.
  destruct (insert_all_spec (map pair_of (inorder (left_set b))) (bimap_new (cmp_left b) (cmp_right b)))
    as (Hw & Ecl & Ecr & Hp).
  - apply wf_new; apply Hb.
  - apply fop_map. apply fop_of_nodup.
    + exact (nodup_map_inv _ _ (wf_nodup _ Hb)).
    + intros x y Hx Hy Hne. split; simpl.
      * exact (sorted_distinct (cmp_left b) left_key _ x y (wf_sorted_left _ Hb) Hx Hy Hne).
      * exact (sorted_distinct (cmp_right b) right_key _ x y (wf_sorted_right _ Hb)
                 (in_right_of_left b x Hb Hx) (in_right_of_left b y Hb Hy) Hne).
  - intros p _. simpl. split; intros (y & Hy & _); by apply elem_of_nil in Hy.
  - assert (Heq : map pair_of (inorder (left_set (insert_all (bimap_new (cmp_left b) (cmp_right b))
                                                     (map pair_of (inorder (left_set b)))))) =
                  map pair_of (inorder (left_set b))).
    { apply (ss_perm_eq (fun p q : L * R => cmp_left b p.1 q.1 = true)).
      - intros ??? H1 H2. exact (swo_trans _ (wf_swo_left _ Hb) _ _ _ H1 H2).
      - intros ? H. by rewrite (swo_irrefl _ (wf_swo_left _ Hb)) in H.
      - apply ss_map. pose proof (wf_sorted_left _ Hw) as Hs. rewrite Ecl in Hs. exact Hs.
      - apply ss_map. exact (wf_sorted_left _ Hb).
      - rewrite Hp. simpl. by rewrite app_nil_r. }
    do 3 (split; [done|]). split; [done|].
    rewrite (wf_size _ Hw), (wf_size _ Hb), <- (length_map pair_of), Heq, length_map. done.
Qed.

(** *** Equality *)

Lemma eq_loop_spec cl cr (ta tb : tree node) A A' B B' f :
  NoDup (addrs (@sn_addr L R) ta) -> NoDup (addrs (@sn_addr L R) tb) ->
  inorder ta = A ++ A' -> inorder tb = B ++ B' -> length A' = length B' -> length B' < f ->
  eq_loop cl cr f ta tb (hd_ptr A') (hd_ptr B') = true <-> Forall2 (pair_equiv cl cr) A' B'.
Proof.
  revert A A' B f; induction B' as [|y B' IH]; intros A A' B f Hna Hnb Ea Eb Hl Hf;
    destruct f as [|f]; simpl in Hf; try lia.
  - destruct A' as [|x A']; simpl in Hl; [|lia]. simpl. split; [constructor|done].
  - destruct A' as [|x A']; simpl in Hl; [lia|].
    change (eq_loop cl cr (S f) ta tb (hd_ptr (x :: A')) (hd_ptr (y :: B')))
      with (if cl (left_key x) (left_key y) || cl (left_key y) (left_key x) ||
               cr (right_key x) (right_key y) || cr (right_key y) (right_key x)
            then false
            else eq_loop cl cr f ta tb (incr (@sn_addr L R) ta (P x)) (incr (@sn_addr L R) tb (P y))).
    rewrite (incr_succ _ ta A x A' Hna Ea), (incr_succ _ tb B y B' Hnb Eb).
    rewrite Forall2_cons, <- (IH (A ++ [x]) A' (B ++ [y]) f Hna Hnb); [| by rewrite Ea, <- app_assoc
      | by rewrite Eb, <- app_assoc | lia | lia].
    unfold pair_equiv, equals, greater, less.
    destruct (cl (left_key x) (left_key y)), (cl (left_key y) (left_key x)),
      (cr (right_key x) (right_key y)), (cr (right_key y) (right_key x)); simpl;
      intuition congruence.
Qed.

Lemma bimap_eqb_spec (a b : bm) : wf a -> wf b ->
  bimap_eqb a b = true <->
  size a = size b /\
  Forall2 (pair_equiv (cmp_left a) (cmp_right a)) (inorder (left_set a)) (inorder (left_set b)).
Proof.
  intros Ha Hb. unfold bimap_eqb, size.
  destruct (Nat.eqb_spec (m_size a) (m_size b)) as [Es|Ns]; cbn [negb].
  - unfold begin_left. rewrite (tbegin_hd _ (left_set a) (wf_nodup _ Ha)),
      (tbegin_hd _ (left_set b) (wf_nodup _ Hb)).
    rewrite (eq_loop_spec _ _ _ _ [] _ [] _ _ (wf_nodup _ Ha) (wf_nodup _ Hb)); [tauto|done|done| |].
    + by rewrite <- (wf_size _ Ha), <- (wf_size _ Hb).
    + rewrite <- (wf_size _ Hb). lia.
  - split; [done|]. intros [E _]. done.
Qed.

Lemma forall2_pair_equiv cl cr (l1 l2 : list node) :
  strict_weak_order cl -> strict_weak_order cr ->
  map pair_of l1 = map pair_of l2 -> Forall2 (pair_equiv cl cr) l1 l2.
Proof.
  intros Hl Hr. revert l2; induction l1 as [|x l1 IH]; intros [|y l2] E; try done.
  simpl in E. assert (E1 : pair_of x = pair_of y) by congruence.
  assert (E2 : map pair_of l1 = map pair_of l2) by congruence.
  unfold pair_of in E1. assert (E3 : left_key x = left_key y) by congruence.
  assert (E4 : right_key x = right_key y) by congruence.
  constructor; [|by apply IH].
  split; [rewrite E3|rewrite E4]; by apply equals_refl.
Qed.

(** *** [at_left_or_default] and [at_right_or_default] *)

Lemma aod_left_spec d (b : bm) k : wf b ->
  (forall x, find_left b k = P x -> at_left_or_default d b k = (b, Some (right_key x))) /\
  (find_left b k = Sent ->
     wf (fst (at_left_or_default d b k)) /\
     snd (at_left_or_default d b k) = Some d /\
     (exists x, x ∈ inorder (left_set (fst (at_left_or_default d b k))) /\
                left_key x = k /\ right_key x = d) /\
     (forall y, y ∈ inorder (left_set b) -> equals (cmp_right b) (right_key y) d = true ->
        find_left (fst (at_left_or_default d b k)) (left_key y) =
        end_left (fst (at_left_or_default d b k))) /\
     (forall z, z ∈ inorder (left_set b) -> equals (cmp_right b) (right_key z) d = false ->
        z ∈ inorder (left_set (fst (at_left_or_default d b k)))) /\
     (present (cmp_right b) (@right_key L R) d (right_set b) ->
        size (fst (at_left_or_default d b k)) = size b) /\
     (~ present (cmp_right b) (@right_key L R) d (right_set b) ->
        size (fst (at_left_or_default d b k)) = S (size b))).
Proof.
  intros Hb. split.
  { intros x E. unfold at_left_or_default. rewrite E. reflexivity. }
  intros E. pose proof (proj1 (find_left_not_present b k Hb) E) as Hk.
  assert (Eat : at_left_or_default d b k =
    (fst (bimap_insert (if negb (it_eqb (find_right b d) (end_right b))
                        then fst (erase_right b (find_right b d)) else b) k d),
     deref_right (flip (snd (bimap_insert (if negb (it_eqb (find_right b d) (end_right b))
                        then fst (erase_right b (find_right b d)) else b) k d))))).
  { unfold at_left_or_default. rewrite E, it_eqb_sent_l. cbn [negb].
    match goal with |- context [bimap_insert ?b1 k d] => destruct (bimap_insert b1 k d) end.
    reflexivity. }
  rewrite Eat. cbn [fst snd]. clear Eat.
  destruct (find_right_cases b d Hb) as [[Ed Hd]|(y & Ed & Hy & Ey)]; rewrite Ed.
  - rewrite it_eqb_sent_r. cbn [negb].
    destruct (insert_accept_spec b k d Hb Hk Hd)
      as (x & Es & Ekl & Ekr & _ & Pl & Pr & Esz & _ & _ & _ & Hw).
    rewrite Es. cbn [flip deref_right]. rewrite Ekr.
    split; [done|]. split; [done|]. split.
    { exists x. split; [|done]. rewrite Pl. by apply elem_of_cons; left. }
    split.
    { intros y Hy Ey. exfalso. apply Hd. exists y. split; [|done]. by apply in_right_of_left. }
    split.
    { intros z Hz _. rewrite Pl. by apply elem_of_cons; right. }
    split.
    { intros Hp. by exfalso. }
    intros _. unfold size. by rewrite Esz.
  - rewrite it_eqb_P_r. cbn [negb].
    destruct (erase_right_spec b y Hb Hy)
      as (A & B & A' & B' & E1 & E1' & E2 & E2' & _ & Es & _ & Ecl & Ecr).
    pose proof (wf_erase_right b y Hb Hy) as Hb1.
    set (b1 := fst (erase_right b (P y))) in *.
    assert (Hk1 : ~ present (cmp_left b1) (@left_key L R) k (left_set b1)).
    { rewrite Ecl. intros (z & Hz & Ez). apply Hk. exists z. split; [|done].
      rewrite E1'. rewrite E2' in Hz. apply elem_of_app in Hz as [Hz|Hz]; apply elem_of_app;
        [by left|right; by apply elem_of_cons; right]. }
    assert (Hd1 : ~ present (cmp_right b1) (@right_key L R) d (right_set b1)).
    { rewrite Ecr. intros (z & Hz & Ez). rewrite E2 in Hz.
      assert (Hzy : equals (cmp_right b) (right_key z) (right_key y) = false).
      { apply (sorted_removed_absent _ _ (wf_swo_right _ Hb) A B); [|done].
        rewrite <- E1. apply Hb. }
      rewrite (equals_trans _ (wf_swo_right _ Hb) _ d) in Hzy; [done|done|].
      by rewrite equals_sym. }
    destruct (insert_accept_spec b1 k d Hb1 Hk1 Hd1)
      as (x & Es' & Ekl & Ekr & _ & Pl & Pr & Esz & _ & Ecl' & _ & Hw).
    rewrite Es'. cbn [flip deref_right]. rewrite Ekr.
    split; [done|]. split; [done|]. split.
    { exists x. split; [|done]. rewrite Pl. by apply elem_of_cons; left. }
    split.
    { intros y' Hy' Ey'. rewrite E1' in Hy'.
      apply elem_of_app in Hy' as [Hy'|Hy']; [|apply elem_of_cons in Hy' as [->|Hy']].
      - exfalso. apply Hd1. exists y'. rewrite Ecr. split; [|done].
        apply (in_right_of_left b1 y' Hb1). rewrite E2'. by apply elem_of_app; left.
      - apply (find_left_not_present _ _ Hw).
        rewrite Ecl', Ecl, (present_cons _ _ _ _ _ _ Pl), Ekl.
        intros [H|(z & Hz & Ez)].
        + apply Hk. exists y. split; [by apply in_left_of_right|]. by rewrite equals_sym.
        + rewrite E2' in Hz.
          assert (Hzy : equals (cmp_left b) (left_key z) (left_key y) = false).
          { apply (sorted_removed_absent _ _ (wf_swo_left _ Hb) A' B'); [|done].
            rewrite <- E1'. apply Hb. }
          congruence.
      - exfalso. apply Hd1. exists y'. rewrite Ecr. split; [|done].
        apply (in_right_of_left b1 y' Hb1). rewrite E2'. by apply elem_of_app; right. }
    split.
    { intros z Hz Ez. rewrite Pl. apply elem_of_cons; right. rewrite E2'. rewrite E1' in Hz.
      apply elem_of_app in Hz as [Hz|Hz]; [by apply elem_of_app; left|].
      apply elem_of_cons in Hz as [->|Hz]; [congruence|]. by apply elem_of_app; right. }
    assert (Hsz : m_size b = S (m_size b1)).
    { rewrite Es, (wf_size _ Hb), E1', length_app. simpl. lia. }
    split.
    { intros _. unfold size. by rewrite Esz, Hsz. }
    intros Hn. exfalso. apply Hn. by exists y.
Qed.

Lemma aod_right_spec d (b : bm) k : wf b ->
  (forall x, find_right b k = P x -> at_right_or_default d b k = (b, Some (left_key x))) /\
  (find_right b k = Sent ->
     wf (fst (at_right_or_default d b k)) /\
     snd (at_right_or_default d b k) = Some d /\
     (exists x, x ∈ inorder (right_set (fst (at_right_or_default d b k))) /\
                left_key x = d /\ right_key x = k) /\
     (forall y, y ∈ inorder (right_set b) -> equals (cmp_left b) (left_key y) d = true ->
        find_right (fst (at_right_or_default d b k)) (right_key y) =
        end_right (fst (at_right_or_default d b k))) /\
     (forall z, z ∈ inorder (right_set b) -> equals (cmp_left b) (left_key z) d = false ->
        z ∈ inorder (right_set (fst (at_right_or_default d b k)))) /\
     (present (cmp_left b) (@left_key L R) d (left_set b) ->
        size (fst (at_right_or_default d b k)) = size b) /\
     (~ present (cmp_left b) (@left_key L R) d (left_set b) ->
        size (fst (at_right_or_default d b k)) = S (size b))).
Proof.
  intros Hb. split.
  { intros x E. unfold at_right_or_default. rewrite E. reflexivity. }
  intros E. pose proof (proj1 (find_right_not_present b k Hb) E) as Hk.
  assert (Eat : at_right_or_default d b k =
    (fst (bimap_insert (if negb (it_eqb (find_left b d) (end_left b))
                        then fst (erase_left b (find_left b d)) else b) d k),
     deref_left (snd (bimap_insert (if negb (it_eqb (find_left b d) (end_left b))
                        then fst (erase_left b (find_left b d)) else b) d k)))).
  { unfold at_right_or_default. rewrite E, it_eqb_sent_r. cbn [negb].
    match goal with |- context [bimap_insert ?b1 d k] => destruct (bimap_insert b1 d k) end.
    reflexivity. }
  rewrite Eat. cbn [fst snd]. clear Eat.
  destruct (find_left_cases b d Hb) as [[Ed Hd]|(y & Ed & Hy & Ey)]; rewrite Ed.
  - rewrite it_eqb_sent_l. cbn [negb].
    destruct (insert_accept_spec b d k Hb Hd Hk)
      as (x & Es & Ekl & Ekr & _ & Pl & Pr & Esz & _ & _ & _ & Hw).
    rewrite Es. cbn [deref_left]. rewrite Ekl.
    split; [done|]. split; [done|]. split.
    { exists x. split; [|done]. rewrite Pr. by apply elem_of_cons; left. }
    split.
    { intros y Hy Ey. exfalso. apply Hd. exists y. split; [|done]. by apply in_left_of_right. }
    split.
    { intros z Hz _. rewrite Pr. by apply elem_of_cons; right. }
    split.
    { intros Hp. by exfalso. }
    intros _. unfold size. by rewrite Esz.
  - rewrite it_eqb_P_l. cbn [negb].
    destruct (erase_left_spec b y Hb Hy)
      as (A & B & A' & B' & E1 & E1' & E2 & E2' & _ & Es & _ & Ecl & Ecr).
    pose proof (wf_erase_left b y Hb Hy) as Hb1.
    set (b1 := fst (erase_left b (P y))) in *.
    assert (Hk1 : ~ present (cmp_right b1) (@right_key L R) k (right_set b1)).
    { rewrite Ecr. intros (z & Hz & Ez). apply Hk. exists z. split; [|done].
      rewrite E1'. rewrite E2' in Hz. apply elem_of_app in Hz as [Hz|Hz]; apply elem_of_app;
        [by left|right; by apply elem_of_cons; right]. }
    assert (Hd1 : ~ present (cmp_left b1) (@left_key L R) d (left_set b1)).
    { rewrite Ecl. intros (z & Hz & Ez). rewrite E2 in Hz.
      assert (Hzy : equals (cmp_left b) (left_key z) (left_key y) = false).
      { apply (sorted_removed_absent _ _ (wf_swo_left _ Hb) A B); [|done].
        rewrite <- E1. apply Hb. }
      rewrite (equals_trans _ (wf_swo_left _ Hb) _ d) in Hzy; [done|done|].
      by rewrite equals_sym. }
    destruct (insert_accept_spec b1 d k Hb1 Hd1 Hk1)
      as (x & Es' & Ekl & Ekr & _ & Pl & Pr & Esz & _ & _ & Ecr' & Hw).
    rewrite Es'. cbn [deref_left]. rewrite Ekl.
    split; [done|]. split; [done|]. split.
    { exists x. split; [|done]. rewrite Pr. by apply elem_of_cons; left. }
    split.
    { intros y' Hy' Ey'. rewrite E1' in Hy'.
      apply elem_of_app in Hy' as [Hy'|Hy']; [|apply elem_of_cons in Hy' as [->|Hy']].
      - exfalso. apply Hd1. exists y'. rewrite Ecl. split; [|done].
        apply (in_left_of_right b1 y' Hb1). rewrite E2'. by apply elem_of_app; left.
      - apply (find_right_not_present _ _ Hw).
        rewrite Ecr', Ecr, (present_cons _ _ _ _ _ _ Pr), Ekr.
        intros [H|(z & Hz & Ez)].
        + apply Hk. exists y. split; [by apply in_right_of_left|]. by rewrite equals_sym.
        + rewrite E2' in Hz.
          assert (Hzy : equals (cmp_right b) (right_key z) (right_key y) = false).
          { apply (sorted_removed_absent _ _ (wf_swo_right _ Hb) A' B'); [|done].
            rewrite <- E1'. apply Hb. }
          congruence.
      - exfalso. apply Hd1. exists y'. rewrite Ecl. split; [|done].
        apply (in_left_of_right b1 y' Hb1). rewrite E2'. by apply elem_of_app; right. }
    split.
    { intros z Hz Ez. rewrite Pr. apply elem_of_cons; right. rewrite E2'. rewrite E1' in Hz.
      apply elem_of_app in Hz as [Hz|Hz]; [by apply elem_of_app; left|].
      apply elem_of_cons in Hz as [->|Hz]; [congruence|]. by apply elem_of_app; right. }
    assert (Hsz : m_size b = S (m_size b1)).
    { rewrite Es, (wf_size _ Hb), E1, length_app. simpl. lia. }
    split.
    { intros _. unfold size. by rewrite Esz, Hsz. }
    intros Hn. exfalso. apply Hn. by exists y.
Qed.

(** *** Every reachable state satisfies the invariant *)

Lemma reachable_wf (b : bm) : reachable b -> wf b.
Proof.
  induction 1 as [cl cr Hl Hr|b l r _ IH|b x _ IH Hx|b x _ IH Hx|b k _ IH|b k _ IH
                 |d b k _ IH|d b k _ IH|a b _ IHa _ IHb|a b _ IHa _ IHb|b _ IH|a b _ IHa _ IHb].
  - by apply wf_new.
  - by apply wf_insert.
  - by apply wf_erase_left.
  - by apply wf_erase_right.
  - by apply wf_erase_left_key.
  - by apply wf_erase_right_key.
  - destruct (aod_left_spec d b k IH) as [H1 H2].
    destruct (find_left_cases b k IH) as [[E _]|(x & E & _)].
    + by apply H2.
    + by rewrite (H1 x E).
  - destruct (aod_right_spec d b k IH) as [H1 H2].
    destruct (find_right_cases b k IH) as [[E _]|(x & E & _)].
    + by apply H2.
    + by rewrite (H1 x E).
  - by rewrite swap_eq.
  - by rewrite swap_eq.
  - by apply copy_spec.
  - rewrite copy_assign_eq. by apply copy_spec.
Qed.
End BimapFacts.

(** ** Auxiliary facts for the statements below *)

Lemma nodup_map_eq {A B} (f : A -> B) (l : list A) x y :
  NoDup (map f l) -> x ∈ l -> y ∈ l -> f x = f y -> x = y.
Proof.
  induction l as [|a l IH]; simpl; intros Hnd Hx Hy E; [by apply elem_of_nil in Hx|].
  apply NoDup_cons in Hnd as [Ha Hnd].
  apply elem_of_cons in Hx as [->|Hx]; apply elem_of_cons in Hy as [->|Hy].
  - done.
  - exfalso. apply Ha. rewrite E. apply elem_of_map_iff. by exists y.
  - exfalso. apply Ha. rewrite <- E. apply elem_of_map_iff. by exists x.
  - by apply IH.
Qed.

Lemma first_such_in {T} (p : T -> bool) (l : list T) :
  first_such p l = Sent \/ exists x, first_such p l = P x /\ x ∈ l.
Proof.
  destruct (first_such_cases p l) as [[E _]|(A & x & B & El & E & _)]; [by left|right].
  exists x. split; [done|]. rewrite El. apply elem_of_app. right. by apply elem_of_cons; left.
Qed.

Lemma ltb_swo : strict_weak_order Nat.ltb.
Proof.
  split.
  - intros x. apply Nat.ltb_irrefl.
  - intros x y z. rewrite !Nat.ltb_lt. lia.
  - intros x y z. rewrite !Nat.ltb_lt. lia.
Qed.

Lemma parity_swo : strict_weak_order parity_lt.
Proof.
  unfold parity_lt. split.
  - intros x. apply Nat.ltb_irrefl.
  - intros x y z. rewrite !Nat.ltb_lt. lia.
  - intros x y z. rewrite !Nat.ltb_lt. lia.
Qed.

Lemma ex_single_reachable : reachable ex_single.
Proof. apply reach_insert, reach_new; apply ltb_swo. Qed.

Lemma ex_three_reachable : reachable ex_three.
Proof. apply reach_insert, reach_insert, reach_insert, reach_new; apply ltb_swo. Qed.

Lemma ex_parity_reachable : reachable ex_parity.
Proof. apply reach_insert, reach_new; [apply parity_swo|apply ltb_swo]. Qed.

Lemma ex_lt_reachable : reachable ex_lt.
Proof. apply reach_insert, reach_new; apply ltb_swo. Qed.

Section ClaimFacts.
Context {L R : Type}.
Abbreviation node := (storage_node L R).
Abbreviation bm := (bimap L R).

(** In a well-formed container at most one record holds a key equivalent
    to a given left key (and likewise on the right). *)
Lemma left_equiv_unique (b : bm) x y k : wf b ->
  x ∈ inorder (left_set b) -> y ∈ inorder (left_set b) ->
  equals (cmp_left b) (left_key x) k = true -> equals (cmp_left b) (left_key y) k = true -> x = y.
Proof.
  intros Hb Hx Hy Ex Ey.
  destruct (Nat.eq_dec (sn_addr x) (sn_addr y)) as [E|Ne].
  - exact (nodup_map_eq _ _ x y (wf_nodup _ Hb) Hx Hy E).
  - exfalso.
    assert (Hne : x <> y) by (intros ->; done).
    pose proof (sorted_distinct (cmp_left b) left_key _ x y (wf_sorted_left _ Hb) Hx Hy Hne) as H.
    rewrite (equals_trans _ (wf_swo_left _ Hb) _ k) in H; [done|done|].
    by rewrite equals_sym.
Qed.

Lemma right_equiv_unique (b : bm) x y k : wf b ->
  x ∈ inorder (right_set b) -> y ∈ inorder (right_set b) ->
  equals (cmp_right b) (right_key x) k = true -> equals (cmp_right b) (right_key y) k = true -> x = y.
Proof.
  intros Hb Hx Hy Ex Ey.
  destruct (Nat.eq_dec (sn_addr x) (sn_addr y)) as [E|Ne].
  - exact (nodup_map_eq _ _ x y (wf_nodup_right _ Hb) Hx Hy E).
  - exfalso.
    assert (Hne : x <> y) by (intros ->; done).
    pose proof (sorted_distinct (cmp_right b) right_key _ x y (wf_sorted_right _ Hb) Hx Hy Hne) as H.
    rewrite (equals_trans _ (wf_swo_right _ Hb) _ k) in H; [done|done|].
    by rewrite equals_sym.
Qed.
End ClaimFacts.

(** * The claims *)

Section Claims.
Context {L R : Type}.

(** C1: on a reachable state, [insert(l, r)] returns [end_left()] and
    leaves the container unchanged when [l] is present on the left or [r]
    on the right; otherwise it allocates one record at an address the
    container did not own, holding [l] and [r], links it into both trees,
    increments the size by one and returns a cursor to that record, which
    is in the left tree. *)
Theorem C1_insert (b : bimap L R) l r : reachable b ->
  ((present (cmp_left b) left_key l (left_set b) \/ present (cmp_right b) right_key r (right_set b)) ->
     bimap_insert b l r = (b, end_left b)) /\
  (~ present (cmp_left b) left_key l (left_set b) ->
   ~ present (cmp_right b) right_key r (right_set b) ->
     exists x, snd (bimap_insert b l r) = P x /\ left_key x = l /\ right_key x = r /\
       (sn_addr x ∉ owned b) /\ x ∈ inorder (left_set (fst (bimap_insert b l r))) /\
       inorder (left_set (fst (bimap_insert b l r))) ≡ₚ x :: inorder (left_set b) /\
       inorder (right_set (fst (bimap_insert b l r))) ≡ₚ x :: inorder (right_set b) /\
       size (fst (bimap_insert b l r)) = S (size b) /\
       owned (fst (bimap_insert b l r)) = {[sn_addr x]} ∪ owned b).
Proof.
  intros Hr. pose proof (reachable_wf b Hr) as Hb. split.
  - by apply insert_reject.
  - intros Hl Hrr.
    destruct (insert_accept_spec b l r Hb Hl Hrr)
      as (x & Es & Ekl & Ekr & Hfo & Pl & Pr & Esz & Eo & _ & _ & _).
    exists x. do 4 (split; [done|]). split; [rewrite Pl; by apply elem_of_cons; left|].
    done.
Qed.

(** C2: on a reachable state, [erase_left] of a cursor to a record [x] of
    the left tree removes [x] from both trees (after it [find_right] of
    [x]'s right key gives [end_right()]), decrements the size by one,
    releases [x]'s storage and returns a cursor to the in-order successor
    of [x] in the left tree; [erase_right] symmetrically. *)
Theorem C2_erase (b : bimap L R) x : reachable b ->
  (x ∈ inorder (left_set b) ->
     exists A B, inorder (left_set b) = A ++ x :: B /\
       inorder (left_set (fst (erase_left b (P x)))) = A ++ B /\
       snd (erase_left b (P x)) = hd_ptr B /\
       (exists A' B', inorder (right_set b) = A' ++ x :: B' /\
                      inorder (right_set (fst (erase_left b (P x)))) = A' ++ B') /\
       find_right (fst (erase_left b (P x))) (right_key x) = end_right (fst (erase_left b (P x))) /\
       S (size (fst (erase_left b (P x)))) = size b /\
       owned (fst (erase_left b (P x))) = owned b ∖ {[sn_addr x]}) /\
  (x ∈ inorder (right_set b) ->
     exists A B, inorder (right_set b) = A ++ x :: B /\
       inorder (right_set (fst (erase_right b (P x)))) = A ++ B /\
       snd (erase_right b (P x)) = hd_ptr B /\
       (exists A' B', inorder (left_set b) = A' ++ x :: B' /\
                      inorder (left_set (fst (erase_right b (P x)))) = A' ++ B') /\
       find_left (fst (erase_right b (P x))) (left_key x) = end_left (fst (erase_right b (P x))) /\
       S (size (fst (erase_right b (P x)))) = size b /\
       owned (fst (erase_right b (P x))) = owned b ∖ {[sn_addr x]}).
Proof.
  intros Hr. pose proof (reachable_wf b Hr) as Hb. split.
  - intros Hx.
    destruct (erase_left_spec b x Hb Hx)
      as (A & B & A' & B' & E1 & E1' & E2 & E2' & En & Es & Eo & Ecl & Ecr).
    pose proof (wf_erase_left b x Hb Hx) as Hw.
    exists A, B. do 3 (split; [done|]). split; [by exists A', B'|]. split.
    + apply (find_right_not_present _ _ Hw). intros (z & Hz & Ez). rewrite Ecr in Ez. rewrite E2' in Hz.
      rewrite (sorted_removed_absent _ _ (wf_swo_right _ Hb) A' B' x z) in Ez; [done| |done].
      rewrite <- E1'. apply Hb.
    + split; [|done]. unfold size. rewrite Es, (wf_size _ Hb), E1, length_app. simpl. lia.
  - intros Hx.
    destruct (erase_right_spec b x Hb Hx)
      as (A & B & A' & B' & E1 & E1' & E2 & E2' & En & Es & Eo & Ecl & Ecr).
    pose proof (wf_erase_right b x Hb Hx) as Hw.
    exists A, B. do 3 (split; [done|]). split; [by exists A', B'|]. split.
    + apply (find_left_not_present _ _ Hw). intros (z & Hz & Ez). rewrite Ecl in Ez. rewrite E2' in Hz.
      rewrite (sorted_removed_absent _ _ (wf_swo_left _ Hb) A' B' x z) in Ez; [done| |done].
      rewrite <- E1'. apply Hb.
    + split; [|done]. unfold size. rewrite Es, (wf_size _ Hb), E1', length_app. simpl. lia.
Qed.

(** C3: on a reachable state, for a record [x] of either tree, [flip] of
    the cursor to [x] is the cursor to the same record [x], which is also
    in the other tree; dereferencing it gives [x]'s key of the other
    side; [flip] is an involution and involves no lookup. *)
Theorem C3_flip (b : bimap L R) x : reachable b ->
  (x ∈ inorder (left_set b) ->
     flip (P x) = P x /\ x ∈ inorder (right_set b) /\
     deref_left (P x) = Some (left_key x) /\ deref_right (flip (P x)) = Some (right_key x)) /\
  (x ∈ inorder (right_set b) ->
     flip (P x) = P x /\ x ∈ inorder (left_set b) /\
     deref_right (P x) = Some (right_key x) /\ deref_left (flip (P x)) = Some (left_key x)) /\
  (forall c : nptr (storage_node L R), flip (flip c) = c).
Proof.
  intros Hr. pose proof (reachable_wf b Hr) as Hb. split; [|split].
  - intros Hx. split; [done|]. split; [by apply in_right_of_left|]. done.
  - intros Hx. split; [done|]. split; [by apply in_left_of_right|]. done.
  - done.
Qed.

(** C4 (as the code has it): [bimap] declares no move constructor and no
    move assignment, so moving a reachable [b] copies it: the new
    container, or the assigned one, is [==] to [b], has its size, its
    pairs in the same left order and its comparators, and [b] itself is
    left as it was, not emptied.  [swap] exchanges the whole contents
    (trees, comparators and sizes) of two containers. *)
Theorem C4_move (a b : bimap L R) : reachable a -> reachable b ->
  snd (move_construct b) = b /\
  bimap_eqb (fst (move_construct b)) b = true /\ size (fst (move_construct b)) = size b /\
  map pair_of (inorder (left_set (fst (move_construct b)))) = map pair_of (inorder (left_set b)) /\
  cmp_left (fst (move_construct b)) = cmp_left b /\ cmp_right (fst (move_construct b)) = cmp_right b /\
  snd (move_assign a b) = b /\
  bimap_eqb (fst (move_assign a b)) b = true /\ size (fst (move_assign a b)) = size b /\
  map pair_of (inorder (left_set (fst (move_assign a b)))) = map pair_of (inorder (left_set b)) /\
  cmp_left (fst (move_assign a b)) = cmp_left b /\ cmp_right (fst (move_assign a b)) = cmp_right b /\
  swap a b = (b, a).
Proof.
  intros Ha Hr. pose proof (reachable_wf b Hr) as Hb.
  destruct (copy_spec b Hb) as (Hw & Ecl & Ecr & Em & Es).
  assert (Heq : bimap_eqb (copy_construct b) b = true).
  { apply (bimap_eqb_spec _ _ Hw Hb). split; [done|].
    rewrite Ecl, Ecr. apply forall2_pair_equiv; [apply Hb|apply Hb|done]. }
  unfold move_construct, move_assign. cbn [fst snd]. rewrite copy_assign_eq.
  do 12 (split; [done|]). apply swap_eq.
Qed.

(** C5: on a reachable state, [at_left_or_default(k)] returns the right
    key paired with a left key equivalent to [k] and changes nothing when
    there is one; otherwise, with [d] the default right value, it returns
    [d], the container then holds a record (k, d), every record whose
    right key was equivalent to [d] has its left key gone (its
    [find_left] gives [end_left()]), every other record stays, and the
    size grows by one unless such a record was erased.
    [at_right_or_default] symmetrically. *)
Theorem C5_at_or_default (b : bimap L R) (dr : R) (dl : L) : reachable b ->
  (forall k,
    (present (cmp_left b) left_key k (left_set b) ->
       exists x, x ∈ inorder (left_set b) /\ equals (cmp_left b) (left_key x) k = true /\
                 at_left_or_default dr b k = (b, Some (right_key x))) /\
    (~ present (cmp_left b) left_key k (left_set b) ->
       snd (at_left_or_default dr b k) = Some dr /\
       (exists x, x ∈ inorder (left_set (fst (at_left_or_default dr b k))) /\
                  left_key x = k /\ right_key x = dr) /\
       (forall y, y ∈ inorder (left_set b) -> equals (cmp_right b) (right_key y) dr = true ->
          find_left (fst (at_left_or_default dr b k)) (left_key y) =
          end_left (fst (at_left_or_default dr b k))) /\
       (forall z, z ∈ inorder (left_set b) -> equals (cmp_right b) (right_key z) dr = false ->
          z ∈ inorder (left_set (fst (at_left_or_default dr b k)))) /\
       (present (cmp_right b) right_key dr (right_set b) ->
          size (fst (at_left_or_default dr b k)) = size b) /\
       (~ present (cmp_right b) right_key dr (right_set b) ->
          size (fst (at_left_or_default dr b k)) = S (size b)))) /\
  (forall k,
    (present (cmp_right b) right_key k (right_set b) ->
       exists x, x ∈ inorder (right_set b) /\ equals (cmp_right b) (right_key x) k = true /\
                 at_right_or_default dl b k = (b, Some (left_key x))) /\
    (~ present (cmp_right b) right_key k (right_set b) ->
       snd (at_right_or_default dl b k) = Some dl /\
       (exists x, x ∈ inorder (right_set (fst (at_right_or_default dl b k))) /\
                  left_key x = dl /\ right_key x = k) /\
       (forall y, y ∈ inorder (right_set b) -> equals (cmp_left b) (left_key y) dl = true ->
          find_right (fst (at_right_or_default dl b k)) (right_key y) =
          end_right (fst (at_right_or_default dl b k))) /\
       (forall z, z ∈ inorder (right_set b) -> equals (cmp_left b) (left_key z) dl = false ->
          z ∈ inorder (right_set (fst (at_right_or_default dl b k)))) /\
       (present (cmp_left b) left_key dl (left_set b) ->
          size (fst (at_right_or_default dl b k)) = size b) /\
       (~ present (cmp_left b) left_key dl (left_set b) ->
          size (fst (at_right_or_default dl b k)) = S (size b)))).
Proof.
  intros Hr. pose proof (reachable_wf b Hr) as Hb. split; intros k.
  - destruct (aod_left_spec dr b k Hb) as [H1 H2]. split.
    + intros Hp. destruct (find_left_cases b k Hb) as [[_ Hn]|(x & E & Hx & Ex)]; [done|].
      exists x. split; [done|]. split; [done|]. by apply H1.
    + intros Hn. apply (find_left_not_present b k Hb) in Hn. by apply H2.
  - destruct (aod_right_spec dl b k Hb) as [H1 H2]. split.
    + intros Hp. destruct (find_right_cases b k Hb) as [[_ Hn]|(x & E & Hx & Ex)]; [done|].
      exists x. split; [done|]. split; [done|]. by apply H1.
    + intros Hn. apply (find_right_not_present b k Hb) in Hn. by apply H2.
Qed.

(** C6: on a reachable state, [at_left(k)] throws [std::out_of_range]
    exactly when no left key equivalent to [k] is stored, and otherwise
    returns the right key paired with it; it never dereferences the end
    cursor.  [find_left] gives [end_left()] exactly when the key is
    absent, and [find_left], [lower_bound_left] and [upper_bound_left]
    give [end_left()] or a cursor to a stored record, never throwing.
    Symmetrically on the right. *)
Theorem C6_at (b : bimap L R) : reachable b ->
  (forall k,
    (at_left b k = Throw_out_of_range <-> ~ present (cmp_left b) left_key k (left_set b)) /\
    (forall v, at_left b k = Return v <->
       exists x, x ∈ inorder (left_set b) /\ equals (cmp_left b) (left_key x) k = true /\
                 right_key x = v) /\
    at_left b k <> Undefined /\
    (find_left b k = end_left b <-> ~ present (cmp_left b) left_key k (left_set b)) /\
    (find_left b k = end_left b \/ exists x, find_left b k = P x /\ x ∈ inorder (left_set b)) /\
    (lower_bound_left b k = end_left b \/
       exists x, lower_bound_left b k = P x /\ x ∈ inorder (left_set b)) /\
    (upper_bound_left b k = end_left b \/
       exists x, upper_bound_left b k = P x /\ x ∈ inorder (left_set b))) /\
  (forall k,
    (at_right b k = Throw_out_of_range <-> ~ present (cmp_right b) right_key k (right_set b)) /\
    (forall v, at_right b k = Return v <->
       exists x, x ∈ inorder (right_set b) /\ equals (cmp_right b) (right_key x) k = true /\
                 left_key x = v) /\
    at_right b k <> Undefined /\
    (find_right b k = end_right b <-> ~ present (cmp_right b) right_key k (right_set b)) /\
    (find_right b k = end_right b \/ exists x, find_right b k = P x /\ x ∈ inorder (right_set b)) /\
    (lower_bound_right b k = end_right b \/
       exists x, lower_bound_right b k = P x /\ x ∈ inorder (right_set b)) /\
    (upper_bound_right b k = end_right b \/
       exists x, upper_bound_right b k = P x /\ x ∈ inorder (right_set b))).
Proof.
  intros Hr. pose proof (reachable_wf b Hr) as Hb. split; intros k.
  - assert (Hlb : lower_bound_left b k = end_left b \/
                  exists x, lower_bound_left b k = P x /\ x ∈ inorder (left_set b)).
    { unfold lower_bound_left.
      rewrite (lower_bound_spec (@sn_addr L R) _ _ (wf_swo_left _ Hb) _ _ (wf_sorted_left _ Hb)).
      apply first_such_in. }
    assert (Hub : upper_bound_left b k = end_left b \/
                  exists x, upper_bound_left b k = P x /\ x ∈ inorder (left_set b)).
    { unfold upper_bound_left.
      rewrite (upper_bound_spec _ _ _ (wf_swo_left _ Hb) _ _ (wf_nodup _ Hb) (wf_sorted_left _ Hb)).
      apply first_such_in. }
    unfold at_left.
    destruct (find_left_cases b k Hb) as [[E Hn]|(x & E & Hx & Ex)]; rewrite E.
    + rewrite it_eqb_sent_l. split; [done|]. split.
      { intros v. split; [done|]. intros (x & Hx & Ex & _). exfalso. apply Hn. by exists x. }
      split; [done|]. split; [done|]. split; [by left|]. done.
    + rewrite it_eqb_P_l. cbn [flip deref_right]. split.
      { split; [done|]. intros Hn. exfalso. apply Hn. by exists x. }
      split.
      { intros v. split.
        - intros [= <-]. by exists x.
        - intros (y & Hy & Ey & <-). by rewrite (left_equiv_unique b x y k Hb Hx Hy Ex Ey). }
      split; [done|]. split.
      { split; [done|]. intros Hn. exfalso. apply Hn. by exists x. }
      split; [right; by exists x|]. done.
  - assert (Hlb : lower_bound_right b k = end_right b \/
                  exists x, lower_bound_right b k = P x /\ x ∈ inorder (right_set b)).
    { unfold lower_bound_right.
      rewrite (lower_bound_spec (@sn_addr L R) _ _ (wf_swo_right _ Hb) _ _ (wf_sorted_right _ Hb)).
      apply first_such_in. }
    assert (Hub : upper_bound_right b k = end_right b \/
                  exists x, upper_bound_right b k = P x /\ x ∈ inorder (right_set b)).
    { unfold upper_bound_right.
      rewrite (upper_bound_spec _ _ _ (wf_swo_right _ Hb) _ _ (wf_nodup_right _ Hb)
                 (wf_sorted_right _ Hb)).
      apply first_such_in. }
    unfold at_right.
    destruct (find_right_cases b k Hb) as [[E Hn]|(x & E & Hx & Ex)]; rewrite E.
    + rewrite it_eqb_sent_r. split; [done|]. split.
      { intros v. split; [done|]. intros (x & Hx & Ex & _). exfalso. apply Hn. by exists x. }
      split; [done|]. split; [done|]. split; [by left|]. done.
    + rewrite it_eqb_P_r. cbn [flip deref_left]. split.
      { split; [done|]. intros Hn. exfalso. apply Hn. by exists x. }
      split.
      { intros v. split.
        - intros [= <-]. by exists x.
        - intros (y & Hy & Ey & <-). by rewrite (right_equiv_unique b x y k Hb Hx Hy Ex Ey). }
      split; [done|]. split.
      { split; [done|]. intros Hn. exfalso. apply Hn. by exists x. }
      split; [right; by exists x|]. done.
Qed.

(** C7: for reachable [a] and [b], [a == b] holds exactly when the sizes
    agree and, walking both left trees in order in lock-step, the
    corresponding records hold equivalent left keys and equivalent right
    keys (neither is less than the other); [==] is reflexive, symmetric
    when the two containers have the same comparators, [!=] is its
    negation, and two containers built by inserting the same pairwise
    compatible pairs in two orders are [==]. *)
Theorem C7_equality (a b : bimap L R) : reachable a -> reachable b ->
  (bimap_eqb a b = true <-> size a = size b /\
     Forall2 (pair_equiv (cmp_left a) (cmp_right a)) (inorder (left_set a)) (inorder (left_set b))) /\
  bimap_eqb a a = true /\
  (cmp_left a = cmp_left b -> cmp_right a = cmp_right b -> bimap_eqb a b = bimap_eqb b a) /\
  bimap_neqb a b = negb (bimap_eqb a b) /\
  (forall ps ps' : list (L * R), ps ≡ₚ ps' ->
     ForallOrdPairs (compatible (cmp_left a) (cmp_right a)) ps ->
     bimap_eqb (insert_all (bimap_new (cmp_left a) (cmp_right a)) ps)
               (insert_all (bimap_new (cmp_left a) (cmp_right a)) ps') = true).
Proof.
  intros Hra Hrb. pose proof (reachable_wf a Hra) as Ha. pose proof (reachable_wf b Hrb) as Hb.
  split; [by apply bimap_eqb_spec|]. split.
  { apply (bimap_eqb_spec _ _ Ha Ha). split; [done|].
    apply forall2_pair_equiv; [apply Ha|apply Ha|done]. }
  split.
  { intros El Er. apply Bool.eq_iff_eq_true.
    rewrite (bimap_eqb_spec _ _ Ha Hb), (bimap_eqb_spec _ _ Hb Ha), <- El, <- Er.
    split; intros [Es Hf]; (split; [done|]); apply Forall2_flip;
      (eapply Forall2_impl; [exact Hf|]); intros x y [H1 H2]; split; by rewrite equals_sym. }
  split; [done|].
  intros ps ps' Hp Hf.
  assert (Hf' : ForallOrdPairs (compatible (cmp_left a) (cmp_right a)) ps').
  { apply (fop_perm _ (fun p q Hc => conj (eq_trans (equals_sym _ _ _) (proj1 Hc))
                                     (eq_trans (equals_sym _ _ _) (proj2 Hc))) ps); done. }
  assert (Hn : wf (bimap_new (cmp_left a) (cmp_right a))) by (apply wf_new; apply Ha).
  assert (Hempty : forall p : L * R, p ∈ ps ++ ps' ->
    ~ present (cmp_left a) (@left_key L R) p.1 Leaf /\ ~ present (cmp_right a) (@right_key L R) p.2 Leaf).
  { intros p _. simpl. split; intros (y & Hy & _); by apply elem_of_nil in Hy. }
  destruct (insert_all_spec ps _ Hn Hf) as (Hw1 & Ecl1 & Ecr1 & Hp1).
  { intros p Hq. apply Hempty, elem_of_app. by left. }
  destruct (insert_all_spec ps' _ Hn Hf') as (Hw2 & Ecl2 & Ecr2 & Hp2).
  { intros p Hq. apply Hempty, elem_of_app. by right. }
  assert (Heq : map pair_of (inorder (left_set (insert_all (bimap_new (cmp_left a) (cmp_right a)) ps))) =
                map pair_of (inorder (left_set (insert_all (bimap_new (cmp_left a) (cmp_right a)) ps')))).
  { apply (ss_perm_eq (fun p q : L * R => cmp_left a p.1 q.1 = true)).
    - intros ??? H1 H2. exact (swo_trans _ (wf_swo_left _ Ha) _ _ _ H1 H2).
    - intros ? H. by rewrite (swo_irrefl _ (wf_swo_left _ Ha)) in H.
    - apply ss_map. pose proof (wf_sorted_left _ Hw1) as Hs. rewrite Ecl1 in Hs. exact Hs.
    - apply ss_map. pose proof (wf_sorted_left _ Hw2) as Hs. rewrite Ecl2 in Hs. exact Hs.
    - rewrite Hp1, Hp2. simpl. by rewrite !app_nil_r. }
  apply (bimap_eqb_spec _ _ Hw1 Hw2). split.
  - unfold size. rewrite (wf_size _ Hw1), (wf_size _ Hw2), <- (length_map pair_of), Heq, length_map.
    done.
  - rewrite Ecl1, Ecr1. apply forall2_pair_equiv; [apply Ha|apply Ha|done].
Qed.

(** C8: on a reachable state, iterating from [begin_left()] by
    [operator++] reaches [end_left()] after visiting the records of the
    left tree in order, whose left keys are strictly increasing under the
    left comparator; symmetrically from [begin_right()]. *)
Theorem C8_iteration (b : bimap L R) : reachable b ->
  iterate_left b = Some (inorder (left_set b)) /\
  StronglySorted (fun k1 k2 => cmp_left b k1 k2 = true) (map left_key (inorder (left_set b))) /\
  iterate_right b = Some (inorder (right_set b)) /\
  StronglySorted (fun k1 k2 => cmp_right b k1 k2 = true) (map right_key (inorder (right_set b))).
Proof.
  intros Hr. pose proof (reachable_wf b Hr) as Hb. split; [|split; [|split]].
  - unfold iterate_left, begin_left. apply walk_inorder; [apply Hb|].
    rewrite tsize_length, <- (wf_size _ Hb). lia.
  - apply ss_map. exact (wf_sorted_left _ Hb).
  - unfold iterate_right, begin_right. apply walk_inorder; [by apply wf_nodup_right|].
    rewrite tsize_length, <- (Permutation_length (wf_same_nodes _ Hb)), <- (wf_size _ Hb). lia.
  - apply ss_map. exact (wf_sorted_right _ Hb).
Qed.

(** C9: on a reachable state, [lower_bound_left(k)] is the cursor to the
    first record, in left-key order, whose key is not less than [k], and
    [upper_bound_left(k)] to the first whose key is greater than [k], each
    [end_left()] when there is none; likewise on the right.  The same
    holds of [intrusive_set::lower_bound] and [upper_bound] on any tree
    sorted under a strict weak order. *)
Theorem C9_bounds (b : bimap L R) : reachable b ->
  (forall k,
     lower_bound_left b k =
       first_such (fun x => negb (cmp_left b (left_key x) k)) (inorder (left_set b)) /\
     upper_bound_left b k = first_such (fun x => cmp_left b k (left_key x)) (inorder (left_set b))) /\
  (forall k,
     lower_bound_right b k =
       first_such (fun x => negb (cmp_right b (right_key x) k)) (inorder (right_set b)) /\
     upper_bound_right b k =
       first_such (fun x => cmp_right b k (right_key x)) (inorder (right_set b))) /\
  (forall (T K : Type) (addr : T -> nat) (lt : K -> K -> bool) (get : T -> K) (t : tree T) key,
     strict_weak_order lt -> NoDup (addrs addr t) ->
     StronglySorted (fun x y => lt (get x) (get y) = true) (inorder t) ->
     lower_bound lt get t key = first_such (fun x => negb (lt (get x) key)) (inorder t) /\
     upper_bound addr lt get t key = first_such (fun x => lt key (get x)) (inorder t)).
Proof.
  intros Hr. pose proof (reachable_wf b Hr) as Hb. split; [|split].
  - intros k. split.
    + apply (lower_bound_spec (@sn_addr L R)); [apply Hb|apply Hb].
    + apply upper_bound_spec; [apply Hb|apply Hb|apply Hb].
  - intros k. split.
    + apply (lower_bound_spec (@sn_addr L R)); [apply Hb|apply Hb].
    + apply upper_bound_spec; [apply Hb|by apply wf_nodup_right|apply Hb].
  - intros T K addr lt get t key Hs Hnd Hso. split.
    + by apply (lower_bound_spec addr).
    + by apply upper_bound_spec.
Qed.
End Claims.

(** C10: [a == b] reads only [b]'s trees and size, never [b]'s comparators,
    and compares keys with [a]'s comparators: a container ordered by parity
    holding (0, 0) is [==] to one ordered by [<] holding (2, 0), and not the
    other way round. *)
Theorem C10_eq_left_comparators :
  (forall (L R : Type) (a b : bimap L R) cl cr,
     bimap_eqb a (mk_bimap cl cr (left_set b) (right_set b) (m_size b) (owned b)) = bimap_eqb a b) /\
  (reachable ex_parity /\ reachable ex_lt /\
   bimap_eqb ex_parity ex_lt = true /\ bimap_eqb ex_lt ex_parity = false).
Proof.
  split.
  - intros. reflexivity.
  - split; [apply ex_parity_reachable|]. split; [apply ex_lt_reachable|].
    split; vm_compute; reflexivity.
Qed.

(** * Counterexample *)

(** Against C4 as stated: moving from the reachable one-pair container
    [ex_single], by construction or by assignment into an empty container,
    leaves [ex_single] holding its pair, not empty, while the moved-to
    container holds a copy of that pair. *)
Lemma C4_moved_from_not_empty :
  reachable ex_single /\
  size ex_single = 1 /\
  is_empty (snd (move_construct ex_single)) = false /\
  size (snd (move_construct ex_single)) = 1 /\
  is_empty (snd (move_assign (bimap_new Nat.ltb Nat.ltb) ex_single)) = false /\
  size (snd (move_assign (bimap_new Nat.ltb Nat.ltb) ex_single)) = 1 /\
  size (fst (move_construct ex_single)) = 1.
Proof.
  split; [apply ex_single_reachable|]. vm_compute. repeat split.
Qed.

(** Against C7 as stated: [==] is not symmetric in general.  It compares
    keys with the left operand's comparators only, so the reachable
    container [ex_parity] (ordered by parity, holding (0, 0)) is [==] to
    the reachable [ex_lt] (ordered by [<], holding (2, 0)), while [ex_lt]
    is not [==] to [ex_parity]. *)
Lemma C7_eq_not_symmetric :
  reachable ex_parity /\ reachable ex_lt /\
  bimap_eqb ex_parity ex_lt = true /\ bimap_eqb ex_lt ex_parity = false /\
  bimap_neqb ex_lt ex_parity = true.
Proof.
  split; [apply ex_parity_reachable|]. split; [apply ex_lt_reachable|].
  vm_compute. repeat split.
Qed.

(** * Witnesses *)

(** Witness of [C1_insert] on a concrete reachable state. *)
Lemma C1_insert_witness : let b := ex_single in let l := 5 in let r := 7 in
  reachable b /\
  ((present (cmp_left b) left_key l (left_set b) \/ present (cmp_right b) right_key r (right_set b)) ->
     bimap_insert b l r = (b, end_left b)) /\
  (~ present (cmp_left b) left_key l (left_set b) ->
   ~ present (cmp_right b) right_key r (right_set b) ->
     exists x, snd (bimap_insert b l r) = P x /\ left_key x = l /\ right_key x = r /\
       (sn_addr x ∉ owned b) /\ x ∈ inorder (left_set (fst (bimap_insert b l r))) /\
       inorder (left_set (fst (bimap_insert b l r))) ≡ₚ x :: inorder (left_set b) /\
       inorder (right_set (fst (bimap_insert b l r))) ≡ₚ x :: inorder (right_set b) /\
       size (fst (bimap_insert b l r)) = S (size b) /\
       owned (fst (bimap_insert b l r)) = {[sn_addr x]} ∪ owned b).
Proof.
  intros b l r.
  split; [apply ex_single_reachable|]. 
  apply (C1_insert b l r); apply ex_single_reachable.
Defined.

(** Witness of [C2_erase] on a concrete reachable state. *)
Lemma C2_erase_witness : let b := ex_single in let x := (mk_storage (fresh (∅ : gset nat)) 3 0) in
  reachable b /\
  (x ∈ inorder (left_set b) ->
     exists A B, inorder (left_set b) = A ++ x :: B /\
       inorder (left_set (fst (erase_left b (P x)))) = A ++ B /\
       snd (erase_left b (P x)) = hd_ptr B /\
       (exists A' B', inorder (right_set b) = A' ++ x :: B' /\
                      inorder (right_set (fst (erase_left b (P x)))) = A' ++ B') /\
       find_right (fst (erase_left b (P x))) (right_key x) = end_right (fst (erase_left b (P x))) /\
       S (size (fst (erase_left b (P x)))) = size b /\
       owned (fst (erase_left b (P x))) = owned b ∖ {[sn_addr x]}) /\
  (x ∈ inorder (right_set b) ->
     exists A B, inorder (right_set b) = A ++ x :: B /\
       inorder (right_set (fst (erase_right b (P x)))) = A ++ B /\
       snd (erase_right b (P x)) = hd_ptr B /\
       (exists A' B', inorder (left_set b) = A' ++ x :: B' /\
                      inorder (left_set (fst (erase_right b (P x)))) = A' ++ B') /\
       find_left (fst (erase_right b (P x))) (left_key x) = end_left (fst (erase_right b (P x))) /\
       S (size (fst (erase_right b (P x)))) = size b /\
       owned (fst (erase_right b (P x))) = owned b ∖ {[sn_addr x]}).
Proof.
  intros b x.
  split; [apply ex_single_reachable|]. 
  apply (C2_erase b x); apply ex_single_reachable.
Defined.

(** Witness of [C3_flip] on a concrete reachable state. *)
Lemma C3_flip_witness : let b := ex_single in let x := (mk_storage (fresh (∅ : gset nat)) 3 0) in
  reachable b /\
  (x ∈ inorder (left_set b) ->
     flip (P x) = P x /\ x ∈ inorder (right_set b) /\
     deref_left (P x) = Some (left_key x) /\ deref_right (flip (P x)) = Some (right_key x)) /\
  (x ∈ inorder (right_set b) ->
     flip (P x) = P x /\ x ∈ inorder (left_set b) /\
     deref_right (P x) = Some (right_key x) /\ deref_left (flip (P x)) = Some (left_key x)) /\
  (forall c : nptr (storage_node nat nat), flip (flip c) = c).
Proof.
  intros b x.
  split; [apply ex_single_reachable|]. 
  apply (C3_flip b x); apply ex_single_reachable.
Defined.

(** Witness of [C4_move] on a concrete reachable state. *)
Lemma C4_move_witness : let a := ex_single in let b := ex_three in
  reachable a /\ reachable b /\
  snd (move_construct b) = b /\
  bimap_eqb (fst (move_construct b)) b = true /\ size (fst (move_construct b)) = size b /\
  map pair_of (inorder (left_set (fst (move_construct b)))) = map pair_of (inorder (left_set b)) /\
  cmp_left (fst (move_construct b)) = cmp_left b /\ cmp_right (fst (move_construct b)) = cmp_right b /\
  snd (move_assign a b) = b /\
  bimap_eqb (fst (move_assign a b)) b = true /\ size (fst (move_assign a b)) = size b /\
  map pair_of (inorder (left_set (fst (move_assign a b)))) = map pair_of (inorder (left_set b)) /\
  cmp_left (fst (move_assign a b)) = cmp_left b /\ cmp_right (fst (move_assign a b)) = cmp_right b /\
  swap a b = (b, a).
Proof.
  intros a b.
  split; [apply ex_single_reachable|]. split; [apply ex_three_reachable|]. 
  apply (C4_move a b); [apply ex_single_reachable|apply ex_three_reachable].
Defined.

(** Witness of [C5_at_or_default] on a concrete reachable state. *)
Lemma C5_at_or_default_witness : let b := ex_three in let dr := 0 in let dl := 0 in
  reachable b /\
  (forall k,
    (present (cmp_left b) left_key k (left_set b) ->
       exists x, x ∈ inorder (left_set b) /\ equals (cmp_left b) (left_key x) k = true /\
                 at_left_or_default dr b k = (b, Some (right_key x))) /\
    (~ present (cmp_left b) left_key k (left_set b) ->
       snd (at_left_or_default dr b k) = Some dr /\
       (exists x, x ∈ inorder (left_set (fst (at_left_or_default dr b k))) /\
                  left_key x = k /\ right_key x = dr) /\
       (forall y, y ∈ inorder (left_set b) -> equals (cmp_right b) (right_key y) dr = true ->
          find_left (fst (at_left_or_default dr b k)) (left_key y) =
          end_left (fst (at_left_or_default dr b k))) /\
       (forall z, z ∈ inorder (left_set b) -> equals (cmp_right b) (right_key z) dr = false ->
          z ∈ inorder (left_set (fst (at_left_or_default dr b k)))) /\
       (present (cmp_right b) right_key dr (right_set b) ->
          size (fst (at_left_or_default dr b k)) = size b) /\
       (~ present (cmp_right b) right_key dr (right_set b) ->
          size (fst (at_left_or_default dr b k)) = S (size b)))) /\
  (forall k,
    (present (cmp_right b) right_key k (right_set b) ->
       exists x, x ∈ inorder (right_set b) /\ equals (cmp_right b) (right_key x) k = true /\
                 at_right_or_default dl b k = (b, Some (left_key x))) /\
    (~ present (cmp_right b) right_key k (right_set b) ->
       snd (at_right_or_default dl b k) = Some dl /\
       (exists x, x ∈ inorder (right_set (fst (at_right_or_default dl b k))) /\
                  left_key x = dl /\ right_key x = k) /\
       (forall y, y ∈ inorder (right_set b) -> equals (cmp_left b) (left_key y) dl = true ->
          find_right (fst (at_right_or_default dl b k)) (right_key y) =
          end_right (fst (at_right_or_default dl b k))) /\
       (forall z, z ∈ inorder (right_set b) -> equals (cmp_left b) (left_key z) dl = false ->
          z ∈ inorder (right_set (fst (at_right_or_default dl b k)))) /\
       (present (cmp_left b) left_key dl (left_set b) ->
          size (fst (at_right_or_default dl b k)) = size b) /\
       (~ present (cmp_left b) left_key dl (left_set b) ->
          size (fst (at_right_or_default dl b k)) = S (size b)))).
Proof.
  intros b dr dl.
  split; [apply ex_three_reachable|]. 
  apply (C5_at_or_default b dr dl); apply ex_three_reachable.
Defined.

(** Witness of [C6_at] on a concrete reachable state. *)
Lemma C6_at_witness : let b := ex_three in
  reachable b /\
  (forall k,
    (at_left b k = Throw_out_of_range <-> ~ present (cmp_left b) left_key k (left_set b)) /\
    (forall v, at_left b k = Return v <->
       exists x, x ∈ inorder (left_set b) /\ equals (cmp_left b) (left_key x) k = true /\
                 right_key x = v) /\
    at_left b k <> Undefined /\
    (find_left b k = end_left b <-> ~ present (cmp_left b) left_key k (left_set b)) /\
    (find_left b k = end_left b \/ exists x, find_left b k = P x /\ x ∈ inorder (left_set b)) /\
    (lower_bound_left b k = end_left b \/
       exists x, lower_bound_left b k = P x /\ x ∈ inorder (left_set b)) /\
    (upper_bound_left b k = end_left b \/
       exists x, upper_bound_left b k = P x /\ x ∈ inorder (left_set b))) /\
  (forall k,
    (at_right b k = Throw_out_of_range <-> ~ present (cmp_right b) right_key k (right_set b)) /\
    (forall v, at_right b k = Return v <->
       exists x, x ∈ inorder (right_set b) /\ equals (cmp_right b) (right_key x) k = true /\
                 left_key x = v) /\
    at_right b k <> Undefined /\
    (find_right b k = end_right b <-> ~ present (cmp_right b) right_key k (right_set b)) /\
    (find_right b k = end_right b \/ exists x, find_right b k = P x /\ x ∈ inorder (right_set b)) /\
    (lower_bound_right b k = end_right b \/
       exists x, lower_bound_right b k = P x /\ x ∈ inorder (right_set b)) /\
    (upper_bound_right b k = end_right b \/
       exists x, upper_bound_right b k = P x /\ x ∈ inorder (right_set b))).
Proof.
  intros b.
  split; [apply ex_three_reachable|]. 
  apply (C6_at b); apply ex_three_reachable.
Defined.

(** Witness of [C7_equality] on a concrete reachable state. *)
Lemma C7_equality_witness : let a := ex_single in let b := ex_three in
  reachable a /\ reachable b /\
  (bimap_eqb a b = true <-> size a = size b /\
     Forall2 (pair_equiv (cmp_left a) (cmp_right a)) (inorder (left_set a)) (inorder (left_set b))) /\
  bimap_eqb a a = true /\
  (cmp_left a = cmp_left b -> cmp_right a = cmp_right b -> bimap_eqb a b = bimap_eqb b a) /\
  bimap_neqb a b = negb (bimap_eqb a b) /\
  (forall ps ps' : list (nat * nat), ps ≡ₚ ps' ->
     ForallOrdPairs (compatible (cmp_left a) (cmp_right a)) ps ->
     bimap_eqb (insert_all (bimap_new (cmp_left a) (cmp_right a)) ps)
               (insert_all (bimap_new (cmp_left a) (cmp_right a)) ps') = true).
Proof.
  intros a b.
  split; [apply ex_single_reachable|]. split; [apply ex_three_reachable|]. 
  apply (C7_equality a b); [apply ex_single_reachable|apply ex_three_reachable].
Defined.

(** Witness of [C8_iteration] on a concrete reachable state. *)
Lemma C8_iteration_witness : let b := ex_three in
  reachable b /\
  iterate_left b = Some (inorder (left_set b)) /\
  StronglySorted (fun k1 k2 => cmp_left b k1 k2 = true) (map left_key (inorder (left_set b))) /\
  iterate_right b = Some (inorder (right_set b)) /\
  StronglySorted (fun k1 k2 => cmp_right b k1 k2 = true) (map right_key (inorder (right_set b))).
Proof.
  intros b.
  split; [apply ex_three_reachable|]. 
  apply (C8_iteration b); apply ex_three_reachable.
Defined.

(** Witness of [C9_bounds] on a concrete reachable state. *)
Lemma C9_bounds_witness : let b := ex_three in
  reachable b /\
  (forall k,
     lower_bound_left b k =
       first_such (fun x => negb (cmp_left b (left_key x) k)) (inorder (left_set b)) /\
     upper_bound_left b k = first_such (fun x => cmp_left b k (left_key x)) (inorder (left_set b))) /\
  (forall k,
     lower_bound_right b k =
       first_such (fun x => negb (cmp_right b (right_key x) k)) (inorder (right_set b)) /\
     upper_bound_right b k =
       first_such (fun x => cmp_right b k (right_key x)) (inorder (right_set b))) /\
  (forall (T K : Type) (addr : T -> nat) (lt : K -> K -> bool) (get : T -> K) (t : tree T) key,
     strict_weak_order lt -> NoDup (addrs addr t) ->
     StronglySorted (fun x y => lt (get x) (get y) = true) (inorder t) ->
     lower_bound lt get t key = first_such (fun x => negb (lt (get x) key)) (inorder t) /\
     upper_bound addr lt get t key = first_such (fun x => lt key (get x)) (inorder t)).
Proof.
  intros b.
  split; [apply ex_three_reachable|]. 
  apply (C9_bounds b); apply ex_three_reachable.
Defined.

(** * Further properties of the code *)

(** ** [iterator::operator--] *)

Section DecrFacts.
Context {T : Type}.
Variable addr : T -> nat.

Lemma ptr_eqb_refl (p : nptr T) : ptr_eqb addr p p = true.
Proof. destruct p; simpl; [done|done|apply Nat.eqb_refl]. Qed.

Lemma rightmost_inorder (l : tree T) x r :
  exists hd, inorder (Node l x r) = hd ++ [rightmost r x].
Proof.
  revert l x; induction r as [|rl _ y rr IH]; intros l x.
  - exists (inorder l). done.
  - destruct (IH rl y) as [hd E]. cbn [rightmost]. exists (inorder l ++ x :: hd).
    change (inorder (Node l x (Node rl y rr))) with (inorder l ++ x :: inorder (Node rl y rr)).
    rewrite E. by rewrite <- app_assoc.
Qed.

Lemma go_right_at (c : ctx T) l x r f :
  NoDup (addrs addr (plug c (Node l x r))) -> tsize r <= f ->
  go_right addr f (plug c (Node l x r)) (P x) = P (rightmost r x).
Proof.
  revert c l x f; induction r as [|rl _ y rr IH]; intros c l x f Hnd Hf.
  - destruct f; cbn [go_right]; [done|].
    by rewrite (proj1 (proj2 (links_at addr c l x Leaf Hnd))).
  - destruct f as [|f]; simpl in Hf; [lia|]. cbn [go_right].
    rewrite (proj1 (proj2 (links_at addr c l x _ Hnd))); cbn [root_ptr].
    apply (IH (InR l x c) rl y f); [done|lia].
Qed.

Lemma climb_left_sent (t : tree T) f : climb_left addr f t Sent = Sent.
Proof. by destruct f. Qed.

Lemma climb_ctx_left_spec (c : ctx T) s c' s' :
  climb_ctx_left c s = (c', s') ->
  plug c' s' = plug c s /\ ctx_pre c' = ctx_pre c /\ tsize s' >= tsize s /\
  match c' with InL _ _ _ => False | _ => True end.
Proof.
  revert s; induction c as [|c IH y r|l y c IH]; intros s E; simpl in E.
  - injection E as <- <-. split_and!; try done; lia.
  - destruct (IH _ E) as (Hp & Hpre & Hsz & Hc).
    split_and!; [done|simpl; done|simpl in Hsz; lia|done].
  - injection E as <- <-. split_and!; try done; lia.
Qed.

Lemma climb_left_at (c : ctx T) l z r f :
  NoDup (addrs addr (plug c (Node l z r))) -> ctx_depth c < f ->
  climb_left addr f (plug c (Node l z r)) (P z) =
    match climb_ctx_left c (Node l z r) with (Top, _) => Sent | (_, s) => root_ptr s end.
Proof.
  revert l z r f; induction c as [|c IH y r'|l' y c IH]; intros l z r f Hnd Hf;
    (destruct f as [|f]; simpl in Hf; [lia|]); cbn [climb_left].
  - rewrite (proj2 (proj2 (links_at addr Top l z r Hnd))); cbn [ctx_parent plug left_of root_ptr ptr_eqb].
    rewrite Nat.eqb_refl. apply climb_left_sent.
  - rewrite (proj2 (proj2 (links_at addr (InL c y r') l z r Hnd))); cbn [ctx_parent].
    cbn [plug] in Hnd |- *. rewrite (proj1 (links_at addr c _ y r' Hnd)); cbn [root_ptr ptr_eqb].
    rewrite Nat.eqb_refl. apply IH; [done|lia].
  - rewrite (proj2 (proj2 (links_at addr (InR l' y c) l z r Hnd))); cbn [ctx_parent].
    cbn [plug] in Hnd |- *. rewrite (proj1 (links_at addr c l' y _ Hnd)).
    destruct l' as [|ll w lr]; simpl; [done|].
    destruct (Nat.eqb_spec (addr w) (addr z)) as [E|_]; [|done].
    exfalso. apply nodup_plug_sub in Hnd.
    rewrite !addrs_node, NoDup_app in Hnd. destruct Hnd as (_ & Hdis & _).
    apply (Hdis (addr w)); [rewrite elem_of_app, elem_of_cons; tauto|].
    rewrite elem_of_cons, elem_of_app, elem_of_cons, E; tauto.
Qed.

Lemma last_ptr_snoc (A : list T) y : last_ptr (A ++ [y]) = P y.
Proof. unfold last_ptr. by rewrite last_snoc. Qed.

Lemma decr_at (c : ctx T) l x r :
  NoDup (addrs addr (plug c (Node l x r))) ->
  decr addr (plug c (Node l x r)) (P x) = last_ptr (ctx_pre c ++ inorder l).
Proof.
  intros Hnd. unfold decr.
  rewrite (proj1 (links_at addr c l x r Hnd)).
  destruct l as [|ll y lr].
  - cbn [root_ptr inorder]. rewrite app_nil_r.
    rewrite climb_left_at; [|done|].
    2:{ rewrite tsize_length, inorder_plug, !length_app.
        pose proof (length_ctx_depth c) as Hd. rewrite length_app in Hd. simpl. lia. }
    destruct (climb_ctx_left c (Node Leaf x r)) as [c' s'] eqn:Ec.
    destruct (climb_ctx_left_spec _ _ _ _ Ec) as (Hp & Hpre & Hsz & Hc).
    rewrite <- Hpre. destruct c' as [|c0 y0 r0|l0 y0 c0]; [done|done|].
    destruct s' as [|l1 z1 r1]; [simpl in Hsz; lia|]. cbn [root_ptr].
    rewrite <- Hp in Hnd |- *.
    rewrite (proj2 (proj2 (links_at addr _ l1 z1 r1 Hnd))). cbn [ctx_parent ctx_pre].
    rewrite app_assoc. by rewrite last_ptr_snoc.
  - cbn [root_ptr].
    assert (E : plug c (Node (Node ll y lr) x r) = plug (InL c x r) (Node ll y lr)) by done.
    rewrite E in Hnd |- *.
    rewrite go_right_at; [|done|].
    2:{ rewrite !tsize_length, inorder_plug; cbn [inorder].
        rewrite !length_app; simpl; rewrite ?length_app; lia. }
    destruct (rightmost_inorder ll y lr) as [hd Hhd].
    rewrite Hhd, app_assoc. by rewrite last_ptr_snoc.
Qed.

Lemma decr_pred (t : tree T) A x B :
  NoDup (addrs addr t) -> inorder t = A ++ x :: B -> decr addr t (P x) = last_ptr A.
Proof.
  intros Hnd Ht.
  assert (Hx : x ∈ inorder t) by (rewrite Ht, elem_of_app, elem_of_cons; tauto).
  destruct (decompose t x Hx) as (c & l & r & ->).
  rewrite decr_at by done.
  rewrite inorder_plug in Ht; simpl in Ht.
  assert (E : (ctx_pre c ++ inorder l) ++ x :: (inorder r ++ ctx_post c) = A ++ x :: B).
  { rewrite <- Ht, <- !app_assoc. done. }
  pose proof E as E'.
  apply (split_unique addr) in E as [<- _]; [done|].
  unfold addrs in Hnd. rewrite inorder_plug in Hnd; simpl in Hnd.
  by rewrite E', <- Ht.
Qed.

Lemma decr_sent (t : tree T) :
  NoDup (addrs addr t) -> decr addr t Sent = last_ptr (inorder t).
Proof.
  intros Hnd. unfold decr. destruct t as [|l x r]; cbn [left_of root_ptr]; [done|].
  change (Node l x r) with (plug Top (Node l x r)) in *.
  rewrite go_right_at; [|done|simpl; lia].
  destruct (rightmost_inorder l x r) as [hd E]. cbn [plug]. rewrite E.
  by rewrite last_ptr_snoc.
Qed.

Lemma incr_sent (t : tree T) : incr addr t Sent = Null.
Proof. unfold incr. cbn [right_of]. by destruct (tsize t). Qed.

Lemma decr_incr (t : tree T) x :
  NoDup (addrs addr t) -> x ∈ inorder t -> decr addr t (incr addr t (P x)) = P x.
Proof.
  intros Hnd Hx. apply list_elem_of_split in Hx as (A & B & Ht).
  rewrite (incr_succ addr t A x B Hnd Ht).
  destruct B as [|y B]; cbn [hd_ptr].
  - rewrite decr_sent, Ht by done. apply last_ptr_snoc.
  - rewrite (decr_pred t (A ++ [x]) y B Hnd); [apply last_ptr_snoc|].
    by rewrite Ht, <- app_assoc.
Qed.

Lemma incr_decr (t : tree T) A x B :
  NoDup (addrs addr t) -> inorder t = A ++ x :: B -> A <> [] ->
  incr addr t (decr addr t (P x)) = P x.
Proof.
  intros Hnd Ht HA. rewrite (decr_pred t A x B Hnd Ht).
  destruct A as [|a A'] using rev_ind; [done|]. rewrite last_ptr_snoc.
  rewrite (incr_succ addr t A' a (x :: B) Hnd); [done|].
  by rewrite Ht, <- app_assoc.
Qed.

Lemma walk_back_prefix (t : tree T) A B f :
  NoDup (addrs addr t) -> inorder t = A ++ B -> length A < f ->
  walk_back addr f t (hd_ptr B) = Some (rev A).
Proof.
  revert B f. induction A as [|y A IH] using rev_ind; intros B f Hnd Ht Hf;
    (destruct f as [|f]; [simpl in Hf; lia|]); cbn [walk_back].
  - rewrite (tbegin_hd addr t Hnd), Ht. simpl. by rewrite ptr_eqb_refl.
  - rewrite (tbegin_hd addr t Hnd), Ht.
    assert (Hne : ptr_eqb addr (hd_ptr B) (hd_ptr ((A ++ [y]) ++ B)) = false).
    { destruct (A ++ [y]) as [|h rest] eqn:EA; [by destruct A|].
      destruct B as [|z B']; [done|]. cbn [hd_ptr app ptr_eqb].
      unfold addrs in Hnd. rewrite Ht in Hnd. rewrite ?EA in Hnd. cbn [app map] in Hnd.
      apply NoDup_cons in Hnd as [Hh _].
      destruct (Nat.eqb_spec (addr z) (addr h)) as [E|_]; [|done].
      exfalso. apply Hh. rewrite <- E, map_app, elem_of_app. right. by apply elem_of_cons; left. }
    rewrite Hne.
    assert (Hd : decr addr t (hd_ptr B) = P y).
    { destruct B as [|z B']; cbn [hd_ptr].
      - rewrite decr_sent, Ht by done. rewrite app_nil_r. apply last_ptr_snoc.
      - rewrite (decr_pred t (A ++ [y]) z B' Hnd Ht). apply last_ptr_snoc. }
    rewrite Hd.
    change (P y) with (hd_ptr (y :: B)).
    rewrite (IH (y :: B) f Hnd); [|by rewrite Ht, <- app_assoc|rewrite length_app in Hf; simpl in Hf; lia].
    simpl. by rewrite rev_unit.
Qed.

Lemma walk_back_all (t : tree T) f :
  NoDup (addrs addr t) -> tsize t < f -> walk_back addr f t Sent = Some (rev (inorder t)).
Proof.
  intros Hnd Hf. change Sent with (@hd_ptr T []).
  apply walk_back_prefix; [done|by rewrite app_nil_r|by rewrite <- tsize_length].
Qed.

End DecrFacts.

(** ** Insertion at a leaf and its undoing *)

Section LeafFacts.
Context {T Key : Type}.
Variable addr : T -> nat.
Variable cmp : Key -> Key -> bool.
Variable get : T -> Key.

Lemma add_to_tree_leaf_gen (t : tree T) obj (c0 : ctx T) :
  exists c, plug c0 t = plug c Leaf /\
            plug c0 (add_to_tree cmp get obj t) = plug c (Node Leaf obj Leaf).
Proof.
  revert c0; induction t as [|l IHl x r IHr]; intros c0; cbn [add_to_tree].
  - by exists c0.
  - destruct (less cmp (get obj) (get x)).
    + destruct (IHl (InL c0 x r)) as (c & E1 & E2). by exists c.
    + destruct (IHr (InR l x c0)) as (c & E1 & E2). by exists c.
Qed.

Lemma add_to_tree_leaf (t : tree T) obj :
  exists c, t = plug c Leaf /\ add_to_tree cmp get obj t = plug c (Node Leaf obj Leaf).
Proof. apply (add_to_tree_leaf_gen t obj Top). Qed.

Lemma erase_leaf (c : ctx T) obj :
  NoDup (addrs addr (plug c (Node Leaf obj Leaf))) ->
  erase addr (plug c (Node Leaf obj Leaf)) (P obj) = (plug c Leaf, P obj).
Proof. intros Hnd. unfold erase. by rewrite (locate_at addr c Leaf obj Leaf Hnd). Qed.

Lemma inorder_nil_leaf (t : tree T) : inorder t = [] -> t = Leaf.
Proof.
  destruct t as [|l x r]; simpl; [done|]. intros H.
  apply app_eq_nil in H as [_ H]. discriminate.
Qed.

End LeafFacts.

(** ** Lookups, range erasure *)

Section ExtraFacts.
Context {L R : Type}.
Abbreviation node := (storage_node L R).
Abbreviation bm := (bimap L R).

Lemma find_left_found (b : bm) x k : wf b -> x ∈ inorder (left_set b) ->
  equals (cmp_left b) (left_key x) k = true -> find_left b k = P x.
Proof.
  intros Hb Hx Ex. destruct (find_left_cases b k Hb) as [[_ Hn]|(y & E & Hy & Ey)].
  - exfalso. apply Hn. by exists x.
  - rewrite E. f_equal. exact (left_equiv_unique b y x k Hb Hy Hx Ey Ex).
Qed.

Lemma find_right_found (b : bm) x k : wf b -> x ∈ inorder (right_set b) ->
  equals (cmp_right b) (right_key x) k = true -> find_right b k = P x.
Proof.
  intros Hb Hx Ex. destruct (find_right_cases b k Hb) as [[_ Hn]|(y & E & Hy & Ey)].
  - exfalso. apply Hn. by exists x.
  - rewrite E. f_equal. exact (right_equiv_unique b y x k Hb Hy Hx Ey Ex).
Qed.

Lemma at_left_found (b : bm) x k : wf b -> x ∈ inorder (left_set b) ->
  equals (cmp_left b) (left_key x) k = true -> at_left b k = Return (right_key x).
Proof. intros Hb Hx Ex. unfold at_left. by rewrite (find_left_found b x k Hb Hx Ex). Qed.

Lemma at_right_found (b : bm) x k : wf b -> x ∈ inorder (right_set b) ->
  equals (cmp_right b) (right_key x) k = true -> at_right b k = Return (left_key x).
Proof. intros Hb Hx Ex. unfold at_right. by rewrite (find_right_found b x k Hb Hx Ex). Qed.

Lemma hd_ptr_distinct (A B C : list node) x :
  NoDup (map (@sn_addr L R) (A ++ x :: B ++ C)) -> ptr_eqb (@sn_addr L R) (P x) (hd_ptr C) = false.
Proof.
  intros Hnd. destruct C as [|z C]; [done|]. cbn [hd_ptr ptr_eqb].
  destruct (Nat.eqb_spec (sn_addr x) (sn_addr z)) as [E|_]; [|done]. exfalso.
  apply nodup_map_remove in Hnd as [_ Hn]. apply Hn. rewrite E.
  apply elem_of_map_iff. exists z. split; [done|].
  rewrite !elem_of_app, elem_of_cons. tauto.
Qed.

Lemma erase_left_loop_spec (b : bm) A B C f : wf b ->
  inorder (left_set b) = A ++ B ++ C -> length B < f ->
  wf (erase_left_loop f b (hd_ptr (B ++ C)) (hd_ptr C)) /\
  inorder (left_set (erase_left_loop f b (hd_ptr (B ++ C)) (hd_ptr C))) = A ++ C /\
  m_size (erase_left_loop f b (hd_ptr (B ++ C)) (hd_ptr C)) = m_size b - length B /\
  owned (erase_left_loop f b (hd_ptr (B ++ C)) (hd_ptr C)) =
    owned b ∖ list_to_set (map (@sn_addr L R) B).
Proof.
  revert b f; induction B as [|x B IH]; intros b f Hb E Hf;
    (destruct f as [|f]; [simpl in Hf; lia|]); cbn [erase_left_loop].
  - unfold it_eqb. rewrite ptr_eqb_refl. split_and!; [done|done|simpl; lia|].
    cbn [map list_to_set]. apply set_eq. intros z. set_solver.
  - change ((x :: B) ++ C) with (x :: (B ++ C)) in E |- *.
    assert (Hx : x ∈ inorder (left_set b)) by (rewrite E, elem_of_app, elem_of_cons; tauto).
    assert (Hnd : NoDup (map (@sn_addr L R) (A ++ x :: B ++ C))) by (rewrite <- E; apply Hb).
    cbn [hd_ptr]. unfold it_eqb. rewrite (hd_ptr_distinct A B C x Hnd).
    pose proof (wf_erase_left b x Hb Hx) as Hw.
    destruct (erase_left_spec b x Hb Hx)
      as (A0 & B0 & A' & B' & E1 & _ & E2 & _ & Enext & Es & Eo & _ & _).
    rewrite E in E1. apply (split_unique _ _ _ _ _ _ Hnd) in E1 as [<- <-].
    destruct (erase_left b (P x)) as [b1 nx] eqn:Ee. cbn [fst snd] in *. subst nx.
    destruct (IH b1 f Hw E2) as (Hw' & El & Es' & Eo'); [simpl in Hf; lia|].
    split_and!; [done|done|rewrite Es', Es; simpl; lia|].
    rewrite Eo', Eo. cbn [map list_to_set]. apply set_eq. intros z. set_solver.
Qed.

Lemma erase_right_loop_spec (b : bm) A B C f : wf b ->
  inorder (right_set b) = A ++ B ++ C -> length B < f ->
  wf (erase_right_loop f b (hd_ptr (B ++ C)) (hd_ptr C)) /\
  inorder (right_set (erase_right_loop f b (hd_ptr (B ++ C)) (hd_ptr C))) = A ++ C /\
  m_size (erase_right_loop f b (hd_ptr (B ++ C)) (hd_ptr C)) = m_size b - length B /\
  owned (erase_right_loop f b (hd_ptr (B ++ C)) (hd_ptr C)) =
    owned b ∖ list_to_set (map (@sn_addr L R) B).
Proof.
  revert b f; induction B as [|x B IH]; intros b f Hb E Hf;
    (destruct f as [|f]; [simpl in Hf; lia|]); cbn [erase_right_loop].
  - unfold it_eqb. rewrite ptr_eqb_refl. split_and!; [done|done|simpl; lia|].
    cbn [map list_to_set]. apply set_eq. intros z. set_solver.
  - change ((x :: B) ++ C) with (x :: (B ++ C)) in E |- *.
    assert (Hx : x ∈ inorder (right_set b)) by (rewrite E, elem_of_app, elem_of_cons; tauto).
    assert (Hnd : NoDup (map (@sn_addr L R) (A ++ x :: B ++ C))).
    { rewrite <- E. exact (wf_nodup_right b Hb). }
    cbn [hd_ptr]. unfold it_eqb. rewrite (hd_ptr_distinct A B C x Hnd).
    pose proof (wf_erase_right b x Hb Hx) as Hw.
    destruct (erase_right_spec b x Hb Hx)
      as (A0 & B0 & A' & B' & E1 & _ & E2 & _ & Enext & Es & Eo & _ & _).
    rewrite E in E1. apply (split_unique _ _ _ _ _ _ Hnd) in E1 as [<- <-].
    destruct (erase_right b (P x)) as [b1 nx] eqn:Ee. cbn [fst snd] in *. subst nx.
    destruct (IH b1 f Hw E2) as (Hw' & El & Es' & Eo'); [simpl in Hf; lia|].
    split_and!; [done|done|rewrite Es', Es; simpl; lia|].
    rewrite Eo', Eo. cbn [map list_to_set]. apply set_eq. intros z. set_solver.
Qed.

End ExtraFacts.

(** * Further properties *)

Section Extras.
Context {L R : Type}.

(** X1: on a reachable state, [operator--] on a cursor to a record of the
    left tree gives the cursor to the record before it in left-key order,
    and a null cursor when the record is the first; [--end_left()] gives the
    last record, a null cursor when the container is empty; [++end_left()]
    gives a null cursor.  Likewise on the right. *)
Theorem X1_decrement (b : bimap L R) : reachable b ->
  (forall A x B, inorder (left_set b) = A ++ x :: B -> decr_left b (P x) = last_ptr A) /\
  decr_left b (end_left b) = last_ptr (inorder (left_set b)) /\
  incr_left b (end_left b) = Null /\
  (forall A x B, inorder (right_set b) = A ++ x :: B -> decr_right b (P x) = last_ptr A) /\
  decr_right b (end_right b) = last_ptr (inorder (right_set b)) /\
  incr_right b (end_right b) = Null.
Proof.
  intros Hr. pose proof (reachable_wf b Hr) as Hb.
  pose proof (wf_nodup _ Hb) as Hl. pose proof (wf_nodup_right _ Hb) as Hrr.
  split_and!.
  - intros A x B E. exact (decr_pred _ _ A x B Hl E).
  - exact (decr_sent _ _ Hl).
  - apply incr_sent.
  - intros A x B E. exact (decr_pred _ _ A x B Hrr E).
  - exact (decr_sent _ _ Hrr).
  - apply incr_sent.
Qed.

(** X2: on a reachable state, stepping back by [operator--] from
    [end_left()] until [begin_left()] visits every record of the left tree
    once, in decreasing left-key order, and likewise from [end_right()]. *)
Theorem X2_reverse_iteration (b : bimap L R) : reachable b ->
  iterate_back_left b = Some (rev (inorder (left_set b))) /\
  iterate_back_right b = Some (rev (inorder (right_set b))).
Proof.
  intros Hr. pose proof (reachable_wf b Hr) as Hb. split.
  - apply walk_back_all; [apply Hb|]. rewrite tsize_length, <- (wf_size _ Hb). lia.
  - apply walk_back_all; [by apply wf_nodup_right|].
    rewrite tsize_length, <- (Permutation_length (wf_same_nodes _ Hb)), <- (wf_size _ Hb). lia.
Qed.

(** X3: on a reachable state, for every record of the left tree,
    [--] after [++] returns to the record, and [++] after [--] does too
    unless the record is the one at [begin_left()]; likewise on the
    right. *)
Theorem X3_incr_decr_roundtrip (b : bimap L R) : reachable b ->
  (forall x, x ∈ inorder (left_set b) ->
     decr_left b (incr_left b (P x)) = P x /\
     (P x <> begin_left b -> incr_left b (decr_left b (P x)) = P x)) /\
  (forall x, x ∈ inorder (right_set b) ->
     decr_right b (incr_right b (P x)) = P x /\
     (P x <> begin_right b -> incr_right b (decr_right b (P x)) = P x)).
Proof.
  intros Hr. pose proof (reachable_wf b Hr) as Hb.
  pose proof (wf_nodup _ Hb) as Hl. pose proof (wf_nodup_right _ Hb) as Hrr.
  split; intros x Hx; split.
  - exact (decr_incr _ _ x Hl Hx).
  - intros Hne. apply list_elem_of_split in Hx as (A & B & E).
    apply (incr_decr _ _ A x B Hl E). intros ->.
    apply Hne. unfold begin_left. by rewrite (tbegin_hd _ _ Hl), E.
  - exact (decr_incr _ _ x Hrr Hx).
  - intros Hne. apply list_elem_of_split in Hx as (A & B & E).
    apply (incr_decr _ _ A x B Hrr E). intros ->.
    apply Hne. unfold begin_right. by rewrite (tbegin_hd _ _ Hrr), E.
Qed.

(** X4: on a reachable state whose left tree holds, in order, the records
    [A ++ B ++ C], [erase_left(first, last)] with [first] at the first
    record of [B ++ C] and [last] at the first record of [C] (the end cursor
    when [C] is empty) returns [last] and leaves exactly the records
    [A ++ C] in both trees, the size [|A| + |C|], and frees the records of
    [B].  Likewise [erase_right(first, last)] over the right tree. *)
Theorem X4_erase_range (b : bimap L R) : reachable b ->
  (forall A B C, inorder (left_set b) = A ++ B ++ C ->
     snd (erase_left_range b (hd_ptr (B ++ C)) (hd_ptr C)) = hd_ptr C /\
     inorder (left_set (fst (erase_left_range b (hd_ptr (B ++ C)) (hd_ptr C)))) = A ++ C /\
     inorder (right_set (fst (erase_left_range b (hd_ptr (B ++ C)) (hd_ptr C)))) ≡ₚ A ++ C /\
     size (fst (erase_left_range b (hd_ptr (B ++ C)) (hd_ptr C))) = length A + length C /\
     owned (fst (erase_left_range b (hd_ptr (B ++ C)) (hd_ptr C))) =
       owned b ∖ list_to_set (map sn_addr B)) /\
  (forall A B C, inorder (right_set b) = A ++ B ++ C ->
     snd (erase_right_range b (hd_ptr (B ++ C)) (hd_ptr C)) = hd_ptr C /\
     inorder (right_set (fst (erase_right_range b (hd_ptr (B ++ C)) (hd_ptr C)))) = A ++ C /\
     inorder (left_set (fst (erase_right_range b (hd_ptr (B ++ C)) (hd_ptr C)))) ≡ₚ A ++ C /\
     size (fst (erase_right_range b (hd_ptr (B ++ C)) (hd_ptr C))) = length A + length C /\
     owned (fst (erase_right_range b (hd_ptr (B ++ C)) (hd_ptr C))) =
       owned b ∖ list_to_set (map sn_addr B)).
Proof.
  intros Hr. pose proof (reachable_wf b Hr) as Hb. split; intros A B C E.
  - unfold erase_left_range. cbn [fst snd].
    destruct (erase_left_loop_spec b A B C (S (m_size b)) Hb E) as (Hw & El & Es & Eo).
    { rewrite (wf_size _ Hb), E, !length_app. lia. }
    split_and!; [done|done| | |done].
    + rewrite <- (wf_same_nodes _ Hw), El. done.
    + unfold size. rewrite Es, (wf_size _ Hb), E, !length_app. lia.
  - unfold erase_right_range. cbn [fst snd].
    destruct (erase_right_loop_spec b A B C (S (m_size b)) Hb E) as (Hw & El & Es & Eo).
    { rewrite (wf_size _ Hb), (Permutation_length (wf_same_nodes _ Hb)), E, !length_app. lia. }
    split_and!; [done|done| | |done].
    + rewrite (wf_same_nodes _ Hw), El. done.
    + unfold size. rewrite Es, (wf_size _ Hb), (Permutation_length (wf_same_nodes _ Hb)), E,
        !length_app. lia.
Qed.

(** X5: the destructor of a reachable container, [erase_left(begin_left(),
    end_left())], frees every record the container allocated and leaves
    both trees empty and the size zero. *)
Theorem X5_destructor_frees_all (b : bimap L R) : reachable b ->
  owned (destroy b) = ∅ /\ left_set (destroy b) = Leaf /\ right_set (destroy b) = Leaf /\
  size (destroy b) = 0.
Proof.
  intros Hr. pose proof (reachable_wf b Hr) as Hb.
  unfold destroy, erase_left_range, begin_left, end_left, tend. cbn [fst].
  rewrite (tbegin_hd _ _ (wf_nodup _ Hb)).
  replace (hd_ptr (inorder (left_set b))) with (hd_ptr (inorder (left_set b) ++ [])) by
    (by rewrite app_nil_r).
  change (@Sent (storage_node L R)) with (@hd_ptr (storage_node L R) []).
  destruct (erase_left_loop_spec b [] (inorder (left_set b)) [] (S (m_size b)) Hb)
    as (Hw & El & Es & Eo); [by rewrite app_nil_r|rewrite (wf_size _ Hb); lia|].
  set (b' := erase_left_loop (S (m_size b)) b (hd_ptr (inorder (left_set b) ++ [])) (hd_ptr [])) in *.
  split_and!.
  - rewrite Eo, (wf_owned _ Hb). apply difference_diag_L.
  - by apply inorder_nil_leaf.
  - apply inorder_nil_leaf. apply Permutation_nil. rewrite <- (wf_same_nodes _ Hw), El. done.
  - unfold size. rewrite Es, (wf_size _ Hb). lia.
Qed.

(** X6: on a reachable state, [erase_left(key)] returns [false] and
    changes nothing when no left key equivalent to [key] is stored;
    otherwise it returns [true], removes that record (and only it) from the
    left tree, after which neither its left key nor its right key is
    found, decrements the size, and every other left key stays present or
    absent as before.  Likewise [erase_right(key)]. *)
Theorem X6_erase_by_key (b : bimap L R) : reachable b ->
  (forall k, ~ present (cmp_left b) left_key k (left_set b) -> erase_left_key b k = (b, false)) /\
  (forall k x, x ∈ inorder (left_set b) -> equals (cmp_left b) (left_key x) k = true ->
     snd (erase_left_key b k) = true /\
     (exists A B, inorder (left_set b) = A ++ x :: B /\
                  inorder (left_set (fst (erase_left_key b k))) = A ++ B) /\
     find_left (fst (erase_left_key b k)) k = end_left (fst (erase_left_key b k)) /\
     find_right (fst (erase_left_key b k)) (right_key x) = end_right (fst (erase_left_key b k)) /\
     S (size (fst (erase_left_key b k))) = size b /\
     (forall k', equals (cmp_left b) k' k = false ->
        (present (cmp_left b) left_key k' (left_set (fst (erase_left_key b k))) <->
         present (cmp_left b) left_key k' (left_set b)))) /\
  (forall k, ~ present (cmp_right b) right_key k (right_set b) -> erase_right_key b k = (b, false)) /\
  (forall k x, x ∈ inorder (right_set b) -> equals (cmp_right b) (right_key x) k = true ->
     snd (erase_right_key b k) = true /\
     (exists A B, inorder (right_set b) = A ++ x :: B /\
                  inorder (right_set (fst (erase_right_key b k))) = A ++ B) /\
     find_right (fst (erase_right_key b k)) k = end_right (fst (erase_right_key b k)) /\
     find_left (fst (erase_right_key b k)) (left_key x) = end_left (fst (erase_right_key b k)) /\
     S (size (fst (erase_right_key b k))) = size b /\
     (forall k', equals (cmp_right b) k' k = false ->
        (present (cmp_right b) right_key k' (right_set (fst (erase_right_key b k))) <->
         present (cmp_right b) right_key k' (right_set b)))).
Proof.
  intros Hr. pose proof (reachable_wf b Hr) as Hb.
  pose proof (wf_swo_left _ Hb) as Sl. pose proof (wf_swo_right _ Hb) as Sr.
  split_and!.
  - intros k Hn. unfold erase_left_key. by rewrite (proj2 (find_left_not_present b k Hb) Hn).
  - intros k x Hx Ex. unfold erase_left_key.
    rewrite (find_left_found b x k Hb Hx Ex), it_eqb_P_l. cbn [negb fst snd].
    pose proof (wf_erase_left b x Hb Hx) as Hw.
    destruct (erase_left_spec b x Hb Hx)
      as (A & B & A' & B' & E1 & E1' & E2 & E2' & _ & Es & _ & Ecl & Ecr).
    set (b' := fst (erase_left b (P x))) in *.
    split; [done|]. split; [by exists A, B|]. split; [|split; [|split]].
    + apply (find_left_not_present b' k Hw). unfold present. rewrite Ecl, E2.
      intros (y & Hy & Ey).
      pose proof (sorted_removed_absent (cmp_left b) left_key Sl A B x y) as H.
      rewrite <- E1 in H. specialize (H (wf_sorted_left _ Hb) Hy).
      rewrite (equals_trans _ Sl (left_key y) k (left_key x) Ey) in H; [done|].
      by rewrite equals_sym.
    + apply (find_right_not_present b' (right_key x) Hw). unfold present. rewrite Ecr, E2'.
      intros (y & Hy & Ey).
      pose proof (sorted_removed_absent (cmp_right b) right_key Sr A' B' x y) as H.
      rewrite <- E1' in H. specialize (H (wf_sorted_right _ Hb) Hy). congruence.
    + unfold size. rewrite Es, (wf_size _ Hb), E1, length_app. simpl. lia.
    + intros k' Ek'. unfold present. rewrite E2, E1. split.
      * intros (y & Hy & Ey). exists y. split; [|done].
        apply elem_of_app in Hy as [Hy|Hy]; apply elem_of_app; [by left|right].
        by apply elem_of_cons; right.
      * intros (y & Hy & Ey). exists y. split; [|done].
        apply elem_of_app in Hy as [Hy|Hy]; apply elem_of_app; [by left|right].
        apply elem_of_cons in Hy as [->|Hy]; [|done]. exfalso.
        rewrite equals_sym in Ey.
        rewrite (equals_trans _ Sl k' (left_key x) k Ey Ex) in Ek'. done.
  - intros k Hn. unfold erase_right_key. by rewrite (proj2 (find_right_not_present b k Hb) Hn).
  - intros k x Hx Ex. unfold erase_right_key.
    rewrite (find_right_found b x k Hb Hx Ex), it_eqb_P_r. cbn [negb fst snd].
    pose proof (wf_erase_right b x Hb Hx) as Hw.
    destruct (erase_right_spec b x Hb Hx)
      as (A & B & A' & B' & E1 & E1' & E2 & E2' & _ & Es & _ & Ecl & Ecr).
    set (b' := fst (erase_right b (P x))) in *.
    split; [done|]. split; [by exists A, B|]. split; [|split; [|split]].
    + apply (find_right_not_present b' k Hw). unfold present. rewrite Ecr, E2.
      intros (y & Hy & Ey).
      pose proof (sorted_removed_absent (cmp_right b) right_key Sr A B x y) as H.
      rewrite <- E1 in H. specialize (H (wf_sorted_right _ Hb) Hy).
      rewrite (equals_trans _ Sr (right_key y) k (right_key x) Ey) in H; [done|].
      by rewrite equals_sym.
    + apply (find_left_not_present b' (left_key x) Hw). unfold present. rewrite Ecl, E2'.
      intros (y & Hy & Ey).
      pose proof (sorted_removed_absent (cmp_left b) left_key Sl A' B' x y) as H.
      rewrite <- E1' in H. specialize (H (wf_sorted_left _ Hb) Hy). congruence.
    + unfold size. rewrite Es, (wf_size _ Hb), (Permutation_length (wf_same_nodes _ Hb)), E1,
        length_app. simpl. lia.
    + intros k' Ek'. unfold present. rewrite E2, E1. split.
      * intros (y & Hy & Ey). exists y. split; [|done].
        apply elem_of_app in Hy as [Hy|Hy]; apply elem_of_app; [by left|right].
        by apply elem_of_cons; right.
      * intros (y & Hy & Ey). exists y. split; [|done].
        apply elem_of_app in Hy as [Hy|Hy]; apply elem_of_app; [by left|right].
        apply elem_of_cons in Hy as [->|Hy]; [|done]. exfalso.
        rewrite equals_sym in Ey.
        rewrite (equals_trans _ Sr k' (right_key x) k Ey Ex) in Ek'. done.
Qed.

(** X7: on a reachable state where neither [l] is found on the left nor
    [r] on the right, after [insert(l, r)] [find_left(l)] gives the
    returned cursor, [at_left(l)] returns [r], [at_right(r)] returns [l],
    and every record stored before is still found by its left key and by
    its right key. *)
Theorem X7_insert_lookup (b : bimap L R) l r : reachable b ->
  find_left b l = end_left b -> find_right b r = end_right b ->
  find_left (fst (bimap_insert b l r)) l = snd (bimap_insert b l r) /\
  at_left (fst (bimap_insert b l r)) l = Return r /\
  at_right (fst (bimap_insert b l r)) r = Return l /\
  (forall y, y ∈ inorder (left_set b) ->
     find_left (fst (bimap_insert b l r)) (left_key y) = P y /\
     find_right (fst (bimap_insert b l r)) (right_key y) = P y).
Proof.
  intros Hr Hfl Hfr. pose proof (reachable_wf b Hr) as Hb.
  apply (find_left_not_present b l Hb) in Hfl. apply (find_right_not_present b r Hb) in Hfr.
  destruct (insert_accept_spec b l r Hb Hfl Hfr)
    as (x & Ex & Ekl & Ekr & _ & Pl & Pr & _ & _ & Ecl & Ecr & Hw).
  set (b' := fst (bimap_insert b l r)) in *.
  pose proof (wf_swo_left _ Hw) as Sl. pose proof (wf_swo_right _ Hw) as Sr.
  assert (Hxl : x ∈ inorder (left_set b')) by (rewrite Pl; by apply elem_of_cons; left).
  assert (Hxr : x ∈ inorder (right_set b')) by (rewrite Pr; by apply elem_of_cons; left).
  split_and!.
  - rewrite Ex. apply (find_left_found b' x l Hw Hxl). rewrite Ekl. apply equals_refl, Sl.
  - rewrite <- Ekr. apply (at_left_found b' x l Hw Hxl). rewrite Ekl. apply equals_refl, Sl.
  - rewrite <- Ekl. apply (at_right_found b' x r Hw Hxr). rewrite Ekr. apply equals_refl, Sr.
  - intros y Hy. split.
    + apply (find_left_found b' y _ Hw); [rewrite Pl; by apply elem_of_cons; right|].
      apply equals_refl, Sl.
    + apply (find_right_found b' y _ Hw).
      * rewrite Pr. apply elem_of_cons; right. by apply in_right_of_left.
      * apply equals_refl, Sr.
Qed.

(** X8: on a reachable state where neither [l] is found on the left nor
    [r] on the right, [insert(l, r)] followed by [erase_left(l)], or by
    [erase_right(r)], returns [true] and gives back exactly the state
    before the insertion: the same trees, size and allocated records. *)
Theorem X8_insert_erase_undo (b : bimap L R) l r : reachable b ->
  find_left b l = end_left b -> find_right b r = end_right b ->
  erase_left_key (fst (bimap_insert b l r)) l = (b, true) /\
  erase_right_key (fst (bimap_insert b l r)) r = (b, true).
Proof.
  intros Hr Hfl Hfr. pose proof (reachable_wf b Hr) as Hb.
  apply (find_left_not_present b l Hb) in Hfl. apply (find_right_not_present b r Hb) in Hfr.
  pose proof (wf_insert b l r Hb) as Hw.
  rewrite (insert_accept b l r Hb Hfl Hfr) in Hw |- *. cbn [fst] in Hw |- *.
  set (x := mk_storage (fresh (owned b)) l r) in *.
  set (b' := set_trees b _ _ _ _) in *.
  assert (Hfo : sn_addr x ∉ owned b) by apply is_fresh.
  assert (Eo' : ({[fresh (owned b)]} ∪ owned b) ∖ {[sn_addr x]} = owned b).
  { apply set_eq. intros z. cbn [sn_addr x] in *. set_solver. }
  destruct (add_to_tree_leaf (cmp_left b) left_key (left_set b) x) as (cl & Ebl & Eal).
  destruct (add_to_tree_leaf (cmp_right b) right_key (right_set b) x) as (cr & Ebr & Ear).
  pose proof (wf_nodup _ Hw) as Ndl. pose proof (wf_nodup_right _ Hw) as Ndr.
  cbn [b' set_trees left_set right_set] in Ndl, Ndr. rewrite Eal in Ndl. rewrite Ear in Ndr.
  assert (Hxl : x ∈ inorder (left_set b')).
  { cbn [b' set_trees left_set]. rewrite Eal, inorder_plug. cbn [inorder app]. set_solver. }
  assert (Hxr : x ∈ inorder (right_set b')).
  { cbn [b' set_trees right_set]. rewrite Ear, inorder_plug. cbn [inorder app]. set_solver. }
  assert (Hb_eq : mk_bimap (cmp_left b) (cmp_right b) (left_set b) (right_set b) (S (m_size b) - 1)
                    (owned b) = b) by (destruct b; cbn; f_equal; lia).
  split.
  - unfold erase_left_key.
    rewrite (find_left_found b' x l Hw Hxl) by (apply equals_refl, (wf_swo_left _ Hw)).
    rewrite it_eqb_P_l. cbn [negb]. unfold erase_left, flip.
    cbn [b' set_trees left_set right_set m_size owned cmp_left cmp_right].
    rewrite Eal, Ear, (erase_leaf (@sn_addr L R) cl x Ndl), (erase_leaf (@sn_addr L R) cr x Ndr).
    cbn [fst release]. unfold b', set_trees. cbn [cmp_left cmp_right].
    rewrite Eo', <- Ebl, <- Ebr, Hb_eq. done.
  - unfold erase_right_key.
    rewrite (find_right_found b' x r Hw Hxr) by (apply equals_refl, (wf_swo_right _ Hw)).
    rewrite it_eqb_P_r. cbn [negb]. unfold erase_right, flip.
    cbn [b' set_trees left_set right_set m_size owned cmp_left cmp_right].
    rewrite Eal, Ear, (erase_leaf (@sn_addr L R) cl x Ndl), (erase_leaf (@sn_addr L R) cr x Ndr).
    cbn [fst release]. unfold b', set_trees. cbn [cmp_left cmp_right].
    rewrite Eo', <- Ebl, <- Ebr, Hb_eq. done.
Qed.

(** X9: on a reachable state, two different records never hold
    equivalent left keys nor equivalent right keys; the two trees hold the
    same records; [size()] is their number; and the container owns
    exactly the records of its trees. *)
Theorem X9_bijection (b : bimap L R) : reachable b ->
  (forall x y, x ∈ inorder (left_set b) -> y ∈ inorder (left_set b) -> x <> y ->
     equals (cmp_left b) (left_key x) (left_key y) = false /\
     equals (cmp_right b) (right_key x) (right_key y) = false) /\
  inorder (left_set b) ≡ₚ inorder (right_set b) /\
  size b = length (inorder (left_set b)) /\
  owned b = list_to_set (map (@sn_addr L R) (inorder (left_set b))).
Proof.
  intros Hr. pose proof (reachable_wf b Hr) as Hb. split_and!.
  - intros x y Hx Hy Hne. split.
    + exact (sorted_distinct (cmp_left b) left_key _ x y
               (wf_sorted_left _ Hb) Hx Hy Hne).
    + exact (sorted_distinct (cmp_right b) right_key _ x y
               (wf_sorted_right _ Hb) (in_right_of_left b x Hb Hx) (in_right_of_left b y Hb Hy) Hne).
  - apply Hb.
  - apply Hb.
  - apply Hb.
Qed.

(** X10: on a reachable state, when [at_left(k)] returns [v], [at_right(v)]
    returns a left key [k'] equivalent to [k] with [at_left(k') = v];
    symmetrically from [at_right]. *)
Theorem X10_at_inverse (b : bimap L R) : reachable b ->
  (forall k v, at_left b k = Return v ->
     exists k', at_right b v = Return k' /\ equals (cmp_left b) k' k = true /\
                at_left b k' = Return v) /\
  (forall k v, at_right b k = Return v ->
     exists k', at_left b v = Return k' /\ equals (cmp_right b) k' k = true /\
                at_right b k' = Return v).
Proof.
  intros Hr. pose proof (reachable_wf b Hr) as Hb.
  pose proof (wf_swo_left _ Hb) as Sl. pose proof (wf_swo_right _ Hb) as Sr. split.
  - intros k v Ha. destruct (find_left_cases b k Hb) as [[E _]|(x & E & Hx & Ex)].
    + unfold at_left in Ha. rewrite E in Ha. discriminate.
    + rewrite (at_left_found b x k Hb Hx Ex) in Ha. injection Ha as <-.
      exists (left_key x). split_and!; [|done|].
      * apply (at_right_found b x _ Hb (in_right_of_left b x Hb Hx)). apply equals_refl, Sr.
      * apply (at_left_found b x _ Hb Hx). apply equals_refl, Sl.
  - intros k v Ha. destruct (find_right_cases b k Hb) as [[E _]|(x & E & Hx & Ex)].
    + unfold at_right in Ha. rewrite E in Ha. discriminate.
    + rewrite (at_right_found b x k Hb Hx Ex) in Ha. injection Ha as <-.
      exists (right_key x). split_and!; [|done|].
      * apply (at_left_found b x _ Hb (in_left_of_right b x Hb Hx)). apply equals_refl, Sl.
      * apply (at_right_found b x _ Hb Hx). apply equals_refl, Sr.
Qed.

Lemma incr_not_self (t : tree (storage_node L R)) x :
  NoDup (addrs (@sn_addr L R) t) -> x ∈ inorder t -> incr (@sn_addr L R) t (P x) <> P x.
Proof.
  intros Hnd Hx. apply list_elem_of_split in Hx as (A & B & E).
  rewrite (incr_succ _ t A x B Hnd E). destruct B as [|y B]; [done|]. cbn [hd_ptr].
  intros [= ->]. unfold addrs in Hnd. rewrite E in Hnd.
  apply nodup_map_remove in Hnd as [_ Hn]. apply Hn.
  apply elem_of_map_iff. exists x. split; [done|]. rewrite elem_of_app, elem_of_cons. tauto.
Qed.

Lemma find_bounds_gen {K : Type} (lt : K -> K -> bool) (get : storage_node L R -> K)
    (t : tree (storage_node L R)) k :
  strict_weak_order lt -> NoDup (addrs (@sn_addr L R) t) ->
  StronglySorted (fun x y => lt (get x) (get y) = true) (inorder t) ->
  (find lt get t k = Sent <-> lower_bound lt get t k = upper_bound (@sn_addr L R) lt get t k) /\
  (find lt get t k <> Sent -> find lt get t k = lower_bound lt get t k).
Proof.
  intros Hswo Hnd Hs.
  assert (Hin : forall x, lower_bound lt get t k = P x -> x ∈ inorder t).
  { intros x E. rewrite (lower_bound_spec (@sn_addr L R) lt get Hswo t k Hs) in E.
    destruct (first_such_in (fun x => negb (lt (get x) k)) (inorder t)) as [E'|(y & E' & Hy)];
      rewrite E' in E; [discriminate|]. by injection E as ->. }
  unfold find, upper_bound, tend. cbv zeta.
  destruct (lower_bound lt get t k) as [| |x] eqn:E.
  - split; [done|]. by intros [].
  - split; [done|]. by intros [].
  - destruct (equals lt k (get x)).
    + split; [|done]. split; [discriminate|]. intros H. exfalso.
      exact (incr_not_self t x Hnd (Hin x eq_refl) (eq_sym H)).
    + split; [done|]. by intros [].
Qed.

(** X11: on a reachable state, [find_left(k)] gives [end_left()] exactly
    when [lower_bound_left(k)] and [upper_bound_left(k)] coincide, that is
    when the range of records with a key equivalent to [k] is empty; when
    it finds a record, that record is [lower_bound_left(k)].  Likewise on
    the right. *)
Theorem X11_find_bounds (b : bimap L R) : reachable b ->
  (forall k, (find_left b k = end_left b <-> lower_bound_left b k = upper_bound_left b k) /\
             (find_left b k <> end_left b -> find_left b k = lower_bound_left b k)) /\
  (forall k, (find_right b k = end_right b <-> lower_bound_right b k = upper_bound_right b k) /\
             (find_right b k <> end_right b -> find_right b k = lower_bound_right b k)).
Proof.
  intros Hr. pose proof (reachable_wf b Hr) as Hb. split; intros k.
  - exact (find_bounds_gen (cmp_left b) left_key (left_set b) k (wf_swo_left _ Hb)
             (wf_nodup _ Hb) (wf_sorted_left _ Hb)).
  - exact (find_bounds_gen (cmp_right b) right_key (right_set b) k (wf_swo_right _ Hb)
             (wf_nodup_right _ Hb) (wf_sorted_right _ Hb)).
Qed.

(** X12: on a reachable state, [empty()] holds exactly when the left tree
    holds no record, exactly when [begin_left() == end_left()], and exactly
    when [begin_right() == end_right()]. *)
Theorem X12_empty (b : bimap L R) : reachable b ->
  (is_empty b = true <-> inorder (left_set b) = []) /\
  (is_empty b = true <-> begin_left b = end_left b) /\
  (is_empty b = true <-> begin_right b = end_right b).
Proof.
  intros Hr. pose proof (reachable_wf b Hr) as Hb.
  assert (E0 : is_empty b = true <-> inorder (left_set b) = []).
  { unfold is_empty. rewrite Nat.eqb_eq, (wf_size _ Hb). apply length_zero_iff_nil. }
  split_and!; [done| |].
  - rewrite E0. unfold begin_left, end_left, tend. rewrite (tbegin_hd _ _ (wf_nodup _ Hb)).
    by destruct (inorder (left_set b)).
  - rewrite E0. unfold begin_right, end_right, tend. rewrite (tbegin_hd _ _ (wf_nodup_right _ Hb)).
    pose proof (Permutation_length (wf_same_nodes _ Hb)) as El.
    destruct (inorder (left_set b)), (inorder (right_set b)); simpl in El; done.
Qed.

(** X14: on a reachable state, the value returned by [at_left_or_default(k)]
    is what [at_left(k)] returns on the resulting container; likewise for
    [at_right_or_default(k)] and [at_right(k)]. *)
Theorem X14_at_or_default_lookup (b : bimap L R) (dr : R) (dl : L) : reachable b ->
  (forall k, exists v, snd (at_left_or_default dr b k) = Some v /\
                       at_left (fst (at_left_or_default dr b k)) k = Return v) /\
  (forall k, exists v, snd (at_right_or_default dl b k) = Some v /\
                       at_right (fst (at_right_or_default dl b k)) k = Return v).
Proof.
  intros Hr. pose proof (reachable_wf b Hr) as Hb. split; intros k.
  - destruct (aod_left_spec dr b k Hb) as [H1 H2].
    destruct (find_left_cases b k Hb) as [[E _]|(x & E & Hx & Ex)].
    + destruct (H2 E) as (Hw & Es & (x & Hx & Ekl & Ekr) & _).
      exists dr. split; [done|]. rewrite <- Ekr at 2.
      apply (at_left_found _ x k Hw Hx). rewrite Ekl. apply equals_refl, Hw.
    + rewrite (H1 x E). exists (right_key x). split; [done|].
      exact (at_left_found b x k Hb Hx Ex).
  - destruct (aod_right_spec dl b k Hb) as [H1 H2].
    destruct (find_right_cases b k Hb) as [[E _]|(x & E & Hx & Ex)].
    + destruct (H2 E) as (Hw & Es & (x & Hx & Ekl & Ekr) & _).
      exists dl. split; [done|]. rewrite <- Ekl at 2.
      apply (at_right_found _ x k Hw Hx). rewrite Ekr. apply equals_refl, Hw.
    + rewrite (H1 x E). exists (left_key x). split; [done|].
      exact (at_right_found b x k Hb Hx Ex).
Qed.

End Extras.

(** X13: [intrusive_set::insert(obj, false)] on a sorted tree returns the
    unchanged tree and [end()] when a key equivalent to [obj]'s is already
    stored; otherwise it does what [insert(obj, true)] does: it adds [obj]
    at a leaf (the new tree is the old one with one [Leaf] replaced by the
    node of [obj]), returns a cursor to it, the tree stays sorted, holds one
    more element, and [find] of [obj]'s key then gives [obj]. *)
Theorem X13_intrusive_insert {T K : Type} (addr : T -> nat) (lt : K -> K -> bool) (get : T -> K)
    (t : tree T) (obj : T) :
  strict_weak_order lt -> StronglySorted (fun x y => lt (get x) (get y) = true) (inorder t) ->
  (present lt get (get obj) t -> insert addr lt get t obj false = (t, tend)) /\
  (~ present lt get (get obj) t ->
     insert addr lt get t obj false = insert addr lt get t obj true /\
     snd (insert addr lt get t obj false) = P obj /\
     (exists c, t = plug c Leaf /\
                fst (insert addr lt get t obj false) = plug c (Node Leaf obj Leaf)) /\
     inorder (fst (insert addr lt get t obj false)) ≡ₚ obj :: inorder t /\
     StronglySorted (fun x y => lt (get x) (get y) = true)
       (inorder (fst (insert addr lt get t obj false))) /\
     find lt get (fst (insert addr lt get t obj false)) (get obj) = P obj).
Proof.
  intros Hswo Hs.
  destruct (find_spec addr lt get Hswo t (get obj) Hs) as (Hf1 & Hf2 & Hf3). split.
  - intros Hp. unfold insert. cbn [negb andb].
    destruct (find lt get t (get obj)) as [| |y] eqn:E; [done| |done].
    exfalso. by apply (proj1 Hf1).
  - intros Hn. apply (proj2 Hf1) in Hn as Hfs.
    assert (Ei : insert addr lt get t obj false = (add_to_tree lt get obj t, P obj)).
    { unfold insert. rewrite Hfs. done. }
    assert (Hso : StronglySorted (fun x y => lt (get x) (get y) = true)
                    (inorder (add_to_tree lt get obj t))).
    { apply (add_to_tree_sorted addr lt get Hswo); [done|]. intros y Hy.
      destruct (equals lt (get y) (get obj)) eqn:Ey; [|done]. exfalso. apply Hn. by exists y. }
    rewrite Ei. cbn [fst snd].
    split_and!; [done|done|apply (add_to_tree_leaf lt get t obj)|apply add_to_tree_perm|done|].
    destruct (find_spec addr lt get Hswo (add_to_tree lt get obj t) (get obj) Hso)
      as (Hg1 & Hg2 & Hg3).
    destruct (find lt get (add_to_tree lt get obj t) (get obj)) as [| |y] eqn:E.
    + done.
    + exfalso. apply (proj1 Hg1 eq_refl). exists obj. split; [|by apply equals_refl].
      rewrite (add_to_tree_perm lt get t obj). by apply elem_of_cons; left.
    + destruct (Hg2 y eq_refl) as [Hy Ey]. rewrite (add_to_tree_perm lt get t obj) in Hy.
      apply elem_of_cons in Hy as [->|Hy]; [done|]. exfalso. apply Hn. by exists y.
Qed.

(** ** Witnesses of the further properties *)

(** Witness of [X1_decrement] on a concrete reachable state. *)
Lemma X1_decrement_witness : let b := ex_three in
  reachable b /\
  ((forall A x B, inorder (left_set b) = A ++ x :: B -> decr_left b (P x) = last_ptr A) /\
  decr_left b (end_left b) = last_ptr (inorder (left_set b)) /\
  incr_left b (end_left b) = Null /\
  (forall A x B, inorder (right_set b) = A ++ x :: B -> decr_right b (P x) = last_ptr A) /\
  decr_right b (end_right b) = last_ptr (inorder (right_set b)) /\
  incr_right b (end_right b) = Null).
Proof.
  intros b. split; [apply ex_three_reachable|].
  apply (X1_decrement b); apply ex_three_reachable.
Defined.

(** Witness of [X2_reverse_iteration] on a concrete reachable state. *)
Lemma X2_reverse_iteration_witness : let b := ex_three in
  reachable b /\
  (iterate_back_left b = Some (rev (inorder (left_set b))) /\
  iterate_back_right b = Some (rev (inorder (right_set b)))).
Proof.
  intros b. split; [apply ex_three_reachable|].
  apply (X2_reverse_iteration b); apply ex_three_reachable.
Defined.

(** Witness of [X3_incr_decr_roundtrip] on a concrete reachable state. *)
Lemma X3_incr_decr_roundtrip_witness : let b := ex_three in
  reachable b /\
  ((forall x, x ∈ inorder (left_set b) ->
     decr_left b (incr_left b (P x)) = P x /\
     (P x <> begin_left b -> incr_left b (decr_left b (P x)) = P x)) /\
  (forall x, x ∈ inorder (right_set b) ->
     decr_right b (incr_right b (P x)) = P x /\
     (P x <> begin_right b -> incr_right b (decr_right b (P x)) = P x))).
Proof.
  intros b. split; [apply ex_three_reachable|].
  apply (X3_incr_decr_roundtrip b); apply ex_three_reachable.
Defined.

(** Witness of [X4_erase_range] on a concrete reachable state. *)
Lemma X4_erase_range_witness : let b := ex_three in
  reachable b /\
  ((forall A B C, inorder (left_set b) = A ++ B ++ C ->
     snd (erase_left_range b (hd_ptr (B ++ C)) (hd_ptr C)) = hd_ptr C /\
     inorder (left_set (fst (erase_left_range b (hd_ptr (B ++ C)) (hd_ptr C)))) = A ++ C /\
     inorder (right_set (fst (erase_left_range b (hd_ptr (B ++ C)) (hd_ptr C)))) ≡ₚ A ++ C /\
     size (fst (erase_left_range b (hd_ptr (B ++ C)) (hd_ptr C))) = length A + length C /\
     owned (fst (erase_left_range b (hd_ptr (B ++ C)) (hd_ptr C))) =
       owned b ∖ list_to_set (map sn_addr B)) /\
  (forall A B C, inorder (right_set b) = A ++ B ++ C ->
     snd (erase_right_range b (hd_ptr (B ++ C)) (hd_ptr C)) = hd_ptr C /\
     inorder (right_set (fst (erase_right_range b (hd_ptr (B ++ C)) (hd_ptr C)))) = A ++ C /\
     inorder (left_set (fst (erase_right_range b (hd_ptr (B ++ C)) (hd_ptr C)))) ≡ₚ A ++ C /\
     size (fst (erase_right_range b (hd_ptr (B ++ C)) (hd_ptr C))) = length A + length C /\
     owned (fst (erase_right_range b (hd_ptr (B ++ C)) (hd_ptr C))) =
       owned b ∖ list_to_set (map sn_addr B))).
Proof.
  intros b. split; [apply ex_three_reachable|].
  apply (X4_erase_range b); apply ex_three_reachable.
Defined.

(** Witness of [X5_destructor_frees_all] on a concrete reachable state. *)
Lemma X5_destructor_frees_all_witness : let b := ex_three in
  reachable b /\
  (owned (destroy b) = ∅ /\ left_set (destroy b) = Leaf /\ right_set (destroy b) = Leaf /\
  size (destroy b) = 0).
Proof.
  intros b. split; [apply ex_three_reachable|].
  apply (X5_destructor_frees_all b); apply ex_three_reachable.
Defined.

(** Witness of [X6_erase_by_key] on a concrete reachable state. *)
Lemma X6_erase_by_key_witness : let b := ex_three in
  reachable b /\
  ((forall k, ~ present (cmp_left b) left_key k (left_set b) -> erase_left_key b k = (b, false)) /\
  (forall k x, x ∈ inorder (left_set b) -> equals (cmp_left b) (left_key x) k = true ->
     snd (erase_left_key b k) = true /\
     (exists A B, inorder (left_set b) = A ++ x :: B /\
                  inorder (left_set (fst (erase_left_key b k))) = A ++ B) /\
     find_left (fst (erase_left_key b k)) k = end_left (fst (erase_left_key b k)) /\
     find_right (fst (erase_left_key b k)) (right_key x) = end_right (fst (erase_left_key b k)) /\
     S (size (fst (erase_left_key b k))) = size b /\
     (forall k', equals (cmp_left b) k' k = false ->
        (present (cmp_left b) left_key k' (left_set (fst (erase_left_key b k))) <->
         present (cmp_left b) left_key k' (left_set b)))) /\
  (forall k, ~ present (cmp_right b) right_key k (right_set b) -> erase_right_key b k = (b, false)) /\
  (forall k x, x ∈ inorder (right_set b) -> equals (cmp_right b) (right_key x) k = true ->
     snd (erase_right_key b k) = true /\
     (exists A B, inorder (right_set b) = A ++ x :: B /\
                  inorder (right_set (fst (erase_right_key b k))) = A ++ B) /\
     find_right (fst (erase_right_key b k)) k = end_right (fst (erase_right_key b k)) /\
     find_left (fst (erase_right_key b k)) (left_key x) = end_left (fst (erase_right_key b k)) /\
     S (size (fst (erase_right_key b k))) = size b /\
     (forall k', equals (cmp_right b) k' k = false ->
        (present (cmp_right b) right_key k' (right_set (fst (erase_right_key b k))) <->
         present (cmp_right b) right_key k' (right_set b))))).
Proof.
  intros b. split; [apply ex_three_reachable|].
  apply (X6_erase_by_key b); apply ex_three_reachable.
Defined.

(** Witness of [X9_bijection] on a concrete reachable state. *)
Lemma X9_bijection_witness : let b := ex_three in
  reachable b /\
  ((forall x y, x ∈ inorder (left_set b) -> y ∈ inorder (left_set b) -> x <> y ->
     equals (cmp_left b) (left_key x) (left_key y) = false /\
     equals (cmp_right b) (right_key x) (right_key y) = false) /\
  inorder (left_set b) ≡ₚ inorder (right_set b) /\
  size b = length (inorder (left_set b)) /\
  owned b = list_to_set (map (@sn_addr nat nat) (inorder (left_set b)))).
Proof.
  intros b. split; [apply ex_three_reachable|].
  apply (X9_bijection b); apply ex_three_reachable.
Defined.

(** Witness of [X10_at_inverse] on a concrete reachable state. *)
Lemma X10_at_inverse_witness : let b := ex_three in
  reachable b /\
  ((forall k v, at_left b k = Return v ->
     exists k', at_right b v = Return k' /\ equals (cmp_left b) k' k = true /\
                at_left b k' = Return v) /\
  (forall k v, at_right b k = Return v ->
     exists k', at_left b v = Return k' /\ equals (cmp_right b) k' k = true /\
                at_right b k' = Return v)).
Proof.
  intros b. split; [apply ex_three_reachable|].
  apply (X10_at_inverse b); apply ex_three_reachable.
Defined.

(** Witness of [X11_find_bounds] on a concrete reachable state. *)
Lemma X11_find_bounds_witness : let b := ex_three in
  reachable b /\
  ((forall k, (find_left b k = end_left b <-> lower_bound_left b k = upper_bound_left b k) /\
             (find_left b k <> end_left b -> find_left b k = lower_bound_left b k)) /\
  (forall k, (find_right b k = end_right b <-> lower_bound_right b k = upper_bound_right b k) /\
             (find_right b k <> end_right b -> find_right b k = lower_bound_right b k))).
Proof.
  intros b. split; [apply ex_three_reachable|].
  apply (X11_find_bounds b); apply ex_three_reachable.
Defined.

(** Witness of [X12_empty] on a concrete reachable state. *)
Lemma X12_empty_witness : let b := ex_three in
  reachable b /\
  ((is_empty b = true <-> inorder (left_set b) = []) /\
  (is_empty b = true <-> begin_left b = end_left b) /\
  (is_empty b = true <-> begin_right b = end_right b)).
Proof.
  intros b. split; [apply ex_three_reachable|].
  apply (X12_empty b); apply ex_three_reachable.
Defined.

(** Witness of [X7_insert_lookup] on a concrete reachable state and a new pair. *)
Lemma X7_insert_lookup_witness : let b := ex_three in let l := 5 in let r := 50 in
  reachable b /\ find_left b l = end_left b /\ find_right b r = end_right b /\
  (find_left (fst (bimap_insert b l r)) l = snd (bimap_insert b l r) /\
  at_left (fst (bimap_insert b l r)) l = Return r /\
  at_right (fst (bimap_insert b l r)) r = Return l /\
  (forall y, y ∈ inorder (left_set b) ->
     find_left (fst (bimap_insert b l r)) (left_key y) = P y /\
     find_right (fst (bimap_insert b l r)) (right_key y) = P y)).
Proof.
  intros b l r. split; [apply ex_three_reachable|]. split; [vm_compute; reflexivity|].
  split; [vm_compute; reflexivity|].
  apply (X7_insert_lookup b l r); [apply ex_three_reachable|vm_compute; reflexivity|vm_compute; reflexivity].
Defined.

(** Witness of [X8_insert_erase_undo] on a concrete reachable state and a new pair. *)
Lemma X8_insert_erase_undo_witness : let b := ex_three in let l := 5 in let r := 50 in
  reachable b /\ find_left b l = end_left b /\ find_right b r = end_right b /\
  (erase_left_key (fst (bimap_insert b l r)) l = (b, true) /\
  erase_right_key (fst (bimap_insert b l r)) r = (b, true)).
Proof.
  intros b l r. split; [apply ex_three_reachable|]. split; [vm_compute; reflexivity|].
  split; [vm_compute; reflexivity|].
  apply (X8_insert_erase_undo b l r); [apply ex_three_reachable|vm_compute; reflexivity|vm_compute; reflexivity].
Defined.

(** Witness of [X14_at_or_default_lookup] on a concrete reachable state. *)
Lemma X14_at_or_default_lookup_witness : let b := ex_three in let dr := 0 in let dl := 0 in
  reachable b /\
  ((forall k, exists v, snd (at_left_or_default dr b k) = Some v /\
                       at_left (fst (at_left_or_default dr b k)) k = Return v) /\
  (forall k, exists v, snd (at_right_or_default dl b k) = Some v /\
                       at_right (fst (at_right_or_default dl b k)) k = Return v)).
Proof.
  intros b dr dl. split; [apply ex_three_reachable|].
  apply (X14_at_or_default_lookup b dr dl); apply ex_three_reachable.
Defined.

(** Witness of [X13_intrusive_insert] on the left tree of a concrete
    reachable state and a new record. *)
Lemma X13_intrusive_insert_witness :
  let addr := @sn_addr nat nat in let lt := Nat.ltb in let get := @left_key nat nat in
  let t := left_set ex_three in let obj := mk_storage 9 5 50 in
  strict_weak_order lt /\ StronglySorted (fun x y => lt (get x) (get y) = true) (inorder t) /\
  ((present lt get (get obj) t -> insert addr lt get t obj false = (t, tend)) /\
  (~ present lt get (get obj) t ->
     insert addr lt get t obj false = insert addr lt get t obj true /\
     snd (insert addr lt get t obj false) = P obj /\
     (exists c, t = plug c Leaf /\
                fst (insert addr lt get t obj false) = plug c (Node Leaf obj Leaf)) /\
     inorder (fst (insert addr lt get t obj false)) ≡ₚ obj :: inorder t /\
     StronglySorted (fun x y => lt (get x) (get y) = true)
       (inorder (fst (insert addr lt get t obj false))) /\
     find lt get (fst (insert addr lt get t obj false)) (get obj) = P obj)).
Proof.
  intros addr lt get t obj.
  assert (Hs : StronglySorted (fun x y => lt (get x) (get y) = true) (inorder t))
    by exact (wf_sorted_left _ (reachable_wf _ ex_three_reachable)).
  split; [apply ltb_swo|]. split; [exact Hs|].
  apply (X13_intrusive_insert addr lt get t obj); [apply ltb_swo|exact Hs].
Defined.
